(** * Parallel GFA emission of the compacted de Bruijn graph

    A shallow embedding of [src/CdBG_GFA_Writer.cpp]: the driver that shards
    every input sequence over the worker threads, the per-thread unitig
    walker, the emission of segments, links and path spools, the stitching of
    the shards and the writing of the GFA path.

    Machine integers are [Z] with their wrap-around written out; texts are
    lists of characters; the per-thread vectors are lists indexed by the
    thread number; the temporary spool files are a finite map from the thread
    number of their name to their content. *)

From Stdlib Require Import ZArith Lia Bool Ascii String DecimalString.
From stdpp Require Import base list gmap.

Open Scope Z_scope.

(** ** Machine arithmetic and text *)

(** [size_t] and [uint64_t] arithmetic. *)
Definition wrap64 (x : Z) : Z := x mod 2 ^ 64.

(** [uint16_t] arithmetic. *)
Definition wrap16 (x : Z) : Z := x mod 2 ^ 16.

Abbreviation text := (list ascii) (only parsing).

Definition txt (s : string) : text := list_ascii_of_string s.

(** [stream << n] for an unsigned integer. *)
Definition dec (n : Z) : text :=
  txt (NilZero.string_of_uint (N.to_uint (Z.to_N n))).

(** [stream << n] for a (signed) [int]. *)
Definition dec_int (n : Z) : text :=
  txt (NilZero.string_of_int (Z.to_int n)).

Definition TAB : text := ["009"%char].
Definition NL : text := ["010"%char].

(** [seq[i]]; the parser keeps the sequence NUL-terminated. *)
Definition seq_at (seq : text) (i : Z) : ascii :=
  nth (Z.to_nat i) seq "000"%char.

(** ** Outcomes of fallible operations

    [Aborted] is [std::exit(EXIT_FAILURE)]; [Crashed] is an operation without
    defined behaviour (the division by zero of line 90), at which the run
    ends; [Out_of_fuel] is a loop of the model whose fuel ran out. *)
Inductive Outcome (A : Type) : Type :=
| Done (a : A)
| Aborted
| Crashed
| Out_of_fuel.
Arguments Done {A} a.
Arguments Aborted {A}.
Arguments Crashed {A}.
Arguments Out_of_fuel {A}.

Definition bind_outcome {A B : Type} (o : Outcome A) (f : A -> Outcome B) : Outcome B :=
  match o with
  | Done a => f a
  | Aborted => Aborted
  | Crashed => Crashed
  | Out_of_fuel => Out_of_fuel
  end.

Definition of_fuel {A : Type} (o : option A) : Outcome A :=
  match o with
  | Some a => Done a
  | None => Out_of_fuel
  end.

(** ** k-mers *)

Inductive kmer_dir_t : Type := FWD | BWD.

(** Modelled from the spec: [cuttlefish::kmer_t] is declared outside
    [src/]; a k-mer is a fixed-width string over the nucleotides, compared
    lexicographically. *)
Abbreviation kmer_t := (list ascii) (only parsing).

Fixpoint kmer_ltb (a b : kmer_t) : bool :=
  match a, b with
  | [], [] => false
  | [], _ :: _ => true
  | _ :: _, [] => false
  | x :: a', y :: b' =>
      match Ascii.compare x y with
      | Lt => true
      | Gt => false
      | Eq => kmer_ltb a' b'
      end
  end.

Fixpoint kmer_eqb (a b : kmer_t) : bool :=
  match a, b with
  | [], [] => true
  | x :: a', y :: b' => Ascii.eqb x y && kmer_eqb a' b'
  | _, _ => false
  end.

(** [std::min(a, b)]: [b] when [b < a], otherwise [a]. *)
Definition kmer_min (a b : kmer_t) : kmer_t :=
  if kmer_ltb b a then b else a.

(** ** Oriented unitigs and the GFA output file *)

Record Oriented_Unitig : Type := {
  unitig_id : Z;
  unitig_dir : kmer_dir_t;
  start_kmer_idx : Z;
  end_kmer_idx : Z
}.

(** Modelled from the spec: [Oriented_Unitig] is declared outside [src/];
    a witness slot is optional: the default-constructed [Oriented_Unitig()]
    is the empty slot [None], and [is_valid()] tells a filled slot. *)
Definition is_valid (u : option Oriented_Unitig) : bool :=
  match u with
  | Some _ => true
  | None => false
  end.

(** [v[t]] for a vector of witness slots. *)
Definition slot (v : list (option Oriented_Unitig)) (t : nat) : option Oriented_Unitig :=
  match v !! t with
  | Some u => u
  | None => None
  end.

(** The GFA output file, as the chunks appended to it: the messages the
    logger received (with the thread that sent each) and the texts written
    through a plain file stream (the header and the path records). *)
Inductive Chunk : Type :=
| Logged (t : nat) (msg : text)
| Direct (content : text).

Definition chunk_text (c : Chunk) : text :=
  match c with
  | Logged _ msg => msg
  | Direct content => content
  end.

Definition logged_by (t : nat) (c : Chunk) : text :=
  match c with
  | Logged t' msg => if Nat.eqb t t' then msg else []
  | Direct _ => []
  end.

(** [(dir == cuttlefish::FWD ? "+" : "-")]. *)
Definition sign (d : kmer_dir_t) : text :=
  match d with
  | FWD => txt "+"
  | BWD => txt "-"
  end.

(** ** The sharding of a sequence (driver, lines 90-104) *)

Record Task : Type := {
  task_id : nat;
  left_end : Z;
  right_end : Z
}.

(** The [for] loop that spawns the workers: [n] iterations remain, the loop
    counter is [task_id]. *)
Fixpoint spawn_tasks (n : nat) (seq_len k : Z) (thread_count : nat)
    (task_size : Z) (task_id : nat) (left_end : Z) : list Task :=
  match n with
  | O => []
  | S n' =>
      let right_end :=
        if Z.of_nat task_id =? Z.of_nat thread_count - 1
        then wrap64 (seq_len - k)
        else wrap64 (wrap64 (left_end + task_size) - 1) in
      {| task_id := task_id; left_end := left_end; right_end := right_end |}
        :: spawn_tasks n' seq_len k thread_count task_size (S task_id)
             (wrap64 (left_end + task_size))
  end.

(** [(seq_len - k + 1) / thread_count], for a positive [thread_count]; the
    driver does not get to a value of it when [thread_count] is 0 (see
    [process_sequence]). *)
Definition task_size_of (seq_len k : Z) (thread_count : nat) : Z :=
  wrap64 (wrap64 (seq_len - k) + 1) / Z.of_nat thread_count.

(** The ranges handed to the workers for a sequence of length [seq_len]. *)
Definition shard_tasks (seq_len k : Z) (thread_count : nat) : list Task :=
  let task_size := task_size_of seq_len k thread_count in
  if task_size =? 0
  then [ {| task_id := 0; left_end := 0; right_end := wrap64 (seq_len - k) |} ]
  else spawn_tasks thread_count seq_len k thread_count task_size 0 0.

(** ** Vertex classes *)

(** Modelled from the spec: [Vertex_Class] is declared outside [src/]; a
    class pairs the summary of the predecessors of a vertex with that of
    its successors, each unique or multiple, in canonical orientation. *)
Inductive Degree : Type := unique | multi.

Record Vertex_Class : Type := {
  predecessors : Degree;
  successors : Degree
}.

#[global] Instance Degree_eq_dec : EqDecision Degree.
Proof. solve_decision. Defined.

#[global] Instance Vertex_Class_eq_dec : EqDecision Vertex_Class.
Proof. solve_decision. Defined.

(** ** A small instance of the helpers, for the examples

    Nucleotides complement as A with T and C with G; a k-mer hashes to its
    value in base four; a unipath starts where the predecessors of the
    vertex or the successors of the previous vertex are multiple, seen in
    the direction of the walk, and ends symmetrically. *)
Definition toy_complement (c : ascii) : ascii :=
  if Ascii.eqb c "A" then "T"%char
  else if Ascii.eqb c "C" then "G"%char
  else if Ascii.eqb c "G" then "C"%char
  else if Ascii.eqb c "T" then "A"%char
  else c.

Definition toy_code (c : ascii) : Z :=
  if Ascii.eqb c "C" then 1
  else if Ascii.eqb c "G" then 2
  else if Ascii.eqb c "T" then 3
  else 0.

Definition toy_bucket_id (x : kmer_t) : Z :=
  fold_left (fun acc c => acc * 4 + toy_code c) x 0.

Definition toy_multi_in (c : Vertex_Class) (d : kmer_dir_t) : bool :=
  match d with
  | FWD => if decide (predecessors c = multi) then true else false
  | BWD => if decide (successors c = multi) then true else false
  end.

Definition toy_multi_out (c : Vertex_Class) (d : kmer_dir_t) : bool :=
  match d with
  | FWD => if decide (successors c = multi) then true else false
  | BWD => if decide (predecessors c = multi) then true else false
  end.

Definition toy_is_unipath_start (c : Vertex_Class) (d : kmer_dir_t)
    (pc : Vertex_Class) (pd : kmer_dir_t) : bool :=
  toy_multi_in c d || toy_multi_out pc pd.

Definition toy_is_unipath_end (c : Vertex_Class) (d : kmer_dir_t)
    (nc : Vertex_Class) (nd : kmer_dir_t) : bool :=
  toy_multi_out c d || toy_multi_in nc nd.

Definition toy_class : Vertex_Class :=
  {| predecessors := unique; successors := unique |}.

Definition toy_header : text := txt "H" ++ TAB ++ txt "VN:Z:1.0".

(** * The pipeline of the read graph

    A shallow embedding of [src/Read_CdBG.cpp]: the order in which
    [Read_CdBG::construct] runs the stages of the construction of the
    compacted graph of a set of reads. The stages (the enumeration of the
    k-mers, the hash table, the computation of the states, the extraction
    of the unitigs and of the cycles, the build information) are defined
    outside [src/]: a stage is a step that changes the world in a way the
    embedding does not look into, and what the pipeline reads back from a
    stage is a query on the world. *)
Module Read_CdBG.

(** The accessors of [Build_Params] the pipeline uses. *)
Record Build_Params : Type := {
  json_file_path : text;
  output_prefix : text;
  seqs : list text;
  cutoff : Z;
  thread_count : Z;
  max_memory : Z;
  strict_memory : bool;
  working_dir_path : text;
  mph_file_path : text;
  extract_cycles : bool;
  dcc_opt : bool
}.

(** The accessors of [kmer_Enumeration_Stats] the pipeline uses. *)
Record kmer_Enumeration_Stats : Type := {
  kmer_count : Z;
  stats_max_memory : Z
}.

Inductive InputFileType : Type := FASTQ | KMC.

(** The calls of the pipeline into the rest of the program, with their
    arguments, and the lines it prints. *)
Inductive Step : Type :=
| Say (msg : text)
| Add_build_params (params : Build_Params)
| Enumerate (kmer_len : Z) (input_type : InputFileType) (inputs : list text)
    (cutoff_ thread_count_ max_memory_ : Z) (strict_memory_ estimate_mem_usage : bool)
    (working_dir db_path : text)
| Make_hash_table (db_path : text) (kmer_count_ : Z)
| Construct_hash_table (thread_count_ : Z) (working_dir mph_file : text)
| Compute_DFA_states (edge_db_path : text)
| Add_basic_info
| Save_hash_table (params : Build_Params)
| Extract_maximal_unitigs (vertex_db_path : text)
| Add_unipaths_info
| Extract_detached_cycles (vertex_db_path : text)
| Add_DCC_info
| Remove_hash_table (params : Build_Params)
| Clear_hash_table
| Dump_info.

Definition is_save (s : Step) : bool :=
  match s with
  | Save_hash_table _ => true
  | _ => false
  end.

Definition is_cycle_extraction (s : Step) : bool :=
  match s with
  | Extract_detached_cycles _ => true
  | _ => false
  end.

Definition is_unitig_extraction (s : Step) : bool :=
  match s with
  | Extract_maximal_unitigs _ => true
  | _ => false
  end.

(** How many of the steps satisfy [p]. *)
Definition count (p : Step -> bool) (steps : list Step) : nat :=
  length (List.filter p steps).

Section Pipeline.

(** The template parameter, the file extensions, and the world: what a
    step does to it, and what the pipeline asks of it. *)
Variable k : Z.
Variable edges_ext vertices_ext : text.
Variable World : Type.
Variable perform : Step -> World -> World.
Variable file_exists : text -> World -> bool.
Variable has_dcc : World -> bool.
Variable dcc_extracted : World -> bool.
Variable extractor_has_dcc : World -> bool.
Variable enumeration_stats : World -> kmer_Enumeration_Stats.

(** A computation of the pipeline: from a world, a result, the world
    afterwards and the steps taken, in order. *)
Definition M (A : Type) : Type := World -> A * World * list Step.

Definition ret {A : Type} (x : A) : M A := fun w => (x, w, []).

Definition bind {A B : Type} (m : M A) (f : A -> M B) : M B := fun w =>
  let '(x, w1, steps1) := m w in
  let '(y, w2, steps2) := f x w1 in
  (y, w2, steps1 ++ steps2).

Declare Scope pipeline_scope.
Delimit Scope pipeline_scope with pipeline.
Notation "x ← m ; e" := (bind m (fun x => e))
  (at level 20, m at level 100, e at level 200, only parsing) : pipeline_scope.
Notation "m ;; e" := (bind m (fun _ => e))
  (at level 100, e at level 200, only parsing, right associativity) : pipeline_scope.
Local Open Scope pipeline_scope.

Definition call (s : Step) : M unit := fun w => (tt, perform s w, [s]).

Definition ask {A : Type} (query : World -> A) : M A := fun w => (query w, w, []).

(** [std::cout << msg]. *)
Definition say (msg : text) : M unit := call (Say msg).

(** [kmer_Enumerator<kmer_len>::enumerate], which returns the statistics
    of the enumeration. *)
Definition enumerate (kmer_len : Z) (input_type : InputFileType) (inputs : list text)
    (cutoff_ thread_count_ max_memory_ : Z) (strict_memory_ estimate_mem_usage : bool)
    (working_dir db_path : text) : M kmer_Enumeration_Stats :=
  call (Enumerate kmer_len input_type inputs cutoff_ thread_count_ max_memory_
          strict_memory_ estimate_mem_usage working_dir db_path);;
  ask enumeration_stats.

(** [Read_CdBG::is_constructed] (lines 126-130). *)
Definition is_constructed (params : Build_Params) : M bool :=
  ask (file_exists (json_file_path params)).

(** [Read_CdBG::compute_DFA_states] (lines 73-80). *)
Definition compute_DFA_states (params : Build_Params) (edge_db_path : text) : M unit :=
  call (Compute_DFA_states edge_db_path);;
  call Add_basic_info.

(** [Read_CdBG::extract_maximal_unitigs] (lines 83-123). *)
Definition extract_maximal_unitigs (params : Build_Params) (vertex_db_path : text)
    : M unit :=
  constructed ← is_constructed params;
  if negb constructed
  then
    call (Extract_maximal_unitigs vertex_db_path);;
    call Add_unipaths_info;;
    found ← ask extractor_has_dcc;
    if found
    then
      if extract_cycles params
      then
        call (Extract_detached_cycles vertex_db_path);;
        call Add_DCC_info
      else if dcc_opt params
      then call (Save_hash_table params)
      else ret tt
    else ret tt
  else if extract_cycles params
  then
    known ← ask has_dcc;
    if known
    then
      extracted ← ask dcc_extracted;
      if negb extracted
      then
        call (Extract_detached_cycles vertex_db_path);;
        call Add_DCC_info
      else
        say (NL ++ txt "The DCCs (Detached Chordless Cycles) have already been extracted earlier."
               ++ NL)
    else
      say (NL ++ txt "The de Bruijn graph has no DCCs (Detached Chordless Cycles)." ++ NL)
  else say (NL ++ txt "Nothing to do." ++ NL).

(** The test [!dbg_info.has_dcc() || dbg_info.dcc_extracted()]. *)
Definition no_cycle_pending : M bool :=
  known ← ask has_dcc;
  if negb known then ret true else ask dcc_extracted.

(** [Read_CdBG::construct] (lines 19-70). *)
Definition construct (params : Build_Params) : M unit :=
  constructed ← is_constructed params;
  complete ← (if constructed then no_cycle_pending else ret false);
  if complete
  then
    say (NL ++ txt "The compacted de Bruijn graph has already been completely constructed earlier."
           ++ NL)
  else
    call (Add_build_params params);;
    say (NL ++ txt "Enumerating the edges of the de Bruijn graph." ++ NL);;
    let edge_db_path := output_prefix params ++ edges_ext in
    edge_stats ← enumerate (k + 1) FASTQ (seqs params) (cutoff params)
                   (thread_count params) (max_memory params) (strict_memory params) true
                   (working_dir_path params) edge_db_path;
    say (NL ++ txt "Enumerating the vertices of the de Bruijn graph." ++ NL);;
    let vertex_db_path := output_prefix params ++ vertices_ext in
    vertex_stats ← enumerate k KMC [edge_db_path] 1
                     (thread_count params) (stats_max_memory edge_stats)
                     (strict_memory params) false
                     (working_dir_path params) vertex_db_path;
    say (txt "Number of edges:    " ++ dec (kmer_count edge_stats) ++ txt "." ++ NL);;
    say (txt "Number of vertices: " ++ dec (kmer_count vertex_stats) ++ txt "." ++ NL);;
    say (NL ++ txt "Constructing the minimal perfect hash function (MPHF) over the vertex set."
           ++ NL);;
    call (Make_hash_table vertex_db_path (kmer_count vertex_stats));;
    call (Construct_hash_table (thread_count params) (working_dir_path params)
            (mph_file_path params));;
    say (NL ++ txt "Computing the DFA states." ++ NL);;
    compute_DFA_states params edge_db_path;;
    (if negb (extract_cycles params) && negb (dcc_opt params)
     then call (Save_hash_table params)
     else ret tt);;
    say (NL ++ txt "Extracting the maximal unitigs." ++ NL);;
    extract_maximal_unitigs params vertex_db_path;;
    removable ← no_cycle_pending;
    (if removable then call (Remove_hash_table params) else ret tt);;
    call Clear_hash_table;;
    call Dump_info.

End Pipeline.

End Read_CdBG.

Section Writer.

(** ** What the writer takes from the rest of the program

    The k-mer length [k] (a [uint16_t] member of [CdBG]), the constants and
    the helpers declared outside [src/]. *)
Variable k : Z.
Variable PLACEHOLDER_NUCLEOTIDE : ascii.
Variable GFA_HEADER : text.
Variable MAX_BUFF_SIZE : Z.
Variable complement : ascii -> ascii.
Variable bucket_id : kmer_t -> Z.
Variable is_unipath_start :
  Vertex_Class -> kmer_dir_t -> Vertex_Class -> kmer_dir_t -> bool.
Variable is_unipath_end :
  Vertex_Class -> kmer_dir_t -> Vertex_Class -> kmer_dir_t -> bool.

(** ** Vertex states and the hash table *)

(** Modelled from the spec: [State] is declared outside [src/]; a vertex
    state is its DFA class and the one-bit [outputted] flag, and
    [outputted()] is the old state with the flag set. *)
Record State : Type := {
  state_class : Vertex_Class;
  is_outputted : bool
}.

Definition outputted (s : State) : State :=
  {| state_class := state_class s; is_outputted := true |}.

#[global] Instance State_eq_dec : EqDecision State.
Proof. solve_decision. Defined.

(** Modelled from the spec: [Kmer_Hash_Table] and [Kmer_Hash_Entry_API] are
    declared outside [src/]; [Vertices[bucket]] loads the state of a slot
    together with the token of the later update (the state as read), and
    [update] is a compare-and-swap of the slot against that token. *)
Record Kmer_Hash_Entry_API : Type := {
  entry_bucket : Z;
  state_read : State;
  get_state : State
}.

Definition Kmer_Hash_Table := Z -> State.

Definition load (V : Kmer_Hash_Table) (bucket : Z) : Kmer_Hash_Entry_API :=
  {| entry_bucket := bucket; state_read := V bucket; get_state := V bucket |}.

Definition update (V : Kmer_Hash_Table) (e : Kmer_Hash_Entry_API) : bool * Kmer_Hash_Table :=
  if decide (V (entry_bucket e) = state_read e)
  then (true, fun b => if b =? entry_bucket e then get_state e else V b)
  else (false, V).

(** ** Annotated k-mers *)

Record Annotated_Kmer : Type := {
  kmer : kmer_t;
  rev_compl : kmer_t;
  canonical : kmer_t;
  idx : Z;
  dir : kmer_dir_t;
  vertex_class : Vertex_Class
}.

(** The value of a default-constructed [Annotated_Kmer]; the walker assigns
    such a variable before it reads it. *)
Variable Annotated_Kmer_default : Annotated_Kmer.

Definition reverse_complement (s : text) : text := rev (map complement s).

(** [cuttlefish::kmer_t(seq, kmer_idx)]. *)
Definition kmer_of (seq : text) (kmer_idx : Z) : kmer_t :=
  take (Z.to_nat k) (drop (Z.to_nat kmer_idx) seq).

(** Modelled from the spec: the constructor
    [Annotated_Kmer(kmer, kmer_idx, Vertices)] is declared outside [src/];
    the canonical form is the minimum of the k-mer and its reverse
    complement, [dir] is [FWD] iff the k-mer is its canonical form, and
    [vertex_class] is loaded from the hash table. *)
Definition annotate (x : kmer_t) (kmer_idx : Z) (V : Kmer_Hash_Table) : Annotated_Kmer :=
  let rc := reverse_complement x in
  let c := kmer_min x rc in
  {| kmer := x; rev_compl := rc; canonical := c; idx := kmer_idx;
     dir := if kmer_eqb x c then FWD else BWD;
     vertex_class := state_class (V (bucket_id c)) |}.

(** Modelled from the spec: [roll_to_next_kmer(next_nucl, Vertices)] shifts
    the k-mer by one symbol and rederives the annotation. *)
Definition roll_to_next_kmer (next_nucl : ascii) (V : Kmer_Hash_Table)
    (a : Annotated_Kmer) : Annotated_Kmer :=
  annotate (tail (kmer a) ++ [next_nucl]) (wrap64 (idx a + 1)) V.

(** ** The state of the writer

    The members of [CdBG] the writer touches, the temporary spool files
    ([path_file !! t] is the content of the file [PATH_OUTPUT_PREFIX + t],
    absent when there is no such file) and the GFA output file. A stream of
    [path_output] or [overlap_output] is its failure flag. *)
Record CdBG : Type := {
  Vertices : Kmer_Hash_Table;
  output_buffer : list text;
  buffer_size : list Z;
  first_unitig : list (option Oriented_Unitig);
  second_unitig : list (option Oriented_Unitig);
  last_unitig : list (option Oriented_Unitig);
  path_output : list bool;
  overlap_output : list bool;
  seq_count : Z;
  path_file : gmap nat text;
  overlap_file : gmap nat text;
  gfa_file : list Chunk
}.

Definition set_Vertices (v : Kmer_Hash_Table) (st : CdBG) : CdBG :=
  {| Vertices := v; output_buffer := output_buffer st;
     buffer_size := buffer_size st; first_unitig := first_unitig st;
     second_unitig := second_unitig st; last_unitig := last_unitig st;
     path_output := path_output st; overlap_output := overlap_output st;
     seq_count := seq_count st; path_file := path_file st;
     overlap_file := overlap_file st; gfa_file := gfa_file st |}.

Definition set_output_buffer (v : list text) (st : CdBG) : CdBG :=
  {| Vertices := Vertices st; output_buffer := v;
     buffer_size := buffer_size st; first_unitig := first_unitig st;
     second_unitig := second_unitig st; last_unitig := last_unitig st;
     path_output := path_output st; overlap_output := overlap_output st;
     seq_count := seq_count st; path_file := path_file st;
     overlap_file := overlap_file st; gfa_file := gfa_file st |}.

Definition set_buffer_size (v : list Z) (st : CdBG) : CdBG :=
  {| Vertices := Vertices st; output_buffer := output_buffer st;
     buffer_size := v; first_unitig := first_unitig st;
     second_unitig := second_unitig st; last_unitig := last_unitig st;
     path_output := path_output st; overlap_output := overlap_output st;
     seq_count := seq_count st; path_file := path_file st;
     overlap_file := overlap_file st; gfa_file := gfa_file st |}.

Definition set_witnesses (f s l : list (option Oriented_Unitig)) (st : CdBG) : CdBG :=
  {| Vertices := Vertices st; output_buffer := output_buffer st;
     buffer_size := buffer_size st; first_unitig := f;
     second_unitig := s; last_unitig := l;
     path_output := path_output st; overlap_output := overlap_output st;
     seq_count := seq_count st; path_file := path_file st;
     overlap_file := overlap_file st; gfa_file := gfa_file st |}.

Definition set_streams (p o : list bool) (st : CdBG) : CdBG :=
  {| Vertices := Vertices st; output_buffer := output_buffer st;
     buffer_size := buffer_size st; first_unitig := first_unitig st;
     second_unitig := second_unitig st; last_unitig := last_unitig st;
     path_output := p; overlap_output := o;
     seq_count := seq_count st; path_file := path_file st;
     overlap_file := overlap_file st; gfa_file := gfa_file st |}.

Definition set_seq_count (v : Z) (st : CdBG) : CdBG :=
  {| Vertices := Vertices st; output_buffer := output_buffer st;
     buffer_size := buffer_size st; first_unitig := first_unitig st;
     second_unitig := second_unitig st; last_unitig := last_unitig st;
     path_output := path_output st; overlap_output := overlap_output st;
     seq_count := v; path_file := path_file st;
     overlap_file := overlap_file st; gfa_file := gfa_file st |}.

Definition set_files (p o : gmap nat text) (st : CdBG) : CdBG :=
  {| Vertices := Vertices st; output_buffer := output_buffer st;
     buffer_size := buffer_size st; first_unitig := first_unitig st;
     second_unitig := second_unitig st; last_unitig := last_unitig st;
     path_output := path_output st; overlap_output := overlap_output st;
     seq_count := seq_count st; path_file := p;
     overlap_file := o; gfa_file := gfa_file st |}.

Definition set_gfa_file (v : list Chunk) (st : CdBG) : CdBG :=
  {| Vertices := Vertices st; output_buffer := output_buffer st;
     buffer_size := buffer_size st; first_unitig := first_unitig st;
     second_unitig := second_unitig st; last_unitig := last_unitig st;
     path_output := path_output st; overlap_output := overlap_output st;
     seq_count := seq_count st; path_file := path_file st;
     overlap_file := overlap_file st; gfa_file := v |}.

(** The text of [output_buffer[t]] (empty for a thread without a buffer). *)
Definition buffer_of (st : CdBG) (t : nat) : text :=
  match output_buffer st !! t with
  | Some b => b
  | None => []
  end.

(** Everything thread [t] has emitted so far, in order: what it already
    handed to the logger, then what is still in its buffer. *)
Definition thread_text (st : CdBG) (t : nat) : text :=
  concat (map (logged_by t) (gfa_file st)) ++ buffer_of st t.

(** ** Buffers (lines 353-415) *)

(** [output_buffer[thread_id] << x]. *)
Definition buffer_write (thread_id : nat) (x : text) (st : CdBG) : CdBG :=
  set_output_buffer (alter (fun b => b ++ x) thread_id (output_buffer st)) st.

(** Modelled from the spec: [fill_buffer] and [flush_buffer] are defined
    outside [src/]; the buffer of a thread is handed to the append-only
    sink and emptied once its size count reaches the threshold. *)
Definition flush_buffer (thread_id : nat) (st : CdBG) : CdBG :=
  set_buffer_size (<[thread_id := 0]> (buffer_size st))
    (set_output_buffer (<[thread_id := []]> (output_buffer st))
       (set_gfa_file (gfa_file st ++ [Logged thread_id (buffer_of st thread_id)]) st)).

Definition fill_buffer (thread_id : nat) (fill_amount : Z) (st : CdBG) : CdBG :=
  let size := wrap64 (default 0 (buffer_size st !! thread_id) + fill_amount) in
  let st' := set_buffer_size (<[thread_id := size]> (buffer_size st)) st in
  if MAX_BUFF_SIZE <=? size then flush_buffer thread_id st' else st'.

(** The first loop of [write_gfa_segment]:
    [for(idx = start_kmer_idx; idx <= last; ++idx) buffer << seq[idx]]. *)
Fixpoint spell_fwd (fuel : nat) (seq : text) (i last : Z) : text :=
  match fuel with
  | O => []
  | S fuel' =>
      if i <=? last
      then seq_at seq i :: spell_fwd fuel' seq (wrap64 (i + 1)) last
      else []
  end.

(** The second loop of [write_gfa_segment]:
    [while(idx > start_kmer_idx) { idx--; buffer << complement(seq[idx]); }]. *)
Fixpoint spell_bwd (fuel : nat) (seq : text) (i first : Z) : text :=
  match fuel with
  | O => []
  | S fuel' =>
      if i >? first
      then complement (seq_at seq (wrap64 (i - 1)))
             :: spell_bwd fuel' seq (wrap64 (i - 1)) first
      else []
  end.

(** The segment field of an S-record. *)
Definition segment_field (seq : text) (start_kmer_idx end_kmer_idx : Z)
    (d : kmer_dir_t) : text :=
  match d with
  | FWD =>
      let last := wrap64 (wrap64 (end_kmer_idx + k) - 1) in
      spell_fwd (Z.to_nat (last - start_kmer_idx + 1)) seq start_kmer_idx last
  | BWD =>
      let i := wrap64 (end_kmer_idx + k) in
      spell_bwd (Z.to_nat (i - start_kmer_idx)) seq i start_kmer_idx
  end.

(** The line [write_gfa_segment] puts into the buffer. *)
Definition segment_line (seq : text) (segment_name start_kmer_idx end_kmer_idx : Z)
    (d : kmer_dir_t) : text :=
  txt "S" ++ TAB ++ dec segment_name
    ++ TAB ++ segment_field seq start_kmer_idx end_kmer_idx d
    ++ TAB ++ txt "LN:i:" ++ dec (wrap64 (wrap64 (end_kmer_idx - start_kmer_idx) + k))
    ++ TAB ++ txt "KC:i:" ++ dec (wrap64 (wrap64 (end_kmer_idx - start_kmer_idx) + 1))
    ++ NL.

Definition write_gfa_segment (thread_id : nat) (seq : text)
    (segment_name start_kmer_idx end_kmer_idx : Z) (d : kmer_dir_t) (st : CdBG) : CdBG :=
  fill_buffer thread_id 1
    (buffer_write thread_id
       (segment_line seq segment_name start_kmer_idx end_kmer_idx d) st).

(** [(right.start_kmer_idx == left.end_kmer_idx + 1 ? k - 1 : 0)], an [int]. *)
Definition overlap_of (left_unitig right_unitig : Oriented_Unitig) : Z :=
  if start_kmer_idx right_unitig =? wrap64 (end_kmer_idx left_unitig + 1)
  then k - 1
  else 0.

(** The line [write_gfa_link] puts into the buffer; the overlap is stored
    in a [uint16_t] before it is printed. *)
Definition link_line (left_unitig right_unitig : Oriented_Unitig) : text :=
  txt "L"
    ++ TAB ++ dec (unitig_id left_unitig) ++ TAB ++ sign (unitig_dir left_unitig)
    ++ TAB ++ dec (unitig_id right_unitig) ++ TAB ++ sign (unitig_dir right_unitig)
    ++ TAB ++ dec (wrap16 (overlap_of left_unitig right_unitig)) ++ txt "M"
    ++ NL.

Definition write_gfa_link (thread_id : nat) (left_unitig right_unitig : Oriented_Unitig)
    (st : CdBG) : CdBG :=
  fill_buffer thread_id 1 (buffer_write thread_id (link_line left_unitig right_unitig) st).

(** [stream[t] << x] on a spool: the text reaches the file of the stream
    unless the stream has failed. *)
Definition spool_write (t : nat) (x : text) (streams : list bool)
    (files : gmap nat text) : gmap nat text :=
  match streams !! t with
  | Some false => alter (fun c => c ++ x) t files
  | _ => files
  end.

Definition path_entry (right_unitig : Oriented_Unitig) : text :=
  txt "," ++ dec (unitig_id right_unitig) ++ sign (unitig_dir right_unitig).

Definition overlap_entry (left_unitig right_unitig : Oriented_Unitig) : text :=
  txt "," ++ dec_int (overlap_of left_unitig right_unitig) ++ txt "M".

Definition append_link_to_path (thread_id : nat) (left_unitig right_unitig : Oriented_Unitig)
    (st : CdBG) : CdBG :=
  set_files
    (spool_write thread_id (path_entry right_unitig) (path_output st) (path_file st))
    (spool_write thread_id (overlap_entry left_unitig right_unitig)
       (overlap_output st) (overlap_file st))
    st.

(** ** Emission of one unitig (lines 304-350) *)

(** The local [current_unitig] of [output_unitig_gfa]: the unitig is named
    by the bucket of the smaller canonical flanking k-mer, and oriented by
    comparing the first k-mer with the reverse complement of the last. *)
Definition current_unitig_of (start_kmer end_kmer : Annotated_Kmer) : Oriented_Unitig :=
  let min_flanking_kmer := kmer_min (canonical start_kmer) (canonical end_kmer) in
  let bucket := bucket_id min_flanking_kmer in
  let unitig_id := bucket in
  let unitig_dir := if kmer_ltb (kmer start_kmer) (rev_compl end_kmer) then FWD else BWD in
  {| unitig_id := unitig_id; unitig_dir := unitig_dir;
     start_kmer_idx := idx start_kmer; end_kmer_idx := idx end_kmer |}.

(** Lines 324-329: with the entry as loaded, whether this thread may output
    the unitig ([!state.is_outputted()] and the update succeeded), and the
    hash table afterwards. *)
Definition try_mark_outputted (hash_table_entry : Kmer_Hash_Entry_API)
    (V : Kmer_Hash_Table) : bool * Kmer_Hash_Table :=
  let state := get_state hash_table_entry in
  if negb (is_outputted state)
  then
    update V {| entry_bucket := entry_bucket hash_table_entry;
                state_read := state_read hash_table_entry;
                get_state := outputted state |}
  else (false, V).

(** Lines 336-339: the first two unitigs the thread has seen. *)
Definition note_first_second (thread_id : nat) (current_unitig : Oriented_Unitig)
    (st : CdBG) : CdBG :=
  if negb (is_valid (slot (first_unitig st) thread_id))
  then
    set_witnesses (<[thread_id := Some current_unitig]> (first_unitig st))
      (second_unitig st) (last_unitig st) st
  else if negb (is_valid (slot (second_unitig st) thread_id))
  then
    set_witnesses (first_unitig st)
      (<[thread_id := Some current_unitig]> (second_unitig st)) (last_unitig st) st
  else st.

(** Lines 341-347: the link from the previous unitig of the thread, and its
    entry in the path spools. *)
Definition link_previous (thread_id : nat) (current_unitig : Oriented_Unitig)
    (st : CdBG) : CdBG :=
  match slot (last_unitig st) thread_id with
  | Some prev_unitig =>
      append_link_to_path thread_id prev_unitig current_unitig
        (write_gfa_link thread_id prev_unitig current_unitig st)
  | None => st
  end.

(** Lines 336-349: the witnesses of the thread and the link. *)
Definition record_unitig (thread_id : nat) (current_unitig : Oriented_Unitig)
    (st : CdBG) : CdBG :=
  let st1 := note_first_second thread_id current_unitig st in
  let st2 := link_previous thread_id current_unitig st1 in
  set_witnesses (first_unitig st2) (second_unitig st2)
    (<[thread_id := Some current_unitig]> (last_unitig st2)) st2.

(** [output_unitig_gfa] from the point where the hash table entry has been
    loaded (line 314 onwards). *)
Definition output_unitig_gfa_entry (thread_id : nat) (seq : text)
    (start_kmer end_kmer : Annotated_Kmer) (hash_table_entry : Kmer_Hash_Entry_API)
    (st : CdBG) : CdBG :=
  let current_unitig := current_unitig_of start_kmer end_kmer in
  let '(won, V') := try_mark_outputted hash_table_entry (Vertices st) in
  let st1 := set_Vertices V' st in
  let st2 :=
    if won
    then write_gfa_segment thread_id seq (unitig_id current_unitig)
           (idx start_kmer) (idx end_kmer) (unitig_dir current_unitig) st1
    else st1 in
  record_unitig thread_id current_unitig st2.

Definition output_unitig_gfa (thread_id : nat) (seq : text)
    (start_kmer end_kmer : Annotated_Kmer) (st : CdBG) : CdBG :=
  let bucket := unitig_id (current_unitig_of start_kmer end_kmer) in
  let hash_table_entry := load (Vertices st) bucket in
  output_unitig_gfa_entry thread_id seq start_kmer end_kmer hash_table_entry st.

(** ** The walker (lines 179-301) *)

Definition is_placeholder (c : ascii) : bool := Ascii.eqb c PLACEHOLDER_NUCLEOTIDE.

(** [kmer_idx == 0 || seq[kmer_idx - 1] == PLACEHOLDER_NUCLEOTIDE]. *)
Definition no_left_neighbor (seq : text) (kmer_idx : Z) : bool :=
  if kmer_idx =? 0 then true
  else is_placeholder (seq_at seq (wrap64 (kmer_idx - 1))).

(** [kmer_idx + k == seq_len || seq[kmer_idx + k] == PLACEHOLDER_NUCLEOTIDE]. *)
Definition no_right_neighbor (seq : text) (seq_len kmer_idx : Z) : bool :=
  if wrap64 (kmer_idx + k) =? seq_len then true
  else is_placeholder (seq_at seq (wrap64 (kmer_idx + k))).

(** The variables of the walker's loop. *)
Record Walk : Type := {
  kmer_idx : Z;
  on_unipath : bool;
  unipath_start_kmer : Annotated_Kmer;
  prev_kmer : Annotated_Kmer;
  curr_kmer : Annotated_Kmer;
  next_kmer : Annotated_Kmer
}.

Definition starts_at (curr prev : Annotated_Kmer) : bool :=
  is_unipath_start (vertex_class curr) (dir curr) (vertex_class prev) (dir prev).

Definition ends_at (curr next : Annotated_Kmer) : bool :=
  is_unipath_end (vertex_class curr) (dir curr) (vertex_class next) (dir next).

(** The body of the loop of lines 260-295: [inr] when the body returns from
    the function, [inl] when it falls through to the increment. *)
Definition walk_body (thread_id : nat) (seq : text) (seq_len : Z)
    (w : Walk) (st : CdBG) : (Walk * CdBG) + (Walk * CdBG) :=
  let prev := curr_kmer w in
  let curr := next_kmer w in
  let on := if starts_at curr prev then true else on_unipath w in
  let start := if starts_at curr prev then curr else unipath_start_kmer w in
  if no_right_neighbor seq seq_len (kmer_idx w)
  then
    inr ({| kmer_idx := kmer_idx w; on_unipath := false;
            unipath_start_kmer := start; prev_kmer := prev;
            curr_kmer := curr; next_kmer := next_kmer w |},
         if on then output_unitig_gfa thread_id seq start curr st else st)
  else
    let next :=
      roll_to_next_kmer (seq_at seq (wrap64 (kmer_idx w + k))) (Vertices st)
        (next_kmer w) in
    if on && ends_at curr next
    then
      inl ({| kmer_idx := kmer_idx w; on_unipath := false;
              unipath_start_kmer := start; prev_kmer := prev;
              curr_kmer := curr; next_kmer := next |},
           output_unitig_gfa thread_id seq start curr st)
    else
      inl ({| kmer_idx := kmer_idx w; on_unipath := on;
              unipath_start_kmer := start; prev_kmer := prev;
              curr_kmer := curr; next_kmer := next |}, st).

(** [++kmer_idx]. *)
Definition advance (w : Walk) : Walk :=
  {| kmer_idx := wrap64 (kmer_idx w + 1); on_unipath := on_unipath w;
     unipath_start_kmer := unipath_start_kmer w; prev_kmer := prev_kmer w;
     curr_kmer := curr_kmer w; next_kmer := next_kmer w |}.

(** The loop of lines 260-295, entered after its initialisation
    [kmer_idx++]: it goes on while [on_unipath || kmer_idx <= right_end]. *)
Fixpoint walk_loop (fuel : nat) (thread_id : nat) (seq : text)
    (seq_len right_end : Z) (w : Walk) (st : CdBG) : option (Walk * CdBG) :=
  match fuel with
  | O => None
  | S fuel' =>
      if on_unipath w || (kmer_idx w <=? right_end)
      then
        match walk_body thread_id seq seq_len w st with
        | inr r => Some r
        | inl (w', st') =>
            walk_loop fuel' thread_id seq seq_len right_end (advance w') st'
        end
      else Some (w, st)
  end.

(** Lines 227-256: the loop variables when the loop is entered, and the
    state after the first k-mer of the run has been handled. *)
Definition walk_init (thread_id : nat) (seq : text) (kmer_idx : Z)
    (curr_kmer : Annotated_Kmer) (st : CdBG) : Walk * CdBG :=
  let next_kmer :=
    roll_to_next_kmer (seq_at seq (wrap64 (kmer_idx + k))) (Vertices st) curr_kmer in
  let prev_kmer :=
    if no_left_neighbor seq kmer_idx
    then Annotated_Kmer_default
    else annotate (kmer_of seq (wrap64 (kmer_idx - 1))) kmer_idx (Vertices st) in
  let on_unipath :=
    if no_left_neighbor seq kmer_idx then true else starts_at curr_kmer prev_kmer in
  let unipath_start_kmer :=
    if on_unipath then curr_kmer else Annotated_Kmer_default in
  if on_unipath && ends_at curr_kmer next_kmer
  then
    ({| kmer_idx := wrap64 (kmer_idx + 1); on_unipath := false;
        unipath_start_kmer := unipath_start_kmer; prev_kmer := prev_kmer;
        curr_kmer := curr_kmer; next_kmer := next_kmer |},
     output_unitig_gfa thread_id seq unipath_start_kmer curr_kmer st)
  else
    ({| kmer_idx := wrap64 (kmer_idx + 1); on_unipath := on_unipath;
        unipath_start_kmer := unipath_start_kmer; prev_kmer := prev_kmer;
        curr_kmer := curr_kmer; next_kmer := next_kmer |}, st).

(** The per-thread overload of [output_maximal_unitigs_gfa] (lines 196-301):
    it walks one maximal run without placeholder from [start_idx] and
    returns the non-inclusive end of what it processed. *)
Definition output_maximal_unitigs_gfa_thread (fuel : nat) (thread_id : nat)
    (seq : text) (seq_len right_end start_idx : Z) (st : CdBG) : option (Z * CdBG) :=
  let curr_kmer := annotate (kmer_of seq start_idx) start_idx (Vertices st) in
  if no_left_neighbor seq start_idx && no_right_neighbor seq seq_len start_idx
  then
    Some (wrap64 (start_idx + k),
          output_unitig_gfa thread_id seq curr_kmer curr_kmer st)
  else if no_right_neighbor seq seq_len start_idx
  then
    let prev_kmer :=
      annotate (kmer_of seq (wrap64 (start_idx - 1))) start_idx (Vertices st) in
    Some (wrap64 (start_idx + k),
          if starts_at curr_kmer prev_kmer
          then output_unitig_gfa thread_id seq curr_kmer curr_kmer st
          else st)
  else
    let '(w, st1) := walk_init thread_id seq start_idx curr_kmer st in
    match walk_loop fuel thread_id seq seq_len right_end w st1 with
    | Some (w', st') => Some (wrap64 (kmer_idx w' + k), st')
    | None => None
    end.

(** Modelled from the spec: [search_valid_kmer] is defined outside [src/];
    it returns the smallest index in [[from, to]] whose k-mer holds no
    placeholder, and [to + 1] when there is none. *)
Definition valid_kmer (seq : text) (i : Z) : bool :=
  forallb (fun c => negb (is_placeholder c)) (kmer_of seq i).

Fixpoint search_valid_kmer_from (n : nat) (seq : text) (i to : Z) : Z :=
  match n with
  | O => wrap64 (to + 1)
  | S n' =>
      if valid_kmer seq i then i
      else search_valid_kmer_from n' seq (wrap64 (i + 1)) to
  end.

Definition search_valid_kmer (seq : text) (from to : Z) : Z :=
  search_valid_kmer_from (Z.to_nat (to - from + 1)) seq from to.

(** The loop of [output_gfa_off_substring] (lines 179-193); [fuel] bounds
    its iterations and [wfuel] those of each walk. *)
Fixpoint output_gfa_off_substring_loop (fuel wfuel : nat) (thread_id : nat)
    (seq : text) (seq_len right_end kmer_idx : Z) (st : CdBG) : option CdBG :=
  match fuel with
  | O => None
  | S fuel' =>
      if kmer_idx <=? right_end
      then
        let kmer_idx := search_valid_kmer seq kmer_idx right_end in
        if kmer_idx >? right_end
        then Some st
        else
          match output_maximal_unitigs_gfa_thread wfuel thread_id seq seq_len
                  right_end kmer_idx st with
          | Some (kmer_idx', st') =>
              output_gfa_off_substring_loop fuel' wfuel thread_id seq seq_len
                right_end kmer_idx' st'
          | None => None
          end
      else Some st
  end.

Definition output_gfa_off_substring (fuel : nat) (thread_id : nat) (seq : text)
    (seq_len left_end right_end : Z) (st : CdBG) : option CdBG :=
  output_gfa_off_substring_loop fuel fuel thread_id seq seq_len right_end left_end st.

(** ** The stitcher (lines 430-483) *)

(** One iteration of the loop of [write_inter_thread_links], on the
    variables [left_unitig] and [left_t_id]; the latter is read only once
    the former is valid, after both have been assigned. *)
Definition inter_thread_step (acc : CdBG * option Oriented_Unitig * nat) (t_id : nat)
    : CdBG * option Oriented_Unitig * nat :=
  let '(st, left_unitig, left_t_id) := acc in
  match left_unitig with
  | None => (st, slot (last_unitig st) t_id, t_id)
  | Some left_u =>
      match slot (first_unitig st) t_id with
      | Some right_unitig =>
          (append_link_to_path left_t_id left_u right_unitig
             (write_gfa_link t_id left_u right_unitig st),
           slot (last_unitig st) t_id, t_id)
      | None => acc
      end
  end.

Definition write_inter_thread_links (thread_count : nat) (st : CdBG) : CdBG :=
  (foldl inter_thread_step (st, None, O) (seq 0 thread_count)).1.1.

(** The loop of [search_first_link] over the remaining thread numbers; the
    result is [(left_unitig, right_unitig)]. *)
Fixpoint search_first_link_loop (ts : list nat) (st : CdBG)
    (left_unitig right_unitig : option Oriented_Unitig)
    : option Oriented_Unitig * option Oriented_Unitig :=
  match ts with
  | [] => (left_unitig, right_unitig)
  | t_id :: ts' =>
      let second_check (left_unitig : option Oriented_Unitig) :=
        if is_valid (slot (second_unitig st) t_id)
        then (left_unitig, slot (second_unitig st) t_id)
        else search_first_link_loop ts' st left_unitig right_unitig in
      if is_valid (slot (first_unitig st) t_id)
      then
        if negb (is_valid left_unitig)
        then second_check (slot (first_unitig st) t_id)
        else (left_unitig, slot (first_unitig st) t_id)
      else second_check left_unitig
  end.

Definition search_first_link (thread_count : nat) (st : CdBG)
    : option Oriented_Unitig * option Oriented_Unitig :=
  search_first_link_loop (seq 0 thread_count) st None None.

(** ** The path record (lines 486-590) *)

(** [stream.fail()] of the stream of thread [t]. *)
Definition failed (streams : list bool) (t : nat) : bool :=
  default true (streams !! t).

(** The copy loops of [write_gfa_path]: the contents of the spool files of
    the threads, in order; [None] when one of them cannot be opened. *)
Fixpoint read_spools (ts : list nat) (files : gmap nat text) : option text :=
  match ts with
  | [] => Some []
  | t_id :: ts' =>
      match files !! t_id with
      | None => None
      | Some content =>
          match read_spools ts' files with
          | None => None
          | Some rest => Some (content ++ rest)
          end
      end
  end.

(** The P-record up to its overlaps field. *)
Definition path_line_head (st : CdBG) (left_unitig : Oriented_Unitig) (paths : text) : text :=
  txt "P" ++ TAB ++ txt "P" ++ dec (seq_count st) ++ TAB
    ++ dec (unitig_id left_unitig) ++ sign (unitig_dir left_unitig)
    ++ paths ++ TAB.

(** [write_gfa_path]: it aborts when a stream has failed or a spool file
    cannot be opened; closing the streams leaves the files as they are. *)
Definition write_gfa_path (thread_count : nat) (st : CdBG) : Outcome CdBG :=
  if existsb (fun t_id => failed (path_output st) t_id || failed (overlap_output st) t_id)
       (seq 0 thread_count)
  then Aborted
  else
    let '(left_unitig, right_unitig) := search_first_link thread_count st in
    match left_unitig with
    | None => Done st
    | Some left_u =>
        match read_spools (seq 0 thread_count) (path_file st) with
        | None => Aborted
        | Some paths =>
            match right_unitig with
            | None =>
                Done (set_gfa_file
                        (gfa_file st
                           ++ [Direct (path_line_head st left_u paths ++ txt "*" ++ NL)])
                        st)
            | Some right_u =>
                match read_spools (seq 0 thread_count) (overlap_file st) with
                | None => Aborted
                | Some overlaps =>
                    Done (set_gfa_file
                            (gfa_file st
                               ++ [Direct (path_line_head st left_u paths
                                             ++ dec (wrap16 (overlap_of left_u right_u))
                                             ++ txt "M" ++ overlaps ++ NL)])
                            st)
                end
            end
        end
    end.

(** ** The driver (lines 15-176 and 593-605) *)

(** The file system is outside the program: whether an operation of the
    writer on a spool of thread [t] fails is asked of the environment.
    [io_fails st op t] tells that, with the writer in the state [st], the
    operation [op] fails on the spool of thread [t]: the opening of the
    path or of the overlap spool for writing (lines 167-168), or one of
    the writes to it since it was opened (lines 423-424). *)
Inductive Spool_Op : Type :=
| Open_path
| Open_overlap
| Write_path
| Write_overlap.

Variable io_fails : CdBG -> Spool_Op -> nat -> bool.

(** [reset_path_streams]: the streams of every thread are opened anew; a
    stream that cannot be opened has failed, and the loop exits at the
    first thread with such a stream. When the loop completes every stream
    was opened, which has created or truncated its file. *)
Definition reset_path_streams (thread_count : nat) (st : CdBG) : Outcome CdBG :=
  let st' :=
    set_files
      (foldl (fun files t_id => <[t_id := []]> files) (path_file st) (seq 0 thread_count))
      (foldl (fun files t_id => <[t_id := []]> files) (overlap_file st) (seq 0 thread_count))
      (set_streams (map (io_fails st Open_path) (seq 0 thread_count))
         (map (io_fails st Open_overlap) (seq 0 thread_count)) st) in
  if existsb (fun t_id => failed (path_output st') t_id || failed (overlap_output st') t_id)
       (seq 0 thread_count)
  then Aborted
  else Done st'.

(** One iteration of the loop of [remove_temp_files]: the overlap file is
    removed only when the path file could be. *)
Definition remove_temp_file (st : CdBG) (t_id : nat) : CdBG :=
  match path_file st !! t_id with
  | Some _ => set_files (delete t_id (path_file st)) (delete t_id (overlap_file st)) st
  | None => st
  end.

Definition remove_temp_files (thread_count : nat) (st : CdBG) : CdBG :=
  foldl remove_temp_file st (seq 0 thread_count).

(** Modelled from the spec: [flush_buffers] is defined outside [src/]; it
    hands what remains in the buffer of every thread to the sink. *)
Definition flush_buffers (thread_count : nat) (st : CdBG) : CdBG :=
  foldl (fun st t_id => flush_buffer t_id st) st (seq 0 thread_count).

(** The workers of one sequence under the schedule in which each worker
    finishes before the next one starts. Lines 99-108 run them at the same
    time: their interleavings are those of [steps] below. A thread that has
    just been started is joinable, so that the exit of lines 107-113 is
    not taken. *)
Fixpoint run_tasks (fuel : nat) (seq : text) (seq_len : Z) (tasks : list Task)
    (st : CdBG) : option CdBG :=
  match tasks with
  | [] => Some st
  | task :: tasks' =>
      match output_gfa_off_substring fuel (task_id task) seq seq_len
              (left_end task) (right_end task) st with
      | Some st' => run_tasks fuel seq seq_len tasks' st'
      | None => None
      end
  end.

(** The streams as [write_gfa_path] finds them: a write to a spool that
    failed has left its stream failed, which the writer looks at only when
    it closes the streams (line 493). *)
Definition note_write_failures (thread_count : nat) (st : CdBG) : CdBG :=
  set_streams
    (map (fun t_id => failed (path_output st) t_id || io_fails st Write_path t_id)
       (seq 0 thread_count))
    (map (fun t_id => failed (overlap_output st) t_id || io_fails st Write_overlap t_id)
       (seq 0 thread_count))
    st.

(** No operation on the spools of the threads below [thread_count] fails. *)
Definition io_works (thread_count : nat) : Prop :=
  forall (st : CdBG) (op : Spool_Op) (t : nat),
    (t < thread_count)%nat -> io_fails st op t = false.

(** The body of the loop over the input sequences (lines 60-132). The
    logger is modelled as writing at once, so that its flush and shutdown
    before the path is written change nothing. With no thread the division
    of line 90 is one by zero. *)
Definition process_sequence (thread_count : nat) (seq : text) (st : CdBG) : Outcome CdBG :=
  let seq_len := Z.of_nat (length seq) in
  let st := set_seq_count (seq_count st + 1) st in
  if seq_len <? k
  then Done st
  else
    let st :=
      set_witnesses (replicate (length (first_unitig st)) None)
        (replicate (length (second_unitig st)) None)
        (replicate (length (last_unitig st)) None) st in
    bind_outcome (reset_path_streams thread_count st) (fun st =>
    if Nat.eqb thread_count 0
    then Crashed
    else
      bind_outcome
        (of_fuel
           (if task_size_of seq_len k thread_count =? 0
            then output_gfa_off_substring (S (length seq)) 0 seq seq_len 0
                   (wrap64 (seq_len - k)) st
            else
              option_map (write_inter_thread_links thread_count)
                (run_tasks (S (length seq)) seq seq_len
                   (shard_tasks seq_len k thread_count) st)))
        (fun st => write_gfa_path thread_count (note_write_failures thread_count st))).

Fixpoint process_sequences (thread_count : nat) (seqs : list text) (st : CdBG)
    : Outcome CdBG :=
  match seqs with
  | [] => Done st
  | seq :: seqs' =>
      bind_outcome (process_sequence thread_count seq st)
        (process_sequences thread_count seqs')
  end.

(** What the driver does before the loop (lines 32-57). *)
Definition start_output (thread_count : nat) (st : CdBG) : CdBG :=
  set_seq_count 0
    (set_witnesses (resize thread_count None (first_unitig st))
       (resize thread_count None (second_unitig st))
       (resize thread_count None (last_unitig st))
       (set_buffer_size (resize thread_count 0 (buffer_size st))
          (set_output_buffer (resize thread_count [] (output_buffer st))
             (set_gfa_file [Direct (GFA_HEADER ++ NL)] st)))).

(** The driver overload of [output_maximal_unitigs_gfa] (lines 15-157) on
    the sequences the parser yields, from the point where the input and the
    output file have been opened: when one of them cannot be, the driver
    exits before it does anything else (lines 21-38). *)
Definition output_maximal_unitigs_gfa (thread_count : nat) (seqs : list text)
    (st : CdBG) : Outcome CdBG :=
  bind_outcome (process_sequences thread_count seqs (start_output thread_count st))
    (fun st => Done (remove_temp_files thread_count (flush_buffers thread_count st))).

(** ** Interleaved emission

    The calls of [output_unitig_gfa] of the workers, interleaved at the
    accesses to the shared hash table: a worker loads the entry (line 313),
    tries to mark the unitig outputted (lines 324-329), writes the segment
    when it may (line 330), and records the unitig (lines 336-349). *)
Inductive Worker : Type :=
| Idle
| Loaded (seq : text) (start_kmer end_kmer : Annotated_Kmer)
    (hash_table_entry : Kmer_Hash_Entry_API)
| Marked (seq : text) (start_kmer end_kmer : Annotated_Kmer) (won : bool)
| Recording (start_kmer end_kmer : Annotated_Kmer).

Record Machine : Type := {
  shared : CdBG;
  workers : list Worker
}.

(** What an observer of the run sees: a slot of the table going from not
    outputted to outputted, and an S-record being written. *)
Inductive Event : Type :=
| Flip (t : nat) (bucket : Z)
| Segment (t : nat) (name : Z).

Definition event_name (e : Event) : Z :=
  match e with
  | Flip _ b => b
  | Segment _ b => b
  end.

Definition is_flip (e : Event) : bool :=
  match e with
  | Flip _ _ => true
  | Segment _ _ => false
  end.

Inductive step : Machine -> list Event -> Machine -> Prop :=
| step_load m t seq start_kmer end_kmer :
    workers m !! t = Some Idle ->
    step m []
      {| shared := shared m;
         workers :=
           <[t := Loaded seq start_kmer end_kmer
                    (load (Vertices (shared m))
                       (unitig_id (current_unitig_of start_kmer end_kmer)))]>
             (workers m) |}
| step_mark m t seq start_kmer end_kmer hash_table_entry :
    workers m !! t = Some (Loaded seq start_kmer end_kmer hash_table_entry) ->
    step m
      (if (try_mark_outputted hash_table_entry (Vertices (shared m))).1
       then [Flip t (entry_bucket hash_table_entry)] else [])
      {| shared :=
           set_Vertices (try_mark_outputted hash_table_entry (Vertices (shared m))).2
             (shared m);
         workers :=
           <[t := Marked seq start_kmer end_kmer
                    (try_mark_outputted hash_table_entry (Vertices (shared m))).1]>
             (workers m) |}
| step_segment m t seq start_kmer end_kmer :
    workers m !! t = Some (Marked seq start_kmer end_kmer true) ->
    step m [Segment t (unitig_id (current_unitig_of start_kmer end_kmer))]
      {| shared :=
           write_gfa_segment t seq (unitig_id (current_unitig_of start_kmer end_kmer))
             (idx start_kmer) (idx end_kmer)
             (unitig_dir (current_unitig_of start_kmer end_kmer)) (shared m);
         workers := <[t := Recording start_kmer end_kmer]> (workers m) |}
| step_skip m t seq start_kmer end_kmer :
    workers m !! t = Some (Marked seq start_kmer end_kmer false) ->
    step m []
      {| shared := shared m;
         workers := <[t := Recording start_kmer end_kmer]> (workers m) |}
| step_record m t start_kmer end_kmer :
    workers m !! t = Some (Recording start_kmer end_kmer) ->
    step m []
      {| shared := record_unitig t (current_unitig_of start_kmer end_kmer) (shared m);
         workers := <[t := Idle]> (workers m) |}.

(** The runs of the machine, with the events in the order they happened. *)
Inductive steps : Machine -> list Event -> Machine -> Prop :=
| steps_nil m : steps m [] m
| steps_snoc m1 trace m2 events m3 :
    steps m1 trace m2 -> step m2 events m3 -> steps m1 (trace ++ events) m3.

(** ** Invariants *)

(** The witnesses of the threads, as the stitcher relies on them: the three
    vectors have one slot per thread, a second witness comes with a first,
    and a first with a last. *)
Definition witnesses_consistent (st : CdBG) : Prop :=
  length (first_unitig st) = length (last_unitig st)
  /\ length (second_unitig st) = length (last_unitig st)
  /\ forall t : nat,
       (is_valid (slot (second_unitig st) t) = true ->
        is_valid (slot (first_unitig st) t) = true)
       /\ (is_valid (slot (first_unitig st) t) = true ->
           is_valid (slot (last_unitig st) t) = true).

Definition flips (trace : list Event) : list Z :=
  map event_name (filter (fun e => is_flip e = true) trace).

Definition segments (trace : list Event) : list Z :=
  map event_name (filter (fun e => is_flip e = false) trace).

(** What holds of a run of the interleaved emission that started from the
    table [V0] and has produced [trace] so far. *)
Record run_invariant (V0 : Kmer_Hash_Table) (trace : list Event) (m : Machine) : Prop := {
  inv_flips : NoDup (flips trace);
  inv_segments : NoDup (segments trace);
  inv_monotone : forall b,
    is_outputted (V0 b) = true -> is_outputted (Vertices (shared m) b) = true;
  inv_flipped : forall t b,
    In (Flip t b) trace ->
    is_outputted (V0 b) = false /\ is_outputted (Vertices (shared m) b) = true;
  inv_order : forall trace1 t b trace2,
    trace = trace1 ++ Segment t b :: trace2 -> In (Flip t b) trace1;
  inv_loaded : forall t seq s e entry,
    workers m !! t = Some (Loaded seq s e entry) ->
    entry_bucket entry = unitig_id (current_unitig_of s e)
    /\ get_state entry = state_read entry;
  inv_marked : forall t seq s e,
    workers m !! t = Some (Marked seq s e true) ->
    In (Flip t (unitig_id (current_unitig_of s e))) trace
    /\ ~ In (unitig_id (current_unitig_of s e)) (segments trace)
}.

(** The path streams of a sequence in progress: the streams of the
    [thread_count] threads are open and have not failed, and their spool
    files exist. *)
Definition spools_ready (thread_count : nat) (st : CdBG) : Prop :=
  path_output st = replicate thread_count false
  /\ overlap_output st = replicate thread_count false
  /\ forall t : nat, (t < thread_count)%nat ->
       is_Some (path_file st !! t) /\ is_Some (overlap_file st !! t).

(** A text without a line break, and the spool files of the first
    [thread_count] threads holding none. *)
Definition newline_free (t : text) : Prop := ~ In "010"%char t.

Definition spools_clean (thread_count : nat) (st : CdBG) : Prop :=
  forall (t : nat) (c : text),
    (t < thread_count)%nat ->
    path_file st !! t = Some c \/ overlap_file st !! t = Some c -> newline_free c.

(** The contents of the spool files of the threads, one after the other
    (nothing for a file that is not there). *)
Definition spool_text (thread_count : nat) (files : gmap nat text) : text :=
  concat (map (fun t_id => default [] (files !! t_id)) (seq 0 thread_count)).

(** An emission call of a worker: the thread, the sequence and the two
    flanking k-mers. *)
Record Call : Type := {
  call_thread : nat;
  call_seq : text;
  call_start : Annotated_Kmer;
  call_end : Annotated_Kmer
}.

Definition emit (st : CdBG) (c : Call) : CdBG :=
  output_unitig_gfa (call_thread c) (call_seq c) (call_start c) (call_end c) st.

(** ** The unipaths of a run

    The k-mers of a sequence with their annotations, as the walker holds
    them, and where it finds that a unipath starts. *)
Definition kmer_at (seq : text) (V : Kmer_Hash_Table) (i : Z) : Annotated_Kmer :=
  annotate (kmer_of seq i) i V.

Definition unipath_starts_at (seq : text) (V : Kmer_Hash_Table) (i : Z) : bool :=
  starts_at (kmer_at seq V i) (kmer_at seq V (i - 1)).

(** The loop variables of the walker that is about to look at the k-mer of
    index [i], with the k-mers of [seq] around it. *)
Definition walk_at (seq : text) (V : Kmer_Hash_Table) (i : Z) (on : bool)
    (start : Annotated_Kmer) : Walk :=
  {| kmer_idx := i; on_unipath := on; unipath_start_kmer := start;
     prev_kmer := kmer_at seq V (i - 2); curr_kmer := kmer_at seq V (i - 1);
     next_kmer := kmer_at seq V i |}.

(** The walker holds the k-mers of [seq] before and at its index. *)
Definition walk_holds (seq : text) (V : Kmer_Hash_Table) (w : Walk) : Prop :=
  curr_kmer w = kmer_at seq V (kmer_idx w - 1)
  /\ next_kmer w = kmer_at seq V (kmer_idx w).

(** [on_unipath] and [unipath_start_kmer] once the walker has looked for
    the start of a unipath at the k-mers [i], ..., [i + n - 1], when
    it has emitted nothing there: a start replaces what was pending. *)
Fixpoint pending (seq : text) (V : Kmer_Hash_Table) (on : bool) (start : Annotated_Kmer)
    (i : Z) (n : nat) : bool * Annotated_Kmer :=
  match n with
  | O => (on, start)
  | S n' =>
      if unipath_starts_at seq V i
      then pending seq V true (kmer_at seq V i) (i + 1) n'
      else pending seq V on start (i + 1) n'
  end.

(** ** The path of a sequence

    The unitigs of the emission calls of a thread, in the order of its
    calls, and those of all the threads in the order of the thread numbers:
    the path of the sequence, when thread [t] walked its [t]-th range. *)
Definition called_by (t : nat) (c : Call) : bool := Nat.eqb (call_thread c) t.

Definition unitigs_of (t : nat) (calls : list Call) : list Oriented_Unitig :=
  map (fun c => current_unitig_of (call_start c) (call_end c))
    (filter (fun c => called_by t c = true) calls).

Definition tiling (thread_count : nat) (calls : list Call) : list Oriented_Unitig :=
  concat (map (fun t => unitigs_of t calls) (seq 0 thread_count)).

(** The pairs of neighbours of a list. *)
Definition adjacent_pairs {A : Type} (l : list A) : list (A * A) := zip l (tail l).

(** The first two unitigs a thread has seen. *)
Definition first_two (st : CdBG) (t : nat) : list Oriented_Unitig :=
  match slot (first_unitig st) t with
  | Some u =>
      u :: match slot (second_unitig st) t with
           | Some v => [v]
           | None => []
           end
  | None => []
  end.

(** The unitigs of the threads [a .. a + n - 1], thread after thread, when
    [U t] lists those of thread [t]. *)
Definition tiling_from (U : nat -> list Oriented_Unitig) (a n : nat)
    : list Oriented_Unitig :=
  concat (map U (seq a n)).

(** The entry that the link from the last unitig of [us] to the first of
    [rest] puts into a spool, when there is such a link. *)
Definition link_entry (entry : Oriented_Unitig -> Oriented_Unitig -> text)
    (us rest : list Oriented_Unitig) : text :=
  match last us, rest with
  | Some l, r :: _ => entry l r
  | _, _ => []
  end.

(** What the stitcher, about to visit thread [a] with the last unitig of
    thread [pending] in hand, will still append to the spool of thread [x]. *)
Definition stitch_entry (thread_count : nat) (U : nat -> list Oriented_Unitig)
    (entry : Oriented_Unitig -> Oriented_Unitig -> text)
    (pending : option nat) (a x : nat) : text :=
  if decide (pending = Some x)
  then link_entry entry (U x) (tiling_from U a (thread_count - a))
  else if decide (a <= x)%nat
  then link_entry entry (U x) (tiling_from U (S x) (thread_count - S x))
  else [].

(** The emission calls [calls] are those of thread [t] on [seq], and their
    unitigs are runs of k-mers that follow each other without overlap:
    every one starts at or after [lo], after the end of the one before, and
    ends at or before [hi]. *)
Fixpoint ordered_calls (t : nat) (seq : text) (lo hi : Z) (calls : list Call) : Prop :=
  match calls with
  | [] => True
  | c :: calls' =>
      call_thread c = t /\ call_seq c = seq
      /\ lo <= idx (call_start c) <= idx (call_end c)
      /\ idx (call_end c) <= hi
      /\ ordered_calls t seq (idx (call_end c) + 1) hi calls'
  end.


(** The GFA file of [st'] is that of [st] with messages of the logger
    appended. *)
Definition logged_since (st st' : CdBG) : Prop :=
  exists chunks : list Chunk,
    gfa_file st' = gfa_file st ++ chunks
    /\ Forall (fun c => exists t msg, c = Logged t msg) chunks.

(** ** States for the examples *)

Definition toy_kmer (x rc c : string) (i : Z) (d : kmer_dir_t) : Annotated_Kmer :=
  {| kmer := txt x; rev_compl := txt rc; canonical := txt c; idx := i; dir := d;
     vertex_class := toy_class |}.

(** A writer that has not started. *)
Definition toy_state : CdBG :=
  {| Vertices := fun _ => {| state_class := toy_class; is_outputted := false |};
     output_buffer := []; buffer_size := [];
     first_unitig := []; second_unitig := []; last_unitig := [];
     path_output := []; overlap_output := []; seq_count := 0;
     path_file := empty; overlap_file := empty; gfa_file := [] |}.

(** A writer with two threads, at the start of its first sequence. *)
Definition toy_ready : CdBG :=
  {| Vertices := fun _ => {| state_class := toy_class; is_outputted := false |};
     output_buffer := [[]; []]; buffer_size := [0; 0];
     first_unitig := [None; None]; second_unitig := [None; None];
     last_unitig := [None; None];
     path_output := [false; false]; overlap_output := [false; false];
     seq_count := 1;
     path_file := <[0%nat := []]> (<[1%nat := []]> empty);
     overlap_file := <[0%nat := []]> (<[1%nat := []]> empty);
     gfa_file := [Direct (toy_header ++ NL)] |}.

(** An environment in which no operation on a spool fails, and one in
    which the path spool of thread 1 cannot be opened. *)
Definition toy_io (st : CdBG) (op : Spool_Op) (t : nat) : bool := false.


(** The writer [toy_ready] over a graph in which the vertex of the bucket
    33 has several neighbours on both sides. *)
Definition toy_branching : CdBG :=
  set_Vertices
    (fun b => if b =? 33
              then {| state_class := {| predecessors := multi; successors := multi |};
                      is_outputted := false |}
              else Vertices toy_ready b)
    toy_ready.

Definition toy_machine : Machine :=
  {| shared := toy_ready; workers := [Idle; Idle] |}.

(** * Properties *)

(** ** Machine arithmetic *)

Lemma wrap64_small (x : Z) : 0 <= x < 2 ^ 64 -> wrap64 x = x.
Proof. intros Hx. unfold wrap64. apply Z.mod_small. exact Hx. Qed.

Lemma wrap16_small (x : Z) : 0 <= x < 2 ^ 16 -> wrap16 x = x.
Proof. intros Hx. unfold wrap16. apply Z.mod_small. exact Hx. Qed.

(** ** Sharding *)

Lemma spawn_tasks_length n seq_len k0 T ts t0 l0 :
  length (spawn_tasks n seq_len k0 T ts t0 l0) = n.
Proof.
  revert t0 l0. induction n as [|n IH]; intros t0 l0; simpl; [reflexivity|].
  now rewrite IH.
Qed.

Lemma spawn_tasks_lookup n seq_len k0 T ts t0 l0 i :
  0 <= ts -> 0 <= l0 -> l0 + Z.of_nat n * ts < 2 ^ 64 ->
  0 <= seq_len - k0 < 2 ^ 64 ->
  (i < n)%nat ->
  spawn_tasks n seq_len k0 T ts t0 l0 !! i =
    Some {| task_id := t0 + i;
            left_end := l0 + Z.of_nat i * ts;
            right_end :=
              if Z.of_nat (t0 + i) =? Z.of_nat T - 1
              then seq_len - k0
              else wrap64 (l0 + Z.of_nat i * ts + ts - 1) |}.
Proof.
  intros Hts. revert t0 l0 i.
  induction n as [|n IH]; intros t0 l0 i Hl0 Hmax Hlen Hi; [lia|].
  assert (Hstep : wrap64 (l0 + ts) = l0 + ts) by (apply wrap64_small; nia).
  destruct i as [|i]; simpl spawn_tasks.
  - simpl. rewrite Hstep, Nat.add_0_r, Z.add_0_r.
    rewrite (wrap64_small (seq_len - k0)) by exact Hlen.
    reflexivity.
  - change ((?x :: ?l) !! S i) with (l !! i).
    rewrite Hstep, IH by (try lia; nia).
    f_equal. replace (S t0 + i)%nat with (t0 + S i)%nat by lia.
    f_equal; [nia|].
    destruct (Z.of_nat (t0 + S i) =? Z.of_nat T - 1); [reflexivity|].
    f_equal. nia.
Qed.

(** C1, as the code has it: with a nonzero per-range size, the k-mer
    indices [0 .. seq_len - k] are cut into [thread_count] contiguous
    ranges, worker [t] gets the [t]-th one, every range but the last has
    the size [(seq_len - k + 1) / thread_count] rounded down, and the last
    one takes that size plus the remainder of the division. *)
Theorem shard_partition (seq_len k0 : Z) (thread_count : nat) :
  1 <= k0 <= seq_len -> seq_len < 2 ^ 64 ->
  task_size_of seq_len k0 thread_count <> 0 ->
  let count := seq_len - k0 + 1 in
  let size := count / Z.of_nat thread_count in
  length (shard_tasks seq_len k0 thread_count) = thread_count
  /\ forall t : nat, (t < thread_count)%nat ->
       exists task : Task,
         shard_tasks seq_len k0 thread_count !! t = Some task
         /\ task_id task = t
         /\ left_end task = Z.of_nat t * size
         /\ (t = 0%nat -> left_end task = 0)
         /\ ((S t < thread_count)%nat ->
             right_end task = left_end task + size - 1)
         /\ (S t = thread_count ->
             right_end task = seq_len - k0
             /\ right_end task - left_end task + 1
                = size + count mod Z.of_nat thread_count).
Proof.
  intros Hk Hlen Hsize count size.
  assert (Hcount : wrap64 (wrap64 (seq_len - k0) + 1) = count).
  { rewrite (wrap64_small (seq_len - k0)) by lia. apply wrap64_small.
    unfold count. lia. }
  unfold task_size_of in Hsize. rewrite Hcount in Hsize. fold size in Hsize.
  unfold shard_tasks, task_size_of. rewrite Hcount. fold size.
  destruct (size =? 0) eqn:Hz; [lia|]. clear Hz.
  assert (HT : (0 < thread_count)%nat).
  { destruct thread_count; [|lia]. unfold size in Hsize. simpl in Hsize.
    rewrite Z.div_0_r in Hsize. lia. }
  assert (Hpos : 0 < size).
  { assert (0 <= size) by (apply Z.div_pos; unfold count; lia). lia. }
  assert (Hmul : Z.of_nat thread_count * size <= count).
  { apply Z.mul_div_le. lia. }
  assert (Hmod : count = Z.of_nat thread_count * size + count mod Z.of_nat thread_count).
  { apply Z.div_mod. lia. }
  split; [apply spawn_tasks_length|].
  intros t Ht. eexists. split.
  { rewrite spawn_tasks_lookup by (unfold count in *; lia). reflexivity. }
  simpl. repeat split; try lia.
  - intros Hnext.
    destruct (Z.of_nat t =? Z.of_nat thread_count - 1) eqn:E; [lia|].
    apply wrap64_small. unfold count in *. nia.
  - destruct (Z.of_nat t =? Z.of_nat thread_count - 1) eqn:E; lia.
  - destruct (Z.of_nat t =? Z.of_nat thread_count - 1) eqn:E; [|lia].
    unfold count in *. nia.
Qed.

(** ** Text *)

Lemma dec_int_nonneg (n : Z) : 0 <= n -> dec_int n = dec n.
Proof. intros Hn. destruct n as [|p|p]; [reflexivity|reflexivity|lia]. Qed.

Lemma seq_at_lookup (seq : text) (i : Z) (c : ascii) :
  seq !! Z.to_nat i = Some c -> seq_at seq i = c.
Proof. intros Hc. unfold seq_at. rewrite nth_lookup, Hc. reflexivity. Qed.

Lemma spell_fwd_spec (n : nat) (seq : text) (i last : Z) :
  0 <= i -> Z.of_nat n = last - i + 1 -> last < Z.of_nat (length seq) ->
  last < 2 ^ 64 - 1 ->
  spell_fwd n seq i last = take n (drop (Z.to_nat i) seq).
Proof.
  revert i. induction n as [|n IH]; intros i Hi Hn Hlast Hmax; [reflexivity|].
  simpl spell_fwd. destruct (Z.leb_spec i last) as [Hle|Hgt]; [|lia].
  destruct (lookup_lt_is_Some_2 seq (Z.to_nat i)) as [c Hc]; [lia|].
  rewrite (drop_S _ _ _ Hc). simpl take.
  rewrite (seq_at_lookup _ _ _ Hc), wrap64_small by lia.
  rewrite IH by lia. do 3 f_equal. lia.
Qed.

Lemma spell_bwd_spec (n : nat) (seq : text) (i first : Z) :
  0 <= first -> Z.of_nat n = i - first -> i <= Z.of_nat (length seq) ->
  i < 2 ^ 64 ->
  spell_bwd n seq i first
  = reverse_complement (take n (drop (Z.to_nat first) seq)).
Proof.
  revert i. induction n as [|n IH]; intros i Hfirst Hn Hlen Hmax; [reflexivity|].
  simpl spell_bwd. destruct (Z.gtb_spec i first) as [Hgt|Hle]; [|lia].
  rewrite wrap64_small by lia.
  destruct (lookup_lt_is_Some_2 seq (Z.to_nat (i - 1))) as [c Hc]; [lia|].
  assert (Hc' : drop (Z.to_nat first) seq !! n = Some c).
  { rewrite lookup_drop. rewrite <- Hc. f_equal. lia. }
  rewrite (take_S_r _ _ _ Hc'). unfold reverse_complement.
  rewrite map_app, rev_app_distr. simpl.
  rewrite (seq_at_lookup _ _ _ Hc). f_equal.
  apply IH; lia.
Qed.

(** ** Lexicographic comparison of k-mers *)

Lemma kmer_ltb_irrefl (a : kmer_t) : kmer_ltb a a = false.
Proof.
  induction a as [|x a IH]; [reflexivity|]. simpl.
  destruct (Ascii.compare x x) eqn:E; [exact IH| |reflexivity].
  pose proof (Ascii.compare_antisym x x) as Hxx. rewrite E in Hxx. discriminate.
Qed.

Lemma kmer_ltb_asym (a b : kmer_t) : kmer_ltb a b = true -> kmer_ltb b a = false.
Proof.
  revert b. induction a as [|x a IH]; intros [|y b]; simpl; try congruence.
  rewrite (Ascii.compare_antisym x y).
  destruct (Ascii.compare y x); simpl; try congruence. apply IH.
Qed.

Lemma kmer_ltb_total (a b : kmer_t) :
  kmer_ltb a b = false -> kmer_ltb b a = false -> a = b.
Proof.
  revert b. induction a as [|x a IH]; intros [|y b]; simpl; try congruence.
  rewrite (Ascii.compare_antisym x y).
  destruct (Ascii.compare y x) eqn:E; simpl; try congruence.
  intros Hab Hba. apply Ascii.compare_eq_iff in E. subst y.
  f_equal. now apply IH.
Qed.

Lemma kmer_min_comm (a b : kmer_t) : kmer_min a b = kmer_min b a.
Proof.
  unfold kmer_min.
  destruct (kmer_ltb b a) eqn:Hba, (kmer_ltb a b) eqn:Hab; try reflexivity.
  - apply kmer_ltb_asym in Hba. congruence.
  - symmetry. now apply kmer_ltb_total.
Qed.

Lemma kmer_min_lower (a b : kmer_t) :
  (kmer_min a b = a \/ kmer_min a b = b)
  /\ kmer_ltb a (kmer_min a b) = false
  /\ kmer_ltb b (kmer_min a b) = false.
Proof.
  unfold kmer_min. destruct (kmer_ltb b a) eqn:Hba.
  - split; [now right|]. split; [now apply kmer_ltb_asym|apply kmer_ltb_irrefl].
  - split; [now left|]. split; [apply kmer_ltb_irrefl|exact Hba].
Qed.

(** ** What the writing functions leave alone *)

Lemma thread_text_fill_buffer st t n t' :
  thread_text (fill_buffer t n st) t' = thread_text st t'.
Proof.
  unfold fill_buffer.
  destruct (MAX_BUFF_SIZE <=? _); [|reflexivity].
  unfold thread_text, flush_buffer. unfold buffer_of.
  cbn [gfa_file output_buffer set_buffer_size set_output_buffer set_gfa_file].
  rewrite map_app, concat_app.
  cbn [map concat logged_by]. rewrite app_nil_r, <- app_assoc.
  f_equal. destruct (Nat.eqb_spec t' t) as [->|Hne].
  - destruct (output_buffer st !! t) as [b|] eqn:Hb.
    + rewrite list_lookup_insert_eq by (eapply lookup_lt_Some; exact Hb).
      now rewrite app_nil_r.
    + rewrite list_insert_ge by (now apply lookup_ge_None). now rewrite Hb.
  - rewrite list_lookup_insert_ne by congruence. reflexivity.
Qed.

Lemma thread_text_buffer_write st t x :
  (t < length (output_buffer st))%nat ->
  thread_text (buffer_write t x st) t = thread_text st t ++ x.
Proof.
  intros Ht. unfold thread_text, buffer_of, buffer_write.
  cbn [gfa_file output_buffer set_output_buffer].
  rewrite list_lookup_alter.
  destruct (lookup_lt_is_Some_2 _ _ Ht) as [b Hb].
  destruct (decide (t = t)) as [_|]; [|congruence].
  rewrite Hb. cbn [fmap option_fmap option_map]. now rewrite app_assoc.
Qed.

Lemma fill_buffer_frame st t n :
  Vertices (fill_buffer t n st) = Vertices st
  /\ first_unitig (fill_buffer t n st) = first_unitig st
  /\ second_unitig (fill_buffer t n st) = second_unitig st
  /\ last_unitig (fill_buffer t n st) = last_unitig st
  /\ path_output (fill_buffer t n st) = path_output st
  /\ overlap_output (fill_buffer t n st) = overlap_output st
  /\ path_file (fill_buffer t n st) = path_file st
  /\ overlap_file (fill_buffer t n st) = overlap_file st
  /\ seq_count (fill_buffer t n st) = seq_count st
  /\ length (output_buffer (fill_buffer t n st)) = length (output_buffer st).
Proof.
  unfold fill_buffer. destruct (MAX_BUFF_SIZE <=? _);
    repeat split; try reflexivity.
  unfold flush_buffer. cbn [output_buffer set_buffer_size set_output_buffer].
  apply length_insert.
Qed.

Lemma write_gfa_link_text st t u v :
  (t < length (output_buffer st))%nat ->
  thread_text (write_gfa_link t u v st) t = thread_text st t ++ link_line u v.
Proof.
  intros Ht. unfold write_gfa_link.
  now rewrite thread_text_fill_buffer, thread_text_buffer_write.
Qed.

Lemma write_gfa_segment_text st t seq name s e d :
  (t < length (output_buffer st))%nat ->
  thread_text (write_gfa_segment t seq name s e d st) t
  = thread_text st t ++ segment_line seq name s e d.
Proof.
  intros Ht. unfold write_gfa_segment.
  now rewrite thread_text_fill_buffer, thread_text_buffer_write.
Qed.

Lemma write_gfa_link_frame st t u v :
  Vertices (write_gfa_link t u v st) = Vertices st
  /\ first_unitig (write_gfa_link t u v st) = first_unitig st
  /\ second_unitig (write_gfa_link t u v st) = second_unitig st
  /\ last_unitig (write_gfa_link t u v st) = last_unitig st
  /\ path_output (write_gfa_link t u v st) = path_output st
  /\ overlap_output (write_gfa_link t u v st) = overlap_output st
  /\ path_file (write_gfa_link t u v st) = path_file st
  /\ overlap_file (write_gfa_link t u v st) = overlap_file st
  /\ seq_count (write_gfa_link t u v st) = seq_count st
  /\ length (output_buffer (write_gfa_link t u v st)) = length (output_buffer st).
Proof.
  unfold write_gfa_link.
  destruct (fill_buffer_frame (buffer_write t (link_line u v) st) t 1)
    as (-> & -> & -> & -> & -> & -> & -> & -> & -> & ->).
  repeat split; try reflexivity.
  unfold buffer_write. cbn [output_buffer set_output_buffer]. apply length_alter.
Qed.

Lemma write_gfa_segment_frame st t seq name s e d :
  Vertices (write_gfa_segment t seq name s e d st) = Vertices st
  /\ first_unitig (write_gfa_segment t seq name s e d st) = first_unitig st
  /\ second_unitig (write_gfa_segment t seq name s e d st) = second_unitig st
  /\ last_unitig (write_gfa_segment t seq name s e d st) = last_unitig st
  /\ path_output (write_gfa_segment t seq name s e d st) = path_output st
  /\ overlap_output (write_gfa_segment t seq name s e d st) = overlap_output st
  /\ path_file (write_gfa_segment t seq name s e d st) = path_file st
  /\ overlap_file (write_gfa_segment t seq name s e d st) = overlap_file st
  /\ seq_count (write_gfa_segment t seq name s e d st) = seq_count st
  /\ length (output_buffer (write_gfa_segment t seq name s e d st))
     = length (output_buffer st).
Proof.
  unfold write_gfa_segment.
  destruct (fill_buffer_frame
              (buffer_write t (segment_line seq name s e d) st) t 1)
    as (-> & -> & -> & -> & -> & -> & -> & -> & -> & ->).
  repeat split; try reflexivity.
  unfold buffer_write. cbn [output_buffer set_output_buffer]. apply length_alter.
Qed.

Lemma append_link_to_path_frame st t u v :
  Vertices (append_link_to_path t u v st) = Vertices st
  /\ first_unitig (append_link_to_path t u v st) = first_unitig st
  /\ second_unitig (append_link_to_path t u v st) = second_unitig st
  /\ last_unitig (append_link_to_path t u v st) = last_unitig st
  /\ path_output (append_link_to_path t u v st) = path_output st
  /\ overlap_output (append_link_to_path t u v st) = overlap_output st
  /\ output_buffer (append_link_to_path t u v st) = output_buffer st
  /\ gfa_file (append_link_to_path t u v st) = gfa_file st
  /\ seq_count (append_link_to_path t u v st) = seq_count st.
Proof. repeat split; reflexivity. Qed.

(** ** Records *)

Lemma overlap_of_spec (u v : Oriented_Unitig) :
  0 <= end_kmer_idx u < 2 ^ 64 - 1 ->
  overlap_of u v = if start_kmer_idx v =? end_kmer_idx u + 1 then k - 1 else 0.
Proof. intros Hu. unfold overlap_of. now rewrite wrap64_small by lia. Qed.

(** C6: an L-record and the entries spooled for a link from [u] (left) to
    [v] (right) carry [+] for [FWD] and [-] for [BWD]; their overlap is
    [k - 1] followed by [M] exactly when [v] starts one index after the end
    of [u], and [0] followed by [M] otherwise. *)
Theorem link_and_path_entries (st : CdBG) (t_link t_path : nat)
    (u v : Oriented_Unitig) (p o : text) :
  1 <= k < 2 ^ 16 ->
  0 <= end_kmer_idx u < 2 ^ 64 - 1 ->
  (t_link < length (output_buffer st))%nat ->
  path_output st !! t_path = Some false ->
  overlap_output st !! t_path = Some false ->
  path_file st !! t_path = Some p ->
  overlap_file st !! t_path = Some o ->
  let overlap := if start_kmer_idx v =? end_kmer_idx u + 1 then k - 1 else 0 in
  thread_text (write_gfa_link t_link u v st) t_link
  = thread_text st t_link
      ++ txt "L" ++ TAB ++ dec (unitig_id u) ++ TAB ++ sign (unitig_dir u)
      ++ TAB ++ dec (unitig_id v) ++ TAB ++ sign (unitig_dir v)
      ++ TAB ++ dec overlap ++ txt "M" ++ NL
  /\ path_file (append_link_to_path t_path u v st) !! t_path
     = Some (p ++ txt "," ++ dec (unitig_id v) ++ sign (unitig_dir v))
  /\ overlap_file (append_link_to_path t_path u v st) !! t_path
     = Some (o ++ txt "," ++ dec overlap ++ txt "M")
  /\ sign FWD = txt "+" /\ sign BWD = txt "-".
Proof.
  intros Hk Hu Ht Hps Hos Hp Ho overlap.
  assert (Hov : overlap_of u v = overlap) by now apply overlap_of_spec.
  assert (Hrange : 0 <= overlap < 2 ^ 16).
  { unfold overlap. destruct (_ =? _); lia. }
  split; [|split; [|split; [|split; reflexivity]]].
  - rewrite write_gfa_link_text by exact Ht. unfold link_line.
    now rewrite Hov, wrap16_small by exact Hrange.
  - unfold append_link_to_path, spool_write. simpl. rewrite Hps.
    rewrite lookup_alter_eq, Hp. reflexivity.
  - unfold append_link_to_path, spool_write. simpl. rewrite Hos.
    rewrite lookup_alter_eq, Ho. unfold overlap_entry.
    rewrite Hov, dec_int_nonneg by lia. reflexivity.
Qed.

(** C7: the S-record of a unitig flanked by the k-mers at [s] and [e] spells
    [seq[s .. e + k - 1]] when its orientation is [FWD] and the reverse
    complement of that range when it is [BWD]; its LN field is
    [e - s + k] and its KC field is [e - s + 1]. *)
Theorem segment_record (st : CdBG) (t : nat) (seq : text) (name s e : Z)
    (d : kmer_dir_t) :
  1 <= k ->
  0 <= s <= e ->
  e + k <= Z.of_nat (length seq) ->
  Z.of_nat (length seq) < 2 ^ 64 ->
  (t < length (output_buffer st))%nat ->
  let range := take (Z.to_nat (e + k - s)) (drop (Z.to_nat s) seq) in
  thread_text (write_gfa_segment t seq name s e d st) t
  = thread_text st t
      ++ txt "S" ++ TAB ++ dec name
      ++ TAB ++ match d with
                | FWD => range
                | BWD => reverse_complement range
                end
      ++ TAB ++ txt "LN:i:" ++ dec (e - s + k)
      ++ TAB ++ txt "KC:i:" ++ dec (e - s + 1)
      ++ NL.
Proof.
  intros Hk Hse Hlen Hmax Ht range.
  rewrite write_gfa_segment_text by exact Ht. unfold segment_line.
  rewrite (wrap64_small (e - s)) by lia.
  rewrite (wrap64_small (e - s + k)), (wrap64_small (e - s + 1)) by lia.
  do 5 f_equal.
  unfold segment_field. rewrite (wrap64_small (e + k)) by lia.
  rewrite (wrap64_small (e + k - 1)) by lia.
  destruct d.
  - rewrite spell_fwd_spec by lia. unfold range. do 2 f_equal. lia.
  - rewrite spell_bwd_spec by lia. reflexivity.
Qed.

(** ** Emission of one unitig *)

Lemma slot_insert (l : list (option Oriented_Unitig)) (t t' : nat) x :
  slot (<[t := x]> l) t'
  = if decide (t = t' /\ (t < length l)%nat) then x else slot l t'.
Proof.
  unfold slot. destruct (decide (t = t')) as [<-|Hne].
  - destruct (decide ((t < length l)%nat)) as [Hlt|Hge].
    + rewrite list_lookup_insert_eq by exact Hlt.
      destruct (decide _) as [_|Hn]; [reflexivity|]. exfalso. now apply Hn.
    + rewrite list_insert_ge by lia.
      destruct (decide _) as [[_ Hlt]|_]; [lia|reflexivity].
  - rewrite list_lookup_insert_ne by exact Hne.
    destruct (decide _) as [[Heq _]|_]; [congruence|reflexivity].
Qed.

Lemma slot_None_ge (l : list (option Oriented_Unitig)) (t : nat) :
  (length l <= t)%nat -> slot l t = None.
Proof. intros Hge. unfold slot. now rewrite lookup_ge_None_2. Qed.

Lemma note_first_second_frame st t u :
  Vertices (note_first_second t u st) = Vertices st
  /\ last_unitig (note_first_second t u st) = last_unitig st
  /\ path_output (note_first_second t u st) = path_output st
  /\ overlap_output (note_first_second t u st) = overlap_output st
  /\ path_file (note_first_second t u st) = path_file st
  /\ overlap_file (note_first_second t u st) = overlap_file st
  /\ seq_count (note_first_second t u st) = seq_count st
  /\ output_buffer (note_first_second t u st) = output_buffer st
  /\ gfa_file (note_first_second t u st) = gfa_file st.
Proof.
  unfold note_first_second.
  destruct (negb (is_valid (slot (first_unitig st) t)));
    [|destruct (negb (is_valid (slot (second_unitig st) t)))];
    repeat split; reflexivity.
Qed.

Lemma link_previous_frame st t u :
  Vertices (link_previous t u st) = Vertices st
  /\ first_unitig (link_previous t u st) = first_unitig st
  /\ second_unitig (link_previous t u st) = second_unitig st
  /\ last_unitig (link_previous t u st) = last_unitig st
  /\ path_output (link_previous t u st) = path_output st
  /\ overlap_output (link_previous t u st) = overlap_output st
  /\ seq_count (link_previous t u st) = seq_count st
  /\ length (output_buffer (link_previous t u st)) = length (output_buffer st).
Proof.
  unfold link_previous. destruct (slot (last_unitig st) t) as [p|];
    [|repeat split; reflexivity].
  destruct (append_link_to_path_frame (write_gfa_link t p u st) t p u)
    as (-> & -> & -> & -> & -> & -> & -> & _ & ->).
  destruct (write_gfa_link_frame st t p u)
    as (-> & -> & -> & -> & -> & -> & _ & _ & -> & ->).
  repeat split; reflexivity.
Qed.

Lemma record_unitig_witnesses st t u :
  first_unitig (record_unitig t u st)
  = (if negb (is_valid (slot (first_unitig st) t))
     then <[t := Some u]> (first_unitig st) else first_unitig st)
  /\ second_unitig (record_unitig t u st)
     = (if negb (is_valid (slot (first_unitig st) t)) then second_unitig st
        else if negb (is_valid (slot (second_unitig st) t))
        then <[t := Some u]> (second_unitig st) else second_unitig st)
  /\ last_unitig (record_unitig t u st) = <[t := Some u]> (last_unitig st).
Proof.
  unfold record_unitig. cbn [first_unitig second_unitig last_unitig set_witnesses].
  destruct (link_previous_frame (note_first_second t u st) t u)
    as (_ & -> & -> & -> & _).
  rewrite (proj1 (proj2 (note_first_second_frame st t u))).
  unfold note_first_second.
  destruct (negb (is_valid (slot (first_unitig st) t)));
    [|destruct (negb (is_valid (slot (second_unitig st) t)))];
    repeat split; reflexivity.
Qed.

Lemma record_unitig_frame st t u :
  Vertices (record_unitig t u st) = Vertices st
  /\ path_output (record_unitig t u st) = path_output st
  /\ overlap_output (record_unitig t u st) = overlap_output st
  /\ seq_count (record_unitig t u st) = seq_count st
  /\ length (output_buffer (record_unitig t u st)) = length (output_buffer st).
Proof.
  unfold record_unitig.
  cbn [Vertices path_output overlap_output seq_count output_buffer set_witnesses].
  destruct (link_previous_frame (note_first_second t u st) t u)
    as (-> & _ & _ & _ & -> & -> & -> & ->).
  destruct (note_first_second_frame st t u)
    as (-> & _ & -> & -> & _ & _ & -> & -> & _).
  repeat split; reflexivity.
Qed.

Lemma record_unitig_text st t u :
  (t < length (output_buffer st))%nat ->
  thread_text (record_unitig t u st) t
  = thread_text st t
      ++ match slot (last_unitig st) t with
         | Some prev_unitig => link_line prev_unitig u
         | None => []
         end.
Proof.
  intros Ht. unfold record_unitig.
  change (thread_text (set_witnesses ?f ?s ?l ?x) t) with (thread_text x t).
  unfold link_previous.
  rewrite (proj1 (proj2 (note_first_second_frame st t u))).
  assert (Htext : thread_text (note_first_second t u st) t = thread_text st t).
  { unfold thread_text, buffer_of.
    destruct (note_first_second_frame st t u) as (_ & _ & _ & _ & _ & _ & _ & -> & ->).
    reflexivity. }
  destruct (slot (last_unitig st) t) as [p|]; [|now rewrite app_nil_r].
  change (thread_text (append_link_to_path ?a ?b ?c ?x) t) with (thread_text x t).
  rewrite write_gfa_link_text, Htext; [reflexivity|].
  now rewrite (proj1 (proj2 (proj2 (proj2 (proj2 (proj2 (proj2 (proj2
                 (note_first_second_frame st t u))))))))).
Qed.

Lemma try_mark_loaded (V : Kmer_Hash_Table) (bucket : Z) :
  try_mark_outputted (load V bucket) V
  = if is_outputted (V bucket) then (false, V)
    else (true, fun b => if b =? bucket then outputted (V bucket) else V b).
Proof.
  unfold try_mark_outputted, load, update.
  cbn [get_state entry_bucket state_read].
  destruct (is_outputted (V bucket)); cbn [negb]; [reflexivity|].
  destruct (decide (V bucket = V bucket)) as [_|Hn]; [reflexivity|congruence].
Qed.

Lemma output_unitig_gfa_last st t seq s e :
  last_unitig (output_unitig_gfa t seq s e st)
  = <[t := Some (current_unitig_of s e)]> (last_unitig st).
Proof.
  unfold output_unitig_gfa, output_unitig_gfa_entry.
  destruct (try_mark_outputted _ _) as [[|] V'];
    rewrite (proj2 (proj2 (record_unitig_witnesses _ _ _)));
    [rewrite (proj1 (proj2 (proj2 (proj2 (write_gfa_segment_frame _ _ _ _ _ _ _)))))|];
    reflexivity.
Qed.

(** What a call of [output_unitig_gfa] adds to the output of its thread: the
    S-record when the unitig was not outputted yet, then the L-record from
    the previous unitig of the thread when there is one. *)
Lemma output_unitig_gfa_text st t seq s e :
  (t < length (output_buffer st))%nat ->
  let u := current_unitig_of s e in
  thread_text (output_unitig_gfa t seq s e st) t
  = thread_text st t
      ++ (if is_outputted (Vertices st (unitig_id u)) then []
          else segment_line seq (unitig_id u) (idx s) (idx e) (unitig_dir u))
      ++ match slot (last_unitig st) t with
         | Some prev_unitig => link_line prev_unitig u
         | None => []
         end.
Proof.
  intros Ht u. unfold output_unitig_gfa, output_unitig_gfa_entry. fold u.
  rewrite try_mark_loaded.
  destruct (is_outputted (Vertices st (unitig_id u))).
  - rewrite record_unitig_text by exact Ht. reflexivity.
  - destruct (write_gfa_segment_frame
                (set_Vertices
                   (fun b => if b =? unitig_id u
                             then outputted (Vertices st (unitig_id u))
                             else Vertices st b) st)
                t seq (unitig_id u) (idx s) (idx e) (unitig_dir u))
      as (_ & _ & _ & Hlast & _ & _ & _ & _ & _ & Hlen).
    rewrite record_unitig_text by (rewrite Hlen; exact Ht).
    rewrite Hlast, write_gfa_segment_text by exact Ht.
    change (thread_text (set_Vertices ?V st) t) with (thread_text st t).
    change (last_unitig (set_Vertices ?V st)) with (last_unitig st).
    now rewrite <- app_assoc.
Qed.

(** C4: the orientation recorded for an emitted unitig, and spelled by its
    S-record, is [FWD] iff [start_kmer.kmer < end_kmer.rev_compl] and [BWD]
    otherwise; it depends on nothing else: not on the direction of the
    flanking k-mers, the thread or the state. *)
Theorem unitig_orientation (st : CdBG) (t : nat) (seq : text)
    (start_kmer end_kmer : Annotated_Kmer) :
  (t < length (last_unitig st))%nat ->
  (t < length (output_buffer st))%nat ->
  exists u : Oriented_Unitig,
    slot (last_unitig (output_unitig_gfa t seq start_kmer end_kmer st)) t = Some u
    /\ (unitig_dir u = FWD <-> kmer_ltb (kmer start_kmer) (rev_compl end_kmer) = true)
    /\ (unitig_dir u = BWD <-> kmer_ltb (kmer start_kmer) (rev_compl end_kmer) = false)
    /\ (is_outputted (Vertices st (unitig_id u)) = false ->
        exists line : text,
          thread_text (output_unitig_gfa t seq start_kmer end_kmer st) t
          = thread_text st t
              ++ segment_line seq (unitig_id u) (idx start_kmer) (idx end_kmer)
                   (unitig_dir u)
              ++ line)
    /\ (forall (st' : CdBG) (t' : nat) (seq' : text) (s' e' : Annotated_Kmer) u',
          kmer s' = kmer start_kmer -> rev_compl e' = rev_compl end_kmer ->
          (t' < length (last_unitig st'))%nat ->
          slot (last_unitig (output_unitig_gfa t' seq' s' e' st')) t' = Some u' ->
          unitig_dir u' = unitig_dir u).
Proof.
  intros Ht Hb. exists (current_unitig_of start_kmer end_kmer).
  assert (Hlast : forall st' t' seq' s' e', (t' < length (last_unitig st'))%nat ->
            slot (last_unitig (output_unitig_gfa t' seq' s' e' st')) t'
            = Some (current_unitig_of s' e')).
  { intros st' t' seq' s' e' Hlt. rewrite output_unitig_gfa_last, slot_insert.
    destruct (decide _) as [_|Hn]; [reflexivity|]. exfalso. now apply Hn. }
  split; [now apply Hlast|].
  unfold current_unitig_of at 1 2. simpl.
  split; [destruct (kmer_ltb _ _); split; congruence|].
  split; [destruct (kmer_ltb _ _); split; congruence|].
  split.
  - intros Hout. eexists. rewrite output_unitig_gfa_text by exact Hb.
    simpl. rewrite Hout. reflexivity.
  - intros st' t' seq' s' e' u' Hs He Hlt Hu'.
    rewrite Hlast in Hu' by exact Hlt. injection Hu' as <-.
    unfold current_unitig_of. simpl. now rewrite Hs, He.
Qed.

(** C5: the id of an emitted unitig is the bucket of the lexicographic
    minimum of the canonical forms of its two flanking k-mers; any thread,
    in any state, walking it from either end, gives it the same id. *)
Theorem unitig_id_is_min_bucket (st : CdBG) (t : nat) (seq : text)
    (start_kmer end_kmer : Annotated_Kmer) :
  (t < length (last_unitig st))%nat ->
  (t < length (output_buffer st))%nat ->
  let m := kmer_min (canonical start_kmer) (canonical end_kmer) in
  exists u : Oriented_Unitig,
    slot (last_unitig (output_unitig_gfa t seq start_kmer end_kmer st)) t = Some u
    /\ unitig_id u = bucket_id m
    /\ (m = canonical start_kmer \/ m = canonical end_kmer)
    /\ kmer_ltb (canonical start_kmer) m = false
    /\ kmer_ltb (canonical end_kmer) m = false
    /\ (is_outputted (Vertices st (unitig_id u)) = false ->
        exists line : text,
          thread_text (output_unitig_gfa t seq start_kmer end_kmer st) t
          = thread_text st t
              ++ segment_line seq (bucket_id m) (idx start_kmer) (idx end_kmer)
                   (unitig_dir u)
              ++ line)
    /\ (forall (st' : CdBG) (t' : nat) (seq' : text) (s' e' : Annotated_Kmer) u',
          (canonical s' = canonical start_kmer /\ canonical e' = canonical end_kmer
           \/ canonical s' = canonical end_kmer /\ canonical e' = canonical start_kmer) ->
          (t' < length (last_unitig st'))%nat ->
          slot (last_unitig (output_unitig_gfa t' seq' s' e' st')) t' = Some u' ->
          unitig_id u' = unitig_id u).
Proof.
  intros Ht Hb m. exists (current_unitig_of start_kmer end_kmer).
  assert (Hlast : forall st' t' seq' s' e', (t' < length (last_unitig st'))%nat ->
            slot (last_unitig (output_unitig_gfa t' seq' s' e' st')) t'
            = Some (current_unitig_of s' e')).
  { intros st' t' seq' s' e' Hlt. rewrite output_unitig_gfa_last, slot_insert.
    destruct (decide _) as [_|Hn]; [reflexivity|]. exfalso. now apply Hn. }
  destruct (kmer_min_lower (canonical start_kmer) (canonical end_kmer))
    as (Hin & Hlo1 & Hlo2).
  split; [now apply Hlast|].
  split; [reflexivity|]. split; [exact Hin|]. split; [exact Hlo1|].
  split; [exact Hlo2|]. split.
  - intros Hout. eexists. rewrite output_unitig_gfa_text by exact Hb.
    simpl. simpl in Hout. rewrite Hout. reflexivity.
  - intros st' t' seq' s' e' u' Hse Hlt Hu'.
    rewrite Hlast in Hu' by exact Hlt. injection Hu' as <-.
    unfold current_unitig_of. simpl.
    destruct Hse as [[-> ->]|[-> ->]]; [reflexivity|].
    now rewrite kmer_min_comm.
Qed.


(** ** The witnesses of the threads *)

Lemma record_unitig_consistent st t u :
  witnesses_consistent st -> witnesses_consistent (record_unitig t u st).
Proof.
  intros (Hl1 & Hl2 & Hall). unfold witnesses_consistent.
  destruct (record_unitig_witnesses st t u) as (Hf & Hs & Hl).
  rewrite Hf, Hs, Hl. clear Hf Hs Hl.
  destruct (is_valid (slot (first_unitig st) t)) eqn:Hfirst; cbn [negb];
    [destruct (is_valid (slot (second_unitig st) t)) eqn:Hsecond; cbn [negb]|];
    rewrite ?length_insert; (split; [exact Hl1|split; [exact Hl2|]]);
    intros t'; destruct (Hall t') as [Hsf Hfl]; rewrite ?slot_insert;
    rewrite ?Hl1, ?Hl2;
    destruct (decide (t = t' /\ (t < length (last_unitig st))%nat)) as [[<- Hlt]|Hno];
    cbn [is_valid]; split; auto.
Qed.

Lemma step_consistent m events m' :
  step m events m' ->
  witnesses_consistent (shared m) -> witnesses_consistent (shared m').
Proof.
  intros Hstep Hinv. destruct Hstep; cbn [shared]; try exact Hinv.
  - unfold witnesses_consistent in *.
    destruct (write_gfa_segment_frame (shared m) t seq
                (unitig_id (current_unitig_of start_kmer end_kmer))
                (idx start_kmer) (idx end_kmer)
                (unitig_dir (current_unitig_of start_kmer end_kmer)))
      as (_ & -> & -> & -> & _).
    exact Hinv.
  - now apply record_unitig_consistent.
Qed.

Lemma steps_consistent m0 trace m :
  steps m0 trace m ->
  witnesses_consistent (shared m0) -> witnesses_consistent (shared m).
Proof.
  induction 1 as [|m1 trace m2 events m3 _ IH Hstep]; intros Hinv; [exact Hinv|].
  eapply step_consistent; [exact Hstep|]. now apply IH.
Qed.

Lemma slot_replicate_None (n t : nat) : slot (replicate n None) t = None.
Proof.
  unfold slot. destruct (replicate n None !! t) as [u|] eqn:Hu; [|reflexivity].
  now apply lookup_replicate_1 in Hu as [-> _].
Qed.

Lemma reset_consistent st (n : nat) :
  first_unitig st = replicate n None ->
  second_unitig st = replicate n None ->
  last_unitig st = replicate n None ->
  witnesses_consistent st.
Proof.
  intros Hf Hs Hl. unfold witnesses_consistent. rewrite Hf, Hs, Hl.
  repeat split; rewrite slot_replicate_None; simpl; congruence.
Qed.

(** A call of [output_unitig_gfa] is a run of the machine in which the
    calling thread takes its four steps in a row. *)
Lemma output_unitig_gfa_steps m t seq s e :
  workers m !! t = Some Idle ->
  exists trace,
    steps m trace
      {| shared := output_unitig_gfa t seq s e (shared m); workers := workers m |}.
Proof.
  intros Hidle.
  assert (Hlt : (t < length (workers m))%nat) by (eapply lookup_lt_Some; exact Hidle).
  pose (b := unitig_id (current_unitig_of s e)).
  pose (entry := load (Vertices (shared m)) b).
  pose (m1 := {| shared := shared m;
                 workers := <[t := Loaded seq s e entry]> (workers m) |}).
  assert (H1 : step m [] m1) by (now apply step_load).
  assert (Hw1 : workers m1 !! t = Some (Loaded seq s e entry)).
  { simpl. now apply list_lookup_insert_eq. }
  pose proof (step_mark m1 t seq s e entry Hw1) as H2.
  set (r := try_mark_outputted entry (Vertices (shared m1))) in H2.
  simpl in H2. rewrite list_insert_insert_eq in H2.
  set (m2 := {| shared := set_Vertices r.2 (shared m);
                workers := <[t := Marked seq s e r.1]> (workers m) |}) in H2.
  assert (Hw2 : workers m2 !! t = Some (Marked seq s e r.1)).
  { simpl. now apply list_lookup_insert_eq. }
  assert (Hfinal : forall sh, workers m = <[t := Idle]>
            (workers {| shared := sh; workers := <[t := Recording s e]> (workers m2) |})).
  { intros sh. simpl. rewrite !list_insert_insert_eq. symmetry.
    now apply list_insert_id. }
  assert (Hout : output_unitig_gfa t seq s e (shared m)
                 = record_unitig t (current_unitig_of s e)
                     (if r.1
                      then write_gfa_segment t seq b (idx s) (idx e)
                             (unitig_dir (current_unitig_of s e))
                             (set_Vertices r.2 (shared m))
                      else set_Vertices r.2 (shared m))).
  { unfold output_unitig_gfa, output_unitig_gfa_entry. fold b. fold entry.
    change (try_mark_outputted entry (Vertices (shared m))) with r.
    destruct r as [won V']. reflexivity. }
  destruct (r.1) eqn:Hwon.
  - pose proof (step_segment m2 t seq s e Hw2) as H3.
    set (m3 := {| shared := _; workers := _ |}) in H3.
    assert (Hw3 : workers m3 !! t = Some (Recording s e)).
    { simpl. apply list_lookup_insert_eq. now rewrite length_insert. }
    pose proof (step_record m3 t s e Hw3) as H4.
    eexists. rewrite Hout, (Hfinal (shared m3)).
    eapply steps_snoc; [|exact H4].
    eapply steps_snoc; [|exact H3].
    eapply steps_snoc; [|exact H2].
    eapply steps_snoc; [apply steps_nil|exact H1].
  - pose proof (step_skip m2 t seq s e Hw2) as H3.
    set (m3 := {| shared := _; workers := _ |}) in H3.
    assert (Hw3 : workers m3 !! t = Some (Recording s e)).
    { simpl. apply list_lookup_insert_eq. now rewrite length_insert. }
    pose proof (step_record m3 t s e Hw3) as H4.
    eexists. rewrite Hout, (Hfinal (shared m3)).
    eapply steps_snoc; [|exact H4].
    eapply steps_snoc; [|exact H3].
    eapply steps_snoc; [|exact H2].
    eapply steps_snoc; [apply steps_nil|exact H1].
Qed.

(** C10: from the reset of the witnesses at the start of a sequence, after
    any number of steps of the emission calls of the threads, however they
    interleave, a valid second witness of a thread comes with a valid first
    witness, and a valid first witness with a valid last witness. *)
Theorem witness_slots_consistent (m0 m : Machine) (trace : list Event)
    (thread_count : nat) :
  first_unitig (shared m0) = replicate thread_count None ->
  second_unitig (shared m0) = replicate thread_count None ->
  last_unitig (shared m0) = replicate thread_count None ->
  steps m0 trace m ->
  forall t : nat,
    (is_valid (slot (second_unitig (shared m)) t) = true ->
     is_valid (slot (first_unitig (shared m)) t) = true)
    /\ (is_valid (slot (first_unitig (shared m)) t) = true ->
        is_valid (slot (last_unitig (shared m)) t) = true).
Proof.
  intros Hf Hs Hl Hsteps.
  apply (steps_consistent _ _ _ Hsteps). now apply (reset_consistent _ thread_count).
Qed.


(** ** One S-record per unitig *)

Lemma flips_app trace events : flips (trace ++ events) = flips trace ++ flips events.
Proof. unfold flips. now rewrite filter_app, map_app. Qed.

Lemma segments_app trace events :
  segments (trace ++ events) = segments trace ++ segments events.
Proof. unfold segments. now rewrite filter_app, map_app. Qed.

Lemma in_flips trace b : In b (flips trace) <-> exists t, In (Flip t b) trace.
Proof.
  unfold flips. rewrite in_map_iff. split.
  - intros ([t b'|t b'] & Hname & Hin); apply list_elem_of_In, list_elem_of_filter in Hin;
      destruct Hin as [Hflip Hin]; simpl in *; [|discriminate].
    subst b'. exists t. now apply list_elem_of_In.
  - intros [t Hin]. exists (Flip t b). split; [reflexivity|].
    apply list_elem_of_In, list_elem_of_filter. split; [reflexivity|].
    now apply list_elem_of_In.
Qed.

Lemma in_segments trace b : In b (segments trace) <-> exists t, In (Segment t b) trace.
Proof.
  unfold segments. rewrite in_map_iff. split.
  - intros ([t b'|t b'] & Hname & Hin); apply list_elem_of_In, list_elem_of_filter in Hin;
      destruct Hin as [Hflip Hin]; simpl in *; [discriminate|].
    subst b'. exists t. now apply list_elem_of_In.
  - intros [t Hin]. exists (Segment t b). split; [reflexivity|].
    apply list_elem_of_In, list_elem_of_filter. split; [reflexivity|].
    now apply list_elem_of_In.
Qed.

Lemma NoDup_snoc_In (l : list Z) (x : Z) : NoDup l -> ~ In x l -> NoDup (l ++ [x]).
Proof.
  intros Hl Hx. apply NoDup_app. split; [exact Hl|]. split.
  - intros y Hy Hin. apply list_elem_of_singleton in Hin. subst y.
    apply Hx. now apply list_elem_of_In.
  - apply NoDup_singleton.
Qed.

Lemma flips_unique trace :
  NoDup (flips trace) ->
  forall t1 t2 b, In (Flip t1 b) trace -> In (Flip t2 b) trace -> t1 = t2.
Proof.
  induction trace as [|[t0 b0|t0 b0] trace IH]; intros Hnd t1 t2 b H1 H2.
  - destruct H1.
  - change (flips (Flip t0 b0 :: trace)) with (b0 :: flips trace) in Hnd.
    apply NoDup_cons in Hnd as [Hfresh Hnd].
    assert (Hno : forall t, In (Flip t b0) trace -> False).
    { intros t Hin. apply Hfresh, list_elem_of_In, in_flips. now exists t. }
    destruct H1 as [H1|H1], H2 as [H2|H2].
    + congruence.
    + injection H1 as -> ->. destruct (Hno _ H2).
    + injection H2 as -> ->. destruct (Hno _ H1).
    + now apply (IH Hnd t1 t2 b).
  - change (flips (Segment t0 b0 :: trace)) with (flips trace) in Hnd.
    destruct H1 as [H1|H1], H2 as [H2|H2]; try discriminate.
    now apply (IH Hnd t1 t2 b).
Qed.

Lemma snoc_split {A : Type} (l l1 l2 : list A) (x y : A) :
  l ++ [x] = l1 ++ y :: l2 ->
  (l2 = [] /\ l = l1 /\ x = y) \/ (exists l2', l2 = l2' ++ [x] /\ l = l1 ++ y :: l2').
Proof.
  destruct l2 as [|z l2 _] using rev_ind; intros Heq.
  - left. apply app_inj_tail in Heq as [-> ->]. auto.
  - right. change (l1 ++ y :: l2 ++ [z]) with (l1 ++ (y :: l2) ++ [z]) in Heq.
    rewrite app_assoc in Heq. apply app_inj_tail in Heq as [-> ->].
    exists l2. split; reflexivity.
Qed.

Lemma try_mark_cases (entry : Kmer_Hash_Entry_API) (V : Kmer_Hash_Table) :
  try_mark_outputted entry V = (false, V)
  \/ (try_mark_outputted entry V
      = (true, fun b => if b =? entry_bucket entry
                        then outputted (get_state entry) else V b)
      /\ is_outputted (get_state entry) = false
      /\ V (entry_bucket entry) = state_read entry).
Proof.
  unfold try_mark_outputted, update. simpl.
  destruct (is_outputted (get_state entry)); simpl; [now left|].
  destruct (decide _) as [Heq|_]; [right|now left]. auto.
Qed.

Lemma worker_insert (ws : list Worker) (t t' : nat) (w w' : Worker) :
  (t < length ws)%nat ->
  <[t := w]> ws !! t' = Some w' ->
  (t' = t /\ w' = w) \/ (t' <> t /\ ws !! t' = Some w').
Proof.
  intros Hlt Hw. destruct (decide (t' = t)) as [->|Hne].
  - rewrite list_lookup_insert_eq in Hw by exact Hlt. left. split; congruence.
  - rewrite list_lookup_insert_ne in Hw by congruence. now right.
Qed.

Lemma run_invariant_init (m0 : Machine) :
  (forall t w, workers m0 !! t = Some w -> w = Idle) ->
  run_invariant (Vertices (shared m0)) [] m0.
Proof.
  intros Hidle. split.
  - apply NoDup_nil_2.
  - apply NoDup_nil_2.
  - auto.
  - intros t b [].
  - intros [|x trace1] t b trace2 Heq; discriminate.
  - intros t seq s e entry Hw. apply Hidle in Hw. discriminate.
  - intros t seq s e Hw. apply Hidle in Hw. discriminate.
Qed.

Lemma run_invariant_quiet V0 trace m m' :
  run_invariant V0 trace m ->
  Vertices (shared m') = Vertices (shared m) ->
  (forall t seq s e entry,
     workers m' !! t = Some (Loaded seq s e entry) ->
     workers m !! t = Some (Loaded seq s e entry)
     \/ (entry_bucket entry = unitig_id (current_unitig_of s e)
         /\ get_state entry = state_read entry)) ->
  (forall t seq s e,
     workers m' !! t = Some (Marked seq s e true) ->
     workers m !! t = Some (Marked seq s e true)) ->
  run_invariant V0 (trace ++ []) m'.
Proof.
  intros [Hfl Hsg Hmono Hflipped Hord Hload Hmark] HV Hl Hm.
  rewrite app_nil_r. split; try assumption.
  - intros b. rewrite HV. apply Hmono.
  - intros t b. rewrite HV. apply Hflipped.
  - intros t seq s e entry Hw. destruct (Hl _ _ _ _ _ Hw) as [Hold|Hnew]; [|exact Hnew].
    now apply (Hload t seq).
  - intros t seq s e Hw. apply (Hmark t seq). now apply Hm.
Qed.

Lemma step_invariant V0 trace m events m' :
  run_invariant V0 trace m -> step m events m' ->
  run_invariant V0 (trace ++ events) m'.
Proof.
  intros Hinv Hstep.
  destruct Hstep as [m t seq s e Hw|m t seq s e entry Hw|m t seq s e Hw
                    |m t seq s e Hw|m t s e Hw];
    assert (Hlt : (t < length (workers m))%nat) by (eapply lookup_lt_Some; exact Hw).
  - (* the entry is loaded *)
    apply run_invariant_quiet with m; cbn [shared workers]; auto.
    + intros t' seq' s' e' entry' Hw'.
      destruct (worker_insert _ _ _ _ _ Hlt Hw') as [[-> Heq]|[_ Hold]]; [right|now left].
      injection Heq as -> -> -> ->. split; reflexivity.
    + intros t' seq' s' e' Hw'.
      destruct (worker_insert _ _ _ _ _ Hlt Hw') as [[_ Heq]|[_ Hold]];
        [discriminate|exact Hold].
  - (* the update is tried *)
    destruct (try_mark_cases entry (Vertices (shared m))) as [Hfail|(Hok & Hnot & HVb)].
    + rewrite Hfail. cbn [fst snd]. apply run_invariant_quiet with m;
        cbn [shared workers]; auto.
      * intros t' seq' s' e' entry' Hw'.
        destruct (worker_insert _ _ _ _ _ Hlt Hw') as [[_ Heq]|[_ Hold]];
          [discriminate|now left].
      * intros t' seq' s' e' Hw'.
        destruct (worker_insert _ _ _ _ _ Hlt Hw') as [[_ Heq]|[_ Hold]];
          [discriminate|exact Hold].
    + rewrite Hok. cbn [fst snd].
      destruct Hinv as [Hfl Hsg Hmono Hflipped Hord Hload Hmark].
      destruct (Hload _ _ _ _ _ Hw) as [Hb Hgs].
      assert (HVnot : is_outputted (Vertices (shared m) (entry_bucket entry)) = false).
      { rewrite HVb, <- Hgs. exact Hnot. }
      assert (Hnoflip : forall t', ~ In (Flip t' (entry_bucket entry)) trace).
      { intros t' Hin. apply Hflipped in Hin as [_ Hin]. congruence. }
      split; cbn [shared workers Vertices set_Vertices].
      * rewrite flips_app. apply NoDup_snoc_In; [exact Hfl|].
        rewrite in_flips. intros [t' Hin]. now apply (Hnoflip t').
      * rewrite segments_app. change (segments [Flip t (entry_bucket entry)]) with (@nil Z).
        now rewrite app_nil_r.
      * intros b' H0. destruct (b' =? entry_bucket entry); [reflexivity|].
        now apply Hmono.
      * intros t' b' Hin. apply in_app_or in Hin as [Hin|[Heq|[]]].
        -- destruct (Hflipped _ _ Hin) as [H0 H1]. split; [exact H0|].
           destruct (b' =? entry_bucket entry); [reflexivity|exact H1].
        -- injection Heq as <- <-. split.
           ++ destruct (is_outputted (V0 (entry_bucket entry))) eqn:E; [|reflexivity].
              apply Hmono in E. congruence.
           ++ now rewrite Z.eqb_refl.
      * intros trace1 t' b' trace2 Heq.
        apply snoc_split in Heq as [(_ & _ & Hx)|(trace2' & _ & Heq)]; [discriminate|].
        now apply (Hord trace1 t' b' trace2').
      * intros t' seq' s' e' entry' Hw'.
        destruct (worker_insert _ _ _ _ _ Hlt Hw') as [[_ Heq]|[_ Hold]];
          [discriminate|now apply (Hload t' seq')].
      * intros t' seq' s' e' Hw'.
        destruct (worker_insert _ _ _ _ _ Hlt Hw') as [[-> Heq]|[_ Hold]].
        -- injection Heq as -> -> ->. rewrite <- Hb. split.
           ++ apply in_or_app. right. now left.
           ++ rewrite segments_app.
              change (segments [Flip t (entry_bucket entry)]) with (@nil Z).
              rewrite app_nil_r, in_segments.
              intros [t'' Hin]. apply in_split in Hin as (l1 & l2 & ->).
              apply (Hnoflip t''). apply in_or_app. left.
              now apply (Hord l1 t'' _ l2).
        -- destruct (Hmark _ _ _ _ Hold) as [Hin Hns]. split.
           ++ apply in_or_app. now left.
           ++ rewrite segments_app.
              change (segments [Flip t (entry_bucket entry)]) with (@nil Z).
              now rewrite app_nil_r.
  - (* the segment is written *)
    destruct Hinv as [Hfl Hsg Hmono Hflipped Hord Hload Hmark].
    destruct (Hmark _ _ _ _ Hw) as [Hin Hns].
    set (b := unitig_id (current_unitig_of s e)) in *.
    assert (HV : Vertices (write_gfa_segment t seq b (idx s) (idx e)
                             (unitig_dir (current_unitig_of s e)) (shared m))
                 = Vertices (shared m))
      by apply write_gfa_segment_frame.
    split; cbn [shared workers].
    + rewrite flips_app. change (flips [Segment t b]) with (@nil Z).
      now rewrite app_nil_r.
    + rewrite segments_app. now apply NoDup_snoc_In.
    + intros b'. rewrite HV. apply Hmono.
    + intros t' b' Hin'. rewrite HV.
      apply in_app_or in Hin' as [Hin'|[Heq|[]]]; [|discriminate].
      now apply (Hflipped t').
    + intros trace1 t' b' trace2 Heq.
      apply snoc_split in Heq as [(_ & -> & Hx)|(trace2' & _ & Heq)].
      * injection Hx as <- <-. exact Hin.
      * now apply (Hord trace1 t' b' trace2').
    + intros t' seq' s' e' entry' Hw'.
      destruct (worker_insert _ _ _ _ _ Hlt Hw') as [[_ Heq]|[_ Hold]];
        [discriminate|now apply (Hload t' seq')].
    + intros t' seq' s' e' Hw'.
      destruct (worker_insert _ _ _ _ _ Hlt Hw') as [[_ Heq]|[Hne Hold]];
        [discriminate|].
      destruct (Hmark _ _ _ _ Hold) as [Hin' Hns']. split.
      * apply in_or_app. now left.
      * rewrite segments_app. intros Hin''.
        apply in_app_or in Hin'' as [Hin''|[Heq|[]]]; [now apply Hns'|].
        apply Hne. apply (flips_unique trace Hfl t' t b); [|exact Hin].
        cbn [event_name] in Heq. rewrite Heq. exact Hin'.
  - (* nothing to write *)
    apply run_invariant_quiet with m; cbn [shared workers]; auto.
    + intros t' seq' s' e' entry' Hw'.
      destruct (worker_insert _ _ _ _ _ Hlt Hw') as [[_ Heq]|[_ Hold]];
        [discriminate|now left].
    + intros t' seq' s' e' Hw'.
      destruct (worker_insert _ _ _ _ _ Hlt Hw') as [[_ Heq]|[_ Hold]];
        [discriminate|exact Hold].
  - (* the unitig is recorded *)
    apply run_invariant_quiet with m; cbn [shared workers]; auto.
    + apply record_unitig_frame.
    + intros t' seq' s' e' entry' Hw'.
      destruct (worker_insert _ _ _ _ _ Hlt Hw') as [[_ Heq]|[_ Hold]];
        [discriminate|now left].
    + intros t' seq' s' e' Hw'.
      destruct (worker_insert _ _ _ _ _ Hlt Hw') as [[_ Heq]|[_ Hold]];
        [discriminate|exact Hold].
Qed.

Lemma steps_invariant V0 m0 trace m :
  run_invariant V0 [] m0 -> steps m0 trace m -> run_invariant V0 trace m.
Proof.
  intros Hinit Hsteps.
  induction Hsteps as [|m1 trace m2 events m3 _ IH Hstep]; [exact Hinit|].
  eapply step_invariant; [|exact Hstep]. now apply IH.
Qed.

(** C2: in a run of the emission calls of the threads, however they
    interleave, no unitig gets two S-records; the slot of a unitig goes from
    not outputted to outputted at most once, so one thread at most makes
    that transition, and an S-record is written only by the thread that
    made it, after it made it, having read the flag as false. *)
Theorem one_segment_per_unitig (m0 m : Machine) (trace : list Event) :
  (forall t w, workers m0 !! t = Some w -> w = Idle) ->
  steps m0 trace m ->
  NoDup (segments trace)
  /\ NoDup (flips trace)
  /\ (forall trace1 t name trace2,
        trace = trace1 ++ Segment t name :: trace2 -> In (Flip t name) trace1)
  /\ (forall t1 t2 bucket,
        In (Flip t1 bucket) trace -> In (Flip t2 bucket) trace -> t1 = t2)
  /\ (forall t bucket,
        In (Flip t bucket) trace ->
        is_outputted (Vertices (shared m0) bucket) = false
        /\ is_outputted (Vertices (shared m) bucket) = true).
Proof.
  intros Hidle Hsteps.
  destruct (steps_invariant _ _ _ _ (run_invariant_init m0 Hidle) Hsteps)
    as [Hfl Hsg Hmono Hflipped Hord Hload Hmark].
  repeat split; try assumption.
  - now apply flips_unique.
  - now apply (Hflipped t).
  - now apply (Hflipped t).
Qed.


Lemma output_unitig_gfa_Vertices st t seq s e :
  let u := current_unitig_of s e in
  Vertices (output_unitig_gfa t seq s e st)
  = if is_outputted (Vertices st (unitig_id u)) then Vertices st
    else fun b => if b =? unitig_id u then outputted (Vertices st (unitig_id u))
                  else Vertices st b.
Proof.
  intros u. unfold output_unitig_gfa, output_unitig_gfa_entry. fold u.
  rewrite try_mark_loaded.
  destruct (is_outputted (Vertices st (unitig_id u)));
    rewrite (proj1 (record_unitig_frame _ _ _)); [reflexivity|].
  now rewrite (proj1 (write_gfa_segment_frame _ _ _ _ _ _ _)).
Qed.

(** ** The walker *)

Lemma no_right_neighbor_false seq seq_len i :
  0 <= i -> i + k <= seq_len -> seq_len < 2 ^ 64 -> 0 <= k ->
  no_right_neighbor seq seq_len i = false -> i + k < seq_len.
Proof.
  intros Hi Hle Hmax Hk Hn. unfold no_right_neighbor in Hn.
  rewrite wrap64_small in Hn by lia.
  destruct (Z.eqb_spec (i + k) seq_len) as [|Hne]; [discriminate|lia].
Qed.

Lemma walk_loop_spec (fuel : nat) (thread_id : nat) (seq : text)
    (seq_len right_end : Z) (w : Walk) (st : CdBG) :
  1 <= k -> 0 <= kmer_idx w -> kmer_idx w + k <= seq_len -> seq_len < 2 ^ 64 ->
  seq_len - k - kmer_idx w < Z.of_nat fuel ->
  exists (w' : Walk) (st' : CdBG),
    walk_loop fuel thread_id seq seq_len right_end w st = Some (w', st')
    /\ on_unipath w' = false
    /\ kmer_idx w <= kmer_idx w' /\ kmer_idx w' + k <= seq_len
    /\ (forall i, kmer_idx w <= i < kmer_idx w' ->
        no_right_neighbor seq seq_len i = false)
    /\ (right_end < kmer_idx w' \/ no_right_neighbor seq seq_len (kmer_idx w') = true)
    /\ (on_unipath w = true -> right_end < kmer_idx w ->
        (exists start_kmer : Annotated_Kmer,
           st' = output_unitig_gfa thread_id seq start_kmer (curr_kmer w') st)
        /\ (no_right_neighbor seq seq_len (kmer_idx w') = true
            \/ ends_at (curr_kmer w') (next_kmer w') = true)).
Proof.
  intros Hk. revert w st.
  induction fuel as [|fuel IH]; intros w st Hi Hle Hmax Hfuel; [lia|].
  simpl walk_loop.
  destruct (on_unipath w || (kmer_idx w <=? right_end)) eqn:Htest.
  2:{ apply orb_false_iff in Htest as [Hon Hpast]. apply Z.leb_gt in Hpast.
      exists w, st. split; [reflexivity|]. split; [exact Hon|].
      split; [lia|]. split; [exact Hle|]. split; [intros i Hi'; lia|].
      split; [now left|]. intros H1. congruence. }
  unfold walk_body.
  set (curr := next_kmer w). set (prev := curr_kmer w).
  set (on := if starts_at curr prev then true else on_unipath w).
  set (start := if starts_at curr prev then curr else unipath_start_kmer w).
  assert (Hon : on_unipath w = true -> on = true).
  { intros H1. unfold on. now destruct (starts_at curr prev). }
  destruct (no_right_neighbor seq seq_len (kmer_idx w)) eqn:Hright.
  { (* the run ends at this k-mer *)
    eexists _, _. split; [reflexivity|].
    cbn [on_unipath kmer_idx curr_kmer next_kmer].
    split; [reflexivity|]. split; [lia|]. split; [exact Hle|].
    split; [intros i Hi'; lia|]. split; [now right|].
    intros H1 _. split; [|now left]. rewrite (Hon H1). now exists start. }
  assert (Hlt : kmer_idx w + k < seq_len)
    by (apply (no_right_neighbor_false seq); [lia ..|exact Hright]).
  set (next := roll_to_next_kmer (seq_at seq (wrap64 (kmer_idx w + k)))
                (Vertices st) curr).
  destruct (on && ends_at curr next) eqn:Hclose.
  - (* the unitig closes at this k-mer *)
    apply andb_true_iff in Hclose as [Hon' Hends].
    match goal with
    | |- context [walk_loop fuel _ _ _ _ (advance ?w2) ?st2] =>
        destruct (IH (advance w2) st2) as (w' & st' & Hloop & Hoff & Hge & Hle' & Hall & Hexit & _);
          [cbn [kmer_idx advance]; rewrite ?wrap64_small by lia; lia ..|];
          pose proof Hloop as Hloop'
    end.
    cbn [kmer_idx advance] in Hge, Hall.
    rewrite wrap64_small in Hge, Hall by lia.
    exists w', st'. split; [exact Hloop|]. split; [exact Hoff|].
    split; [lia|]. split; [exact Hle'|]. split.
    { intros i Hi'. destruct (Z.eq_dec i (kmer_idx w)) as [->|Hne];
        [exact Hright|apply Hall; lia]. }
    split; [exact Hexit|].
    intros H1 Hpast. destruct fuel as [|fuel']; [lia|].
    cbn [walk_loop kmer_idx on_unipath advance orb] in Hloop'.
    rewrite wrap64_small in Hloop' by lia.
    destruct (kmer_idx w + 1 <=? right_end) eqn:Hin; [apply Z.leb_le in Hin; lia|].
    injection Hloop' as <- <-. cbn [curr_kmer next_kmer advance].
    split; [now exists start|]. right. exact Hends.
  - (* the walk goes on *)
    match goal with
    | |- context [walk_loop fuel _ _ _ _ (advance ?w2) ?st2] =>
        destruct (IH (advance w2) st2) as (w' & st' & Hloop & Hoff & Hge & Hle' & Hall & Hexit & Hover);
          [cbn [kmer_idx advance]; rewrite ?wrap64_small by lia; lia ..|]
    end.
    cbn [kmer_idx on_unipath advance] in Hge, Hall, Hover.
    rewrite wrap64_small in Hge, Hall, Hover by lia.
    exists w', st'. split; [exact Hloop|]. split; [exact Hoff|].
    split; [lia|]. split; [exact Hle'|]. split.
    { intros i Hi'. destruct (Z.eq_dec i (kmer_idx w)) as [->|Hne];
        [exact Hright|apply Hall; lia]. }
    split; [exact Hexit|].
    intros H1 Hpast. apply Hover; [now apply Hon|lia].
Qed.

(** *** The k-mers the walker holds *)

Lemma annotate_classes x i (V V' : Kmer_Hash_Table) :
  (forall b, state_class (V b) = state_class (V' b)) ->
  annotate x i V = annotate x i V'.
Proof. intros Hsame. unfold annotate. now rewrite Hsame. Qed.

Lemma output_unitig_gfa_classes st t seq s e b :
  state_class (Vertices (output_unitig_gfa t seq s e st) b) = state_class (Vertices st b).
Proof.
  rewrite output_unitig_gfa_Vertices. cbv zeta.
  destruct (is_outputted _); [reflexivity|].
  destruct (Z.eqb_spec b (unitig_id (current_unitig_of s e))) as [->|_]; reflexivity.
Qed.

Lemma kmer_at_emitted st t seq0 s e seq i :
  kmer_at seq (Vertices (output_unitig_gfa t seq0 s e st)) i = kmer_at seq (Vertices st) i.
Proof. apply annotate_classes. intros b. apply output_unitig_gfa_classes. Qed.

Lemma kmer_of_next (seq : list ascii) (i : Z) :
  1 <= k -> 0 <= i -> i + k < Z.of_nat (length seq) ->
  tail (kmer_of seq i) ++ [seq_at seq (i + k)] = kmer_of seq (i + 1).
Proof.
  intros Hk Hi Hlen. unfold kmer_of, seq_at.
  replace (Z.to_nat (i + 1)) with (S (Z.to_nat i)) by lia.
  replace (Z.to_nat (i + k)) with (S (Z.to_nat i) + (Z.to_nat k - 1))%nat by lia.
  assert (Ek : Z.to_nat k = S (Z.to_nat k - 1)) by lia.
  set (a := Z.to_nat i). set (n := (Z.to_nat k - 1)%nat) in *.
  assert (Hn : (S a + n < length seq)%nat) by (unfold a, n; lia).
  rewrite Ek. clearbody a n. clear Hk Hi Hlen Ek.
  destruct (lookup_lt_is_Some_2 seq a ltac:(lia)) as [x Hx].
  rewrite (drop_S seq x a Hx). cbn [take tail].
  symmetry. apply take_S_r. rewrite lookup_drop.
  destruct (nth_lookup_or_length seq (S a + n) "000"%char) as [H|H]; [exact H|lia].
Qed.

Lemma roll_to_kmer_at (seq : list ascii) V V' (i : Z) :
  1 <= k -> 0 <= i -> i + k < Z.of_nat (length seq) -> i + k < 2 ^ 64 ->
  (forall b, state_class (V' b) = state_class (V b)) ->
  roll_to_next_kmer (seq_at seq (wrap64 (i + k))) V' (kmer_at seq V i)
  = kmer_at seq V (i + 1).
Proof.
  intros Hk Hi Hlen Hmax Hsame. unfold roll_to_next_kmer, kmer_at.
  cbn [kmer idx annotate]. rewrite !wrap64_small by lia.
  rewrite kmer_of_next by assumption. now apply annotate_classes.
Qed.

Lemma pending_shift seq V on start i n :
  pending seq V on start i (S n)
  = pending seq V (if unipath_starts_at seq V i then true else on)
      (if unipath_starts_at seq V i then kmer_at seq V i else start) (i + 1) n.
Proof. cbn [pending]. now destruct (unipath_starts_at seq V i). Qed.

Lemma pending_last seq V on start i n :
  pending seq V on start i (S n)
  = (if unipath_starts_at seq V (i + Z.of_nat n)
     then (true, kmer_at seq V (i + Z.of_nat n))
     else pending seq V on start i n).
Proof.
  revert on start i. induction n as [|n IH]; intros on start i.
  - cbn [pending Z.of_nat]. now rewrite Z.add_0_r.
  - rewrite pending_shift, IH.
    replace (i + 1 + Z.of_nat n) with (i + Z.of_nat (S n)) by lia.
    destruct (unipath_starts_at seq V (i + Z.of_nat (S n))); [reflexivity|].
    now rewrite <- pending_shift.
Qed.

(** One turn of the loop, on the k-mers of the sequence. *)
Lemma walk_loop_step (fuel : nat) (t : nat) (seq : text) (seq_len right_end : Z)
    (w : Walk) (st : CdBG) :
  1 <= k -> seq_len <= Z.of_nat (length seq) -> seq_len < 2 ^ 64 ->
  1 <= kmer_idx w -> kmer_idx w + k <= seq_len ->
  walk_holds seq (Vertices st) w ->
  on_unipath w = true \/ kmer_idx w <= right_end ->
  walk_loop (S fuel) t seq seq_len right_end w st
  = let V := Vertices st in
    let i := kmer_idx w in
    let p := pending seq V (on_unipath w) (unipath_start_kmer w) i 1 in
    if no_right_neighbor seq seq_len i
    then Some ({| kmer_idx := i; on_unipath := false; unipath_start_kmer := p.2;
                  prev_kmer := kmer_at seq V (i - 1); curr_kmer := kmer_at seq V i;
                  next_kmer := kmer_at seq V i |},
               if p.1 then output_unitig_gfa t seq p.2 (kmer_at seq V i) st else st)
    else if p.1 && ends_at (kmer_at seq V i) (kmer_at seq V (i + 1))
    then walk_loop fuel t seq seq_len right_end (walk_at seq V (i + 1) false p.2)
           (output_unitig_gfa t seq p.2 (kmer_at seq V i) st)
    else walk_loop fuel t seq seq_len right_end (walk_at seq V (i + 1) p.1 p.2) st.
Proof.
  intros Hk Hlen Hmax Hi Hle [Hc Hn] Hgo. cbv zeta. cbn [walk_loop pending].
  assert (Htest : on_unipath w || (kmer_idx w <=? right_end) = true).
  { destruct Hgo as [->|Hin]; [reflexivity|].
    apply Z.leb_le in Hin. rewrite Hin. apply orb_true_r. }
  rewrite Htest. unfold walk_body, unipath_starts_at. rewrite Hc, Hn.
  set (V := Vertices st). set (i := kmer_idx w).
  set (s := starts_at (kmer_at seq V i) (kmer_at seq V (i - 1))).
  assert (Ewalk : forall on start,
            advance {| kmer_idx := i; on_unipath := on; unipath_start_kmer := start;
                       prev_kmer := kmer_at seq V (i - 1);
                       curr_kmer := kmer_at seq V i;
                       next_kmer := kmer_at seq V (i + 1) |}
            = walk_at seq V (i + 1) on start).
  { intros on start. unfold advance, walk_at.
    cbn [kmer_idx on_unipath unipath_start_kmer prev_kmer curr_kmer next_kmer].
    rewrite wrap64_small by (unfold i; lia).
    replace (i + 1 - 2) with (i - 1) by lia. replace (i + 1 - 1) with i by lia.
    reflexivity. }
  destruct (no_right_neighbor seq seq_len i) eqn:Hright.
  { destruct s; reflexivity. }
  assert (Hlt : i + k < seq_len)
    by (apply (no_right_neighbor_false seq); [unfold i; lia ..|exact Hright]).
  rewrite (roll_to_kmer_at seq V V) by (auto; unfold i in *; lia).
  destruct s; cbn [fst snd];
    destruct (_ && _); rewrite Ewalk; reflexivity.
Qed.

(** The walker from the k-mer of index [kmer_idx w] to the first k-mer
    at which something happens: the run ends, or the unipath that is
    pending there ends. [N] k-mers come before it. *)
Lemma walk_loop_event (t : nat) (seq : text) (seq_len right_end : Z) :
  1 <= k -> seq_len <= Z.of_nat (length seq) -> seq_len < 2 ^ 64 ->
  forall (N fuel : nat) (w : Walk) (st : CdBG),
    1 <= kmer_idx w -> kmer_idx w + Z.of_nat N + k <= seq_len ->
    walk_holds seq (Vertices st) w -> (N < fuel)%nat ->
    (forall n, (n < N)%nat ->
       no_right_neighbor seq seq_len (kmer_idx w + Z.of_nat n) = false
       /\ ((pending seq (Vertices st) (on_unipath w) (unipath_start_kmer w)
              (kmer_idx w) (S n)).1 = true ->
           ends_at (kmer_at seq (Vertices st) (kmer_idx w + Z.of_nat n))
             (kmer_at seq (Vertices st) (kmer_idx w + Z.of_nat n + 1)) = false)) ->
    (forall n, (n <= N)%nat ->
       (pending seq (Vertices st) (on_unipath w) (unipath_start_kmer w)
          (kmer_idx w) n).1 = true
       \/ kmer_idx w + Z.of_nat n <= right_end) ->
    (no_right_neighbor seq seq_len (kmer_idx w + Z.of_nat N) = true
     \/ ((pending seq (Vertices st) (on_unipath w) (unipath_start_kmer w)
            (kmer_idx w) (S N)).1 = true
         /\ ends_at (kmer_at seq (Vertices st) (kmer_idx w + Z.of_nat N))
              (kmer_at seq (Vertices st) (kmer_idx w + Z.of_nat N + 1)) = true)) ->
    walk_loop fuel t seq seq_len right_end w st
    = let V := Vertices st in
      let j := kmer_idx w + Z.of_nat N in
      let p := pending seq V (on_unipath w) (unipath_start_kmer w) (kmer_idx w) (S N) in
      let st1 := if p.1 then output_unitig_gfa t seq p.2 (kmer_at seq V j) st else st in
      if no_right_neighbor seq seq_len j
      then Some ({| kmer_idx := j; on_unipath := false; unipath_start_kmer := p.2;
                    prev_kmer := kmer_at seq V (j - 1); curr_kmer := kmer_at seq V j;
                    next_kmer := kmer_at seq V j |}, st1)
      else walk_loop (fuel - S N) t seq seq_len right_end
             (walk_at seq V (j + 1) false p.2) st1.
Proof.
  intros Hk Hlen Hmax. induction N as [|N IH]; intros fuel w st Hi Hj Hholds Hfuel
    Hquiet Hloop Hevent; (destruct fuel as [|fuel]; [lia|]).
  - (* the event is at the k-mer of the walker *)
    cbn [Z.of_nat] in *. rewrite Z.add_0_r in *.
    rewrite walk_loop_step; try assumption; try lia.
    2: { destruct (Hloop 0%nat ltac:(lia)) as [H|H]; [now left|right].
         cbn [Z.of_nat] in H. lia. }
    cbv zeta. replace (S fuel - 1)%nat with fuel by lia.
    destruct (no_right_neighbor seq seq_len (kmer_idx w)); [reflexivity|].
    destruct Hevent as [?|[-> ->]]; [discriminate|]. reflexivity.
  - (* nothing happens at the k-mer of the walker *)
    destruct (Hquiet 0%nat ltac:(lia)) as [Hright Hends].
    cbn [Z.of_nat] in Hright, Hends. rewrite Z.add_0_r in Hright, Hends.
    rewrite walk_loop_step; try assumption; try lia.
    2: { destruct (Hloop 0%nat ltac:(lia)) as [H|H]; [now left|right].
         cbn [Z.of_nat] in H. lia. }
    cbv zeta. rewrite Hright.
    set (p1 := pending seq (Vertices st) (on_unipath w) (unipath_start_kmer w)
                 (kmer_idx w) 1) in *.
    assert (Hshift : forall n,
              pending seq (Vertices st) (on_unipath w) (unipath_start_kmer w)
                (kmer_idx w) (S n)
              = pending seq (Vertices st) p1.1 p1.2 (kmer_idx w + 1) n).
    { intros n. rewrite pending_shift. unfold p1. cbn [pending].
      now destruct (unipath_starts_at _ _ _). }
    assert (Hno : p1.1 && ends_at (kmer_at seq (Vertices st) (kmer_idx w))
                            (kmer_at seq (Vertices st) (kmer_idx w + 1)) = false).
    { destruct p1.1; [|reflexivity]. cbn [andb]. now apply Hends. }
    rewrite Hno.
    rewrite (IH fuel (walk_at seq (Vertices st) (kmer_idx w + 1) p1.1 p1.2) st);
      cbn [walk_at kmer_idx on_unipath unipath_start_kmer].
    + cbv zeta. rewrite <- !Hshift.
      replace (kmer_idx w + 1 + Z.of_nat N) with (kmer_idx w + Z.of_nat (S N)) by lia.
      replace (S fuel - S (S N))%nat with (fuel - S N)%nat by lia.
      reflexivity.
    + lia.
    + lia.
    + split; cbn [curr_kmer next_kmer kmer_idx]; f_equal; lia.
    + lia.
    + intros n Hn. rewrite <- Hshift.
      replace (kmer_idx w + 1 + Z.of_nat n) with (kmer_idx w + Z.of_nat (S n)) by lia.
      apply Hquiet. lia.
    + intros n Hn. rewrite <- Hshift.
      replace (kmer_idx w + 1 + Z.of_nat n) with (kmer_idx w + Z.of_nat (S n)) by lia.
      apply Hloop. lia.
    + rewrite <- Hshift.
      replace (kmer_idx w + 1 + Z.of_nat N) with (kmer_idx w + Z.of_nat (S N)) by lia.
      exact Hevent.
Qed.

(** The walker that has nothing pending and finds no start of a unipath
    up to [right_end] emits nothing and stops after [right_end]. *)
Lemma walk_loop_idle (t : nat) (seq : text) (seq_len right_end : Z) :
  1 <= k -> seq_len <= Z.of_nat (length seq) -> seq_len < 2 ^ 64 ->
  forall (N fuel : nat) (w : Walk) (st : CdBG),
    1 <= kmer_idx w -> kmer_idx w + Z.of_nat N + k <= seq_len ->
    walk_holds seq (Vertices st) w -> (N < fuel)%nat ->
    on_unipath w = false ->
    (forall n, (n < N)%nat ->
       no_right_neighbor seq seq_len (kmer_idx w + Z.of_nat n) = false
       /\ unipath_starts_at seq (Vertices st) (kmer_idx w + Z.of_nat n) = false
       /\ kmer_idx w + Z.of_nat n <= right_end) ->
    right_end < kmer_idx w + Z.of_nat N ->
    exists w' : Walk,
      walk_loop fuel t seq seq_len right_end w st = Some (w', st)
      /\ kmer_idx w' = kmer_idx w + Z.of_nat N
      /\ on_unipath w' = false.
Proof.
  intros Hk Hlen Hmax. induction N as [|N IH]; intros fuel w st Hi Hj Hholds Hfuel
    Hoff Hquiet Hpast; (destruct fuel as [|fuel]; [lia|]).
  - cbn [Z.of_nat] in *. rewrite Z.add_0_r in *. cbn [walk_loop]. rewrite Hoff.
    destruct (Z.leb_spec (kmer_idx w) right_end) as [Hin|_]; [lia|].
    exists w. cbn [orb]. split; [reflexivity|]. split; [lia|exact Hoff].
  - destruct (Hquiet 0%nat ltac:(lia)) as (Hright & Hstart & Hin).
    cbn [Z.of_nat] in Hright, Hstart, Hin. rewrite Z.add_0_r in Hright, Hstart, Hin.
    rewrite walk_loop_step; try assumption; try lia.
    cbv zeta. cbn [pending]. rewrite Hright, Hstart, Hoff. cbn [fst snd andb].
    set (w1 := walk_at seq (Vertices st) (kmer_idx w + 1) false (unipath_start_kmer w)).
    assert (Hholds1 : walk_holds seq (Vertices st) w1).
    { split; cbn [w1 walk_at curr_kmer next_kmer kmer_idx]; f_equal; lia. }
    assert (Hidx1 : kmer_idx w1 = kmer_idx w + 1) by reflexivity.
    destruct (IH fuel w1 st) as (w' & Hloop & Hidx & Hoff');
      [lia|lia|exact Hholds1|lia|reflexivity| |lia|].
    + intros n Hn. rewrite Hidx1.
      replace (kmer_idx w + 1 + Z.of_nat n) with (kmer_idx w + Z.of_nat (S n)) by lia.
      apply Hquiet. lia.
    + exists w'. split; [exact Hloop|]. split; [lia|exact Hoff'].
Qed.

(** C3: the loop of the walker goes on while [on_unipath] holds or
    [kmer_idx <= right_end]. It ends, with no unipath pending, either at the
    k-mer that has no valid right neighbour (a placeholder or the end of the
    sequence follows it) or past [right_end], and with none pending past
    [right_end] it stops at once. The function then returns [kmer_idx + k].

    What it emits is told by the k-mers of the sequence. Let the k-mer [j],
    [N] k-mers after that of the walker, be the first at which something
    happens: the run ends there (no valid right neighbour), or a unipath
    is pending and ends there ([is_unipath_end] with the next k-mer); up to
    it the loop goes on, which past [right_end] takes a pending unipath.
    Then nothing is emitted before [j]; at [j] the pending unipath is
    emitted, from its start (that of the walker, or the last k-mer since
    at which [is_unipath_start] held) to the k-mer [j], be [j] before or
    after [right_end]; when the run ends at [j] the loop returns there, and
    otherwise it goes on from [j + 1] with nothing pending, so that it stops
    there when [j] is at or past [right_end]. A walker with nothing pending
    that finds no start of a unipath up to [right_end] emits nothing. *)
Theorem walker_overshoot (fuel : nat) (thread_id : nat) (seq : text)
    (seq_len right_end : Z) (w : Walk) (st : CdBG) :
  1 <= k -> 0 <= kmer_idx w -> kmer_idx w + k <= seq_len -> seq_len < 2 ^ 64 ->
  seq_len - k - kmer_idx w < Z.of_nat fuel ->
  exists (w' : Walk) (st' : CdBG),
    walk_loop fuel thread_id seq seq_len right_end w st = Some (w', st')
    /\ on_unipath w' = false
    /\ kmer_idx w <= kmer_idx w' /\ kmer_idx w' + k <= seq_len
    /\ (forall i, kmer_idx w <= i < kmer_idx w' ->
        no_right_neighbor seq seq_len i = false)
    /\ (right_end < kmer_idx w' \/ no_right_neighbor seq seq_len (kmer_idx w') = true)
    /\ (on_unipath w = false -> right_end < kmer_idx w -> w' = w /\ st' = st)
    /\ (seq_len <= Z.of_nat (length seq) -> 1 <= kmer_idx w ->
        walk_holds seq (Vertices st) w ->
        forall N : nat,
          let V := Vertices st in
          let j := kmer_idx w + Z.of_nat N in
          let p := pending seq V (on_unipath w) (unipath_start_kmer w) (kmer_idx w) in
          j + k <= seq_len ->
          (forall n, (n < N)%nat ->
             no_right_neighbor seq seq_len (kmer_idx w + Z.of_nat n) = false
             /\ ((p (S n)).1 = true ->
                 ends_at (kmer_at seq V (kmer_idx w + Z.of_nat n))
                   (kmer_at seq V (kmer_idx w + Z.of_nat n + 1)) = false)) ->
          (forall n, (n <= N)%nat ->
             (p n).1 = true \/ kmer_idx w + Z.of_nat n <= right_end) ->
          (no_right_neighbor seq seq_len j = true
           \/ ((p (S N)).1 = true
               /\ ends_at (kmer_at seq V j) (kmer_at seq V (j + 1)) = true)) ->
          let st1 :=
            if (p (S N)).1
            then output_unitig_gfa thread_id seq (p (S N)).2 (kmer_at seq V j) st
            else st in
          (no_right_neighbor seq seq_len j = true -> st' = st1 /\ kmer_idx w' = j)
          /\ (no_right_neighbor seq seq_len j = false ->
              walk_loop fuel thread_id seq seq_len right_end w st
              = walk_loop (fuel - S N) thread_id seq seq_len right_end
                  (walk_at seq V (j + 1) false (p (S N)).2) st1
              /\ walk_holds seq (Vertices st1) (walk_at seq V (j + 1) false (p (S N)).2)
              /\ (right_end <= j -> st' = st1 /\ kmer_idx w' = j + 1)))
    /\ (seq_len <= Z.of_nat (length seq) -> 1 <= kmer_idx w ->
        walk_holds seq (Vertices st) w -> on_unipath w = false ->
        forall N : nat,
          kmer_idx w + Z.of_nat N + k <= seq_len ->
          (forall n, (n < N)%nat ->
             no_right_neighbor seq seq_len (kmer_idx w + Z.of_nat n) = false
             /\ unipath_starts_at seq (Vertices st) (kmer_idx w + Z.of_nat n) = false
             /\ kmer_idx w + Z.of_nat n <= right_end) ->
          right_end < kmer_idx w + Z.of_nat N ->
          st' = st /\ kmer_idx w' = kmer_idx w + Z.of_nat N)
    /\ (forall (start_idx : Z) (st0 : CdBG),
          no_right_neighbor seq seq_len start_idx = false ->
          walk_init thread_id seq start_idx
            (annotate (kmer_of seq start_idx) start_idx (Vertices st0)) st0 = (w, st) ->
          output_maximal_unitigs_gfa_thread fuel thread_id seq seq_len right_end
            start_idx st0
          = Some (kmer_idx w' + k, st')
          /\ (seq_len <= Z.of_nat (length seq) ->
              0 <= start_idx -> start_idx + k <= seq_len ->
              kmer_idx w = start_idx + 1 /\ walk_holds seq (Vertices st) w)).
Proof.
  intros Hk Hi Hle Hmax Hfuel.
  destruct (walk_loop_spec fuel thread_id seq seq_len right_end w st Hk Hi Hle Hmax Hfuel)
    as (w' & st' & Hloop & Hoff & Hge & Hle' & Hall & Hexit & _).
  exists w', st'. do 6 (split; [assumption|]). split; [|split; [|split]].
  - intros Hoff' Hpast. destruct fuel as [|fuel]; [lia|].
    cbn [walk_loop] in Hloop. rewrite Hoff' in Hloop. cbn [orb] in Hloop.
    destruct (Z.leb_spec (kmer_idx w) right_end) as [Hin|_]; [lia|].
    injection Hloop as <- <-. split; reflexivity.
  - intros Hlen Hi1 Hholds N V j p Hj Hquiet Hgo Hevent st1.
    assert (HN : (N < fuel)%nat) by (unfold j in Hj; lia).
    pose proof (walk_loop_event thread_id seq seq_len right_end Hk Hlen Hmax N fuel w st
                  Hi1 Hj Hholds HN Hquiet Hgo Hevent) as Hrun.
    cbv zeta in Hrun. fold V j in Hrun. fold p in Hrun. fold st1 in Hrun.
    split.
    + intros Hright. rewrite Hright, Hloop in Hrun. injection Hrun as -> ->.
      split; reflexivity.
    + intros Hright. rewrite Hright in Hrun. split; [exact Hrun|]. split.
      * assert (Hsame : forall i, kmer_at seq (Vertices st1) i = kmer_at seq V i).
        { intros i. unfold st1. destruct (p (S N)).1; [|reflexivity].
          apply kmer_at_emitted. }
        split; cbn [walk_at curr_kmer next_kmer kmer_idx]; now rewrite Hsame.
      * intros Hcross. rewrite Hloop in Hrun.
        assert (Hlt : j + k < seq_len)
          by (apply (no_right_neighbor_false seq); [unfold j; lia ..|exact Hright]).
        destruct (fuel - S N)%nat as [|fuel'] eqn:Ef; [unfold j in Hlt; lia|].
        cbn [walk_loop walk_at on_unipath kmer_idx orb] in Hrun.
        destruct (Z.leb_spec (j + 1) right_end) as [Hin|_]; [lia|].
        injection Hrun as -> ->. split; reflexivity.
  - intros Hlen Hi1 Hholds Hoff' N Hj Hquiet Hpast.
    assert (HN : (N < fuel)%nat) by lia.
    destruct (walk_loop_idle thread_id seq seq_len right_end Hk Hlen Hmax N fuel w st
                Hi1 Hj Hholds HN Hoff' Hquiet Hpast) as (w1 & Hrun & Hidx & _).
    rewrite Hloop in Hrun. injection Hrun as -> ->. split; [reflexivity|exact Hidx].
  - intros start_idx st0 Hright Hinit. split.
    + unfold output_maximal_unitigs_gfa_thread.
      rewrite Hright, andb_false_r, Hinit, Hloop, wrap64_small by lia. reflexivity.
    + intros Hlen Hstart Hstart'. unfold walk_init in Hinit.
      fold (kmer_at seq (Vertices st0) start_idx) in Hinit.
      assert (Hidx : kmer_idx w = wrap64 (start_idx + 1))
        by (destruct (_ && _); injection Hinit as <- _; reflexivity).
      rewrite wrap64_small in Hidx by lia. split; [exact Hidx|].
      assert (Hlt : start_idx + k < seq_len) by lia.
      assert (Hsame : forall i, kmer_at seq (Vertices st) i = kmer_at seq (Vertices st0) i).
      { intros i. destruct (_ && _); injection Hinit as _ <-; [|reflexivity].
        apply kmer_at_emitted. }
      split; rewrite Hsame, Hidx.
      * replace (start_idx + 1 - 1) with start_idx by lia.
        destruct (_ && _); injection Hinit as <- _; reflexivity.
      * rewrite <- (roll_to_kmer_at seq (Vertices st0) (Vertices st0) start_idx)
          by (auto; lia).
        destruct (_ && _); injection Hinit as <- _; reflexivity.
Qed.

(** ** The path record *)

Lemma spool_write_is_Some t x streams (files : gmap nat (list ascii)) t' :
  is_Some (files !! t') -> is_Some (spool_write t x streams files !! t').
Proof.
  intros Hsome. unfold spool_write.
  destruct (streams !! t) as [[|]|]; try exact Hsome.
  rewrite lookup_alter. destruct (decide (t = t')) as [->|_]; [|exact Hsome].
  now apply fmap_is_Some.
Qed.

Lemma append_link_to_path_ready T st t u v :
  spools_ready T st -> spools_ready T (append_link_to_path t u v st).
Proof.
  intros (Hp & Ho & Hfiles). split; [exact Hp|]. split; [exact Ho|].
  intros t' Ht'. destruct (Hfiles t' Ht') as [H1 H2].
  unfold append_link_to_path. cbn [path_file overlap_file set_files].
  split; now apply spool_write_is_Some.
Qed.

Lemma write_gfa_link_ready T st t u v :
  spools_ready T st -> spools_ready T (write_gfa_link t u v st).
Proof.
  unfold spools_ready.
  destruct (write_gfa_link_frame st t u v)
    as (_ & _ & _ & _ & -> & -> & -> & -> & _). auto.
Qed.

Lemma write_gfa_segment_ready T st t seq name s e d :
  spools_ready T st -> spools_ready T (write_gfa_segment t seq name s e d st).
Proof.
  unfold spools_ready.
  destruct (write_gfa_segment_frame st t seq name s e d)
    as (_ & _ & _ & _ & -> & -> & -> & -> & _). auto.
Qed.

Lemma record_unitig_ready T st t u :
  spools_ready T st -> spools_ready T (record_unitig t u st).
Proof.
  intros Hready. unfold record_unitig.
  assert (H1 : spools_ready T (note_first_second t u st)).
  { unfold spools_ready.
    destruct (note_first_second_frame st t u) as (_ & _ & -> & -> & -> & -> & _).
    exact Hready. }
  assert (H2 : spools_ready T (link_previous t u (note_first_second t u st))).
  { unfold link_previous. destruct (slot _ t) as [p|]; [|exact H1].
    now apply append_link_to_path_ready, write_gfa_link_ready. }
  exact H2.
Qed.

Lemma output_unitig_gfa_ready T st t seq s e :
  spools_ready T st -> spools_ready T (output_unitig_gfa t seq s e st).
Proof.
  intros Hready. unfold output_unitig_gfa, output_unitig_gfa_entry.
  destruct (try_mark_outputted _ _) as [[|] V']; apply record_unitig_ready;
    [apply write_gfa_segment_ready|]; exact Hready.
Qed.

Lemma step_ready T m events m' :
  step m events m' -> spools_ready T (shared m) -> spools_ready T (shared m').
Proof.
  intros Hstep Hready. destruct Hstep; cbn [shared]; try exact Hready.
  - now apply write_gfa_segment_ready.
  - now apply record_unitig_ready.
Qed.

Lemma steps_ready T m0 trace m :
  steps m0 trace m -> spools_ready T (shared m0) -> spools_ready T (shared m).
Proof.
  induction 1 as [|m1 trace m2 events m3 _ IH Hstep]; intros Hready; [exact Hready|].
  eapply step_ready; [exact Hstep|]. now apply IH.
Qed.

Lemma output_unitig_gfa_witnesses st t seq s e :
  let u := current_unitig_of s e in
  first_unitig (output_unitig_gfa t seq s e st)
  = (if negb (is_valid (slot (first_unitig st) t))
     then <[t := Some u]> (first_unitig st) else first_unitig st)
  /\ second_unitig (output_unitig_gfa t seq s e st)
     = (if negb (is_valid (slot (first_unitig st) t)) then second_unitig st
        else if negb (is_valid (slot (second_unitig st) t))
        then <[t := Some u]> (second_unitig st) else second_unitig st)
  /\ last_unitig (output_unitig_gfa t seq s e st) = <[t := Some u]> (last_unitig st).
Proof.
  intros u. unfold output_unitig_gfa, output_unitig_gfa_entry. fold u.
  destruct (try_mark_outputted _ _) as [[|] V'].
  - match goal with
    | |- context [record_unitig t u ?st2] =>
        destruct (record_unitig_witnesses st2 t u) as (-> & -> & ->)
    end.
    match goal with
    | |- context [write_gfa_segment t seq ?n ?a ?b ?d ?st1] =>
        destruct (write_gfa_segment_frame st1 t seq n a b d) as (_ & -> & -> & -> & _)
    end.
    repeat split; reflexivity.
  - match goal with
    | |- context [record_unitig t u ?st2] =>
        destruct (record_unitig_witnesses st2 t u) as (-> & -> & ->)
    end.
    repeat split; reflexivity.
Qed.

Lemma output_unitig_gfa_consistent st t seq s e :
  witnesses_consistent st -> witnesses_consistent (output_unitig_gfa t seq s e st).
Proof.
  intros Hinv. unfold output_unitig_gfa, output_unitig_gfa_entry.
  destruct (try_mark_outputted _ _) as [[|] V']; apply record_unitig_consistent;
    [|exact Hinv].
  unfold witnesses_consistent.
  match goal with
  | |- context [write_gfa_segment t seq ?n ?a ?b ?d ?st1] =>
      destruct (write_gfa_segment_frame st1 t seq n a b d) as (_ & -> & -> & -> & _)
  end.
  exact Hinv.
Qed.

Lemma emit_all_ready T st calls :
  spools_ready T st -> spools_ready T (foldl emit st calls).
Proof.
  revert st. induction calls as [|c calls IH]; intros st Hready; [exact Hready|].
  cbn [foldl]. apply IH. now apply output_unitig_gfa_ready.
Qed.

Lemma emit_all_consistent st calls :
  witnesses_consistent st -> witnesses_consistent (foldl emit st calls).
Proof.
  revert st. induction calls as [|c calls IH]; intros st Hinv; [exact Hinv|].
  cbn [foldl]. apply IH. now apply output_unitig_gfa_consistent.
Qed.

Lemma emit_first_length st c :
  length (first_unitig (emit st c)) = length (first_unitig st).
Proof.
  unfold emit.
  destruct (output_unitig_gfa_witnesses st (call_thread c) (call_seq c)
              (call_start c) (call_end c)) as (-> & _).
  destruct (negb _); [apply length_insert|reflexivity].
Qed.

Lemma emit_first_valid st c t :
  is_valid (slot (first_unitig st) t) = true
  \/ (t = call_thread c /\ (t < length (first_unitig st))%nat) ->
  is_valid (slot (first_unitig (emit st c)) t) = true.
Proof.
  intros Hcase. unfold emit.
  destruct (output_unitig_gfa_witnesses st (call_thread c) (call_seq c)
              (call_start c) (call_end c)) as (-> & _).
  destruct (is_valid (slot (first_unitig st) (call_thread c))) eqn:Hv; cbn [negb].
  - destruct Hcase as [Hold|[-> _]]; [exact Hold|exact Hv].
  - rewrite slot_insert.
    destruct (decide _) as [_|Hno]; [reflexivity|].
    destruct Hcase as [Hold|[-> Hlt]]; [exact Hold|]. exfalso. now apply Hno.
Qed.

Lemma emit_all_first_valid st calls t :
  is_valid (slot (first_unitig st) t) = true ->
  is_valid (slot (first_unitig (foldl emit st calls)) t) = true.
Proof.
  revert st. induction calls as [|c calls IH]; intros st Hv; [exact Hv|].
  cbn [foldl]. apply IH. apply emit_first_valid. now left.
Qed.

Lemma emit_all_some_first st calls c :
  In c calls ->
  (forall c', In c' calls -> (call_thread c' < length (first_unitig st))%nat) ->
  exists t, (t < length (first_unitig st))%nat
            /\ is_valid (slot (first_unitig (foldl emit st calls)) t) = true.
Proof.
  intros Hin Hlt. destruct calls as [|c0 calls]; [destruct Hin|].
  exists (call_thread c0). split; [apply Hlt; now left|].
  cbn [foldl]. apply emit_all_first_valid, emit_first_valid. right.
  split; [reflexivity|]. apply Hlt. now left.
Qed.

Lemma inter_thread_links_keep (P : CdBG -> Prop) :
  (forall st t u v, P st -> P (write_gfa_link t u v st)) ->
  (forall st t u v, P st -> P (append_link_to_path t u v st)) ->
  forall ts acc, P acc.1.1 -> P (foldl inter_thread_step acc ts).1.1.
Proof.
  intros Hlink Hpath. induction ts as [|t ts IH]; intros [[st l] lt] HP; [exact HP|].
  cbn [foldl]. apply IH. unfold inter_thread_step. cbn [fst] in *.
  destruct l as [l|]; [|exact HP].
  destruct (slot (first_unitig st) t) as [r|]; [|exact HP].
  cbn [fst]. now apply Hpath, Hlink.
Qed.

Lemma write_inter_thread_links_ready T T' st :
  spools_ready T st -> spools_ready T (write_inter_thread_links T' st).
Proof.
  intros Hready. unfold write_inter_thread_links.
  apply (inter_thread_links_keep (spools_ready T)); [| |exact Hready].
  - intros. now apply write_gfa_link_ready.
  - intros. now apply append_link_to_path_ready.
Qed.

Lemma write_inter_thread_links_witnesses T st :
  first_unitig (write_inter_thread_links T st) = first_unitig st
  /\ second_unitig (write_inter_thread_links T st) = second_unitig st
  /\ last_unitig (write_inter_thread_links T st) = last_unitig st
  /\ seq_count (write_inter_thread_links T st) = seq_count st.
Proof.
  unfold write_inter_thread_links.
  apply (inter_thread_links_keep
           (fun st' => first_unitig st' = first_unitig st
                       /\ second_unitig st' = second_unitig st
                       /\ last_unitig st' = last_unitig st
                       /\ seq_count st' = seq_count st)).
  - intros st' t u v H1.
    destruct (write_gfa_link_frame st' t u v)
      as (_ & -> & -> & -> & _ & _ & _ & _ & -> & _). exact H1.
  - intros st' t u v H1. exact H1.
  - repeat split; reflexivity.
Qed.

Lemma no_stream_failed T st :
  spools_ready T st ->
  existsb (fun t_id => failed (path_output st) t_id || failed (overlap_output st) t_id)
    (seq 0 T) = false.
Proof.
  intros (Hp & Ho & _).
  destruct (existsb _ _) eqn:E; [|reflexivity].
  apply existsb_exists in E as (t & Hin & Hf). apply in_seq in Hin.
  unfold failed in Hf. rewrite Hp, Ho in Hf.
  rewrite !lookup_replicate_2 in Hf by lia. discriminate.
Qed.

Lemma read_spools_Some ts (files : gmap nat (list ascii)) :
  (forall t, In t ts -> is_Some (files !! t)) -> is_Some (read_spools ts files).
Proof.
  induction ts as [|t ts IH]; intros Hall; [now eexists|].
  cbn [read_spools]. destruct (Hall t (or_introl eq_refl)) as [c ->].
  destruct IH as [rest ->]; [|now eexists].
  intros t' Hin. apply Hall. now right.
Qed.

Lemma search_first_link_loop_left ts st l r :
  (forall t, is_valid (slot (second_unitig st) t) = true ->
             is_valid (slot (first_unitig st) t) = true) ->
  is_valid (search_first_link_loop ts st l r).1
  = is_valid l || existsb (fun t => is_valid (slot (first_unitig st) t)) ts.
Proof.
  intros Hsf. revert l r.
  induction ts as [|t ts IH]; intros l r; cbn [search_first_link_loop existsb].
  - now rewrite orb_false_r.
  - destruct (is_valid (slot (first_unitig st) t)) eqn:Hf.
    + destruct (is_valid l) eqn:Hl; cbn [negb fst orb]; [exact Hl|].
      destruct (is_valid (slot (second_unitig st) t)); cbn [fst]; [exact Hf|].
      rewrite IH, Hf. reflexivity.
    + destruct (is_valid (slot (second_unitig st) t)) eqn:Hs.
      * apply Hsf in Hs. congruence.
      * rewrite IH. reflexivity.
Qed.

Lemma first_valid_exists T st :
  existsb (fun t => is_valid (slot (first_unitig st) t)) (seq 0 T) = true
  <-> exists t, (t < T)%nat /\ is_valid (slot (first_unitig st) t) = true.
Proof.
  rewrite existsb_exists. split.
  - intros (t & Hin & Hv). apply in_seq in Hin. exists t. split; [lia|exact Hv].
  - intros (t & Hlt & Hv). exists t. split; [apply in_seq; lia|exact Hv].
Qed.

(** *** Texts without a line break *)

Lemma newline_free_app (a b : list ascii) :
  newline_free (a ++ b) <-> newline_free a /\ newline_free b.
Proof. unfold newline_free. rewrite in_app_iff. tauto. Qed.

Lemma newline_free_nil : newline_free [].
Proof. intros []. Qed.

Lemma newline_free_uint (d : Decimal.uint) :
  newline_free (list_ascii_of_string (NilEmpty.string_of_uint d)).
Proof.
  induction d; cbn [NilEmpty.string_of_uint list_ascii_of_string];
    [apply newline_free_nil|intros [H|H]; [discriminate|now apply IHd] ..].
Qed.

Lemma newline_free_zero_uint (d : Decimal.uint) :
  newline_free (list_ascii_of_string (NilZero.string_of_uint d)).
Proof.
  unfold NilZero.string_of_uint. destruct d; try apply newline_free_uint.
  cbn. intros [H|[]]. discriminate.
Qed.

Lemma dec_newline_free (n : Z) : newline_free (dec n).
Proof. unfold dec, txt. apply newline_free_zero_uint. Qed.

Lemma dec_int_newline_free (n : Z) : newline_free (dec_int n).
Proof.
  unfold dec_int, txt, NilZero.string_of_int. destruct (Z.to_int n).
  - apply newline_free_zero_uint.
  - cbn [list_ascii_of_string]. intros [H|H]; [discriminate|].
    now apply newline_free_zero_uint in H.
Qed.

Lemma sign_newline_free (d : kmer_dir_t) : newline_free (sign d).
Proof. destruct d; cbn; intros [H|[]]; discriminate. Qed.

Lemma path_entry_newline_free (u : Oriented_Unitig) : newline_free (path_entry u).
Proof.
  unfold path_entry. rewrite !newline_free_app.
  split; [cbn; intros [H|[]]; discriminate|].
  split; [apply dec_newline_free|apply sign_newline_free].
Qed.

Lemma overlap_entry_newline_free (u v : Oriented_Unitig) :
  newline_free (overlap_entry u v).
Proof.
  unfold overlap_entry. rewrite !newline_free_app.
  split; [cbn; intros [H|[]]; discriminate|].
  split; [apply dec_int_newline_free|cbn; intros [H|[]]; discriminate].
Qed.

Lemma spool_write_clean t x streams (files : gmap nat (list ascii)) t' :
  newline_free x ->
  (forall c, files !! t' = Some c -> newline_free c) ->
  forall c, spool_write t x streams files !! t' = Some c -> newline_free c.
Proof.
  intros Hx Hfiles c. unfold spool_write.
  destruct (streams !! t) as [[|]|]; try apply Hfiles.
  rewrite lookup_alter. destruct (decide (t = t')) as [->|_]; [|apply Hfiles].
  destruct (files !! t') as [c0|] eqn:E; cbn [fmap option_fmap option_map]; [|discriminate].
  intros [= <-]. apply newline_free_app. split; [now apply Hfiles|exact Hx].
Qed.

Lemma append_link_to_path_clean T st t u v :
  spools_clean T st -> spools_clean T (append_link_to_path t u v st).
Proof.
  intros Hclean t' c Ht'. unfold append_link_to_path.
  cbn [path_file overlap_file set_files].
  intros [H|H]; revert H; apply spool_write_clean.
  - apply path_entry_newline_free.
  - intros c0 H0. apply (Hclean t'); [exact Ht'|now left].
  - apply overlap_entry_newline_free.
  - intros c0 H0. apply (Hclean t'); [exact Ht'|now right].
Qed.

Lemma write_gfa_link_clean T st t u v :
  spools_clean T st -> spools_clean T (write_gfa_link t u v st).
Proof.
  unfold spools_clean.
  destruct (write_gfa_link_frame st t u v)
    as (_ & _ & _ & _ & _ & _ & -> & -> & _). auto.
Qed.

Lemma write_gfa_segment_clean T st t seq name s e d :
  spools_clean T st -> spools_clean T (write_gfa_segment t seq name s e d st).
Proof.
  unfold spools_clean.
  destruct (write_gfa_segment_frame st t seq name s e d)
    as (_ & _ & _ & _ & _ & _ & -> & -> & _). auto.
Qed.

Lemma record_unitig_clean T st t u :
  spools_clean T st -> spools_clean T (record_unitig t u st).
Proof.
  intros Hclean. unfold record_unitig.
  assert (H1 : spools_clean T (note_first_second t u st)).
  { unfold spools_clean.
    destruct (note_first_second_frame st t u) as (_ & _ & _ & _ & -> & -> & _).
    exact Hclean. }
  assert (H2 : spools_clean T (link_previous t u (note_first_second t u st))).
  { unfold link_previous. destruct (slot _ t) as [p|]; [|exact H1].
    now apply append_link_to_path_clean, write_gfa_link_clean. }
  exact H2.
Qed.

Lemma output_unitig_gfa_clean T st t seq s e :
  spools_clean T st -> spools_clean T (output_unitig_gfa t seq s e st).
Proof.
  intros Hclean. unfold output_unitig_gfa, output_unitig_gfa_entry.
  destruct (try_mark_outputted _ _) as [[|] V']; apply record_unitig_clean;
    [apply write_gfa_segment_clean|]; exact Hclean.
Qed.

Lemma emit_all_clean T st calls :
  spools_clean T st -> spools_clean T (foldl emit st calls).
Proof.
  revert st. induction calls as [|c calls IH]; intros st Hclean; [exact Hclean|].
  cbn [foldl]. apply IH. now apply output_unitig_gfa_clean.
Qed.

Lemma step_clean T m events m' :
  step m events m' -> spools_clean T (shared m) -> spools_clean T (shared m').
Proof.
  intros Hstep Hclean. destruct Hstep; cbn [shared]; try exact Hclean.
  - now apply write_gfa_segment_clean.
  - now apply record_unitig_clean.
Qed.

Lemma steps_clean T m0 trace m :
  steps m0 trace m -> spools_clean T (shared m0) -> spools_clean T (shared m).
Proof.
  induction 1 as [|m1 trace m2 events m3 _ IH Hstep]; intros Hclean; [exact Hclean|].
  eapply step_clean; [exact Hstep|]. now apply IH.
Qed.

Lemma read_spools_clean ts (files : gmap nat (list ascii)) x :
  (forall t c, In t ts -> files !! t = Some c -> newline_free c) ->
  read_spools ts files = Some x -> newline_free x.
Proof.
  revert x. induction ts as [|t ts IH]; intros x Hfiles; cbn [read_spools].
  - intros [= <-]. apply newline_free_nil.
  - destruct (files !! t) as [c|] eqn:E; [|discriminate].
    destruct (read_spools ts files) as [rest|] eqn:Er; [|discriminate].
    intros [= <-]. apply newline_free_app. split.
    + apply (Hfiles t); [now left|exact E].
    + apply IH; [|reflexivity]. intros t' c' Hin. apply Hfiles. now right.
Qed.

(** What [write_gfa_path] does once nothing can abort it: the record it
    appends is one line. *)
Lemma write_gfa_path_spec T st :
  spools_ready T st -> spools_clean T st ->
  (forall t, is_valid (slot (second_unitig st) t) = true ->
             is_valid (slot (first_unitig st) t) = true) ->
  exists st',
    write_gfa_path T st = Done st'
    /\ ((exists t, (t < T)%nat /\ is_valid (slot (first_unitig st) t) = true) ->
        exists rest : text,
          st' = set_gfa_file
                  (gfa_file st
                     ++ [Direct (txt "P" ++ TAB ++ txt "P" ++ dec (seq_count st)
                                   ++ TAB ++ rest ++ NL)]) st
          /\ newline_free (txt "P" ++ TAB ++ txt "P" ++ dec (seq_count st)
                             ++ TAB ++ rest))
    /\ (~ (exists t, (t < T)%nat /\ is_valid (slot (first_unitig st) t) = true) ->
        st' = st).
Proof.
  intros Hready Hclean Hsf. unfold write_gfa_path.
  rewrite (no_stream_failed T st Hready).
  pose proof (search_first_link_loop_left (seq 0 T) st None None Hsf) as Hleft.
  unfold search_first_link.
  destruct (search_first_link_loop (seq 0 T) st None None) as [l r].
  cbn [fst is_valid orb] in Hleft.
  destruct Hready as (_ & _ & Hfiles).
  destruct l as [l|]; cbn [is_valid] in Hleft.
  - destruct (read_spools_Some (seq 0 T) (path_file st)) as [paths Hpa].
    { intros t Hin. apply in_seq in Hin. apply Hfiles. lia. }
    destruct (read_spools_Some (seq 0 T) (overlap_file st)) as [overlaps Hov].
    { intros t Hin. apply in_seq in Hin. apply Hfiles. lia. }
    assert (Hex : exists t, (t < T)%nat /\ is_valid (slot (first_unitig st) t) = true)
      by now apply first_valid_exists.
    assert (Hpaths : newline_free paths).
    { eapply read_spools_clean; [|exact Hpa].
      intros t c Hin Hc. apply in_seq in Hin. apply (Hclean t); [lia|now left]. }
    rewrite Hpa.
    assert (Hoverlaps : newline_free overlaps).
    { eapply read_spools_clean; [|exact Hov].
      intros t c Hin Hc. apply in_seq in Hin. apply (Hclean t); [lia|now right]. }
    assert (Hchar : forall c : ascii, c <> "010"%char -> newline_free [c]).
    { intros c Hc [H|[]]. congruence. }
    destruct r as [r|]; [rewrite Hov|]; eexists; (split; [reflexivity|]);
      (split; [intros _|intros Hno; now destruct Hno]); unfold path_line_head.
    + exists (dec (unitig_id l) ++ sign (unitig_dir l) ++ paths ++ TAB
                ++ dec (wrap16 (overlap_of l r)) ++ txt "M" ++ overlaps).
      split; [rewrite <- !app_assoc; reflexivity|].
      rewrite !newline_free_app.
      repeat split;
        auto using dec_newline_free, sign_newline_free;
        apply Hchar; discriminate.
    + exists (dec (unitig_id l) ++ sign (unitig_dir l) ++ paths ++ TAB ++ txt "*").
      split; [rewrite <- !app_assoc; reflexivity|].
      rewrite !newline_free_app.
      repeat split;
        auto using dec_newline_free, sign_newline_free;
        apply Hchar; discriminate.
  - exists st. split; [reflexivity|]. split; [|reflexivity].
    intros Hex. apply first_valid_exists in Hex. congruence.
Qed.

Lemma write_inter_thread_links_clean T st :
  spools_clean T st -> spools_clean T (write_inter_thread_links T st).
Proof.
  intros Hclean. unfold write_inter_thread_links.
  apply (inter_thread_links_keep (spools_clean T)); [| |exact Hclean].
  - intros. now apply write_gfa_link_clean.
  - intros. now apply append_link_to_path_clean.
Qed.

(** C8: for a sequence whose witnesses and path streams were reset (the
    spools of the threads holding no line break, as after their truncation
    by [reset_path_streams]), after the emission calls [calls] of the
    workers (and the stitching of the shards, when there were several),
    [write_gfa_path] appends exactly one
    P-record when the sequence yielded a unitig, which is when some thread
    has a valid first witness: what it appends is one line, which begins
    with [P], a tab and the name of the path. It writes nothing and returns
    when the sequence yielded no unitig. The same holds of the first
    witnesses however the steps of the emission calls interleave. *)
Theorem path_record_iff_unitig (thread_count : nat) (st : CdBG)
    (calls : list Call) (stitched : bool) :
  first_unitig st = replicate thread_count None ->
  second_unitig st = replicate thread_count None ->
  last_unitig st = replicate thread_count None ->
  spools_ready thread_count st ->
  spools_clean thread_count st ->
  (forall c, In c calls -> (call_thread c < thread_count)%nat) ->
  let st_w := foldl emit st calls in
  let st_l := if stitched then write_inter_thread_links thread_count st_w else st_w in
  exists st' : CdBG,
    write_gfa_path thread_count st_l = Done st'
    /\ (calls <> [] <->
        exists t, (t < thread_count)%nat
                  /\ is_valid (slot (first_unitig st_l) t) = true)
    /\ (calls <> [] ->
        exists rest : text,
          st' = set_gfa_file
                  (gfa_file st_l
                     ++ [Direct (txt "P" ++ TAB ++ txt "P" ++ dec (seq_count st_l)
                                   ++ TAB ++ rest ++ NL)]) st_l
          /\ newline_free (txt "P" ++ TAB ++ txt "P" ++ dec (seq_count st_l)
                             ++ TAB ++ rest))
    /\ (calls = [] -> st' = st_l)
    /\ (forall (workers0 : list Worker) (trace : list Event) (m : Machine),
          steps {| shared := st; workers := workers0 |} trace m ->
          let st_m :=
            if stitched then write_inter_thread_links thread_count (shared m)
            else shared m in
          exists st'' : CdBG,
            write_gfa_path thread_count st_m = Done st''
            /\ ((exists t, (t < thread_count)%nat
                           /\ is_valid (slot (first_unitig st_m) t) = true) ->
                exists rest : text,
                  st'' = set_gfa_file
                           (gfa_file st_m
                              ++ [Direct (txt "P" ++ TAB ++ txt "P"
                                            ++ dec (seq_count st_m)
                                            ++ TAB ++ rest ++ NL)]) st_m
                  /\ newline_free (txt "P" ++ TAB ++ txt "P" ++ dec (seq_count st_m)
                                     ++ TAB ++ rest))
            /\ (~ (exists t, (t < thread_count)%nat
                             /\ is_valid (slot (first_unitig st_m) t) = true) ->
                st'' = st_m)).
Proof.
  intros Hf Hs Hl Hready Hclean Hthreads st_w st_l.
  assert (Hcons : witnesses_consistent st_w).
  { apply emit_all_consistent. now apply (reset_consistent _ thread_count). }
  assert (Hready_w : spools_ready thread_count st_w) by now apply emit_all_ready.
  assert (Hclean_w : spools_clean thread_count st_w) by now apply emit_all_clean.
  assert (Hwit : first_unitig st_l = first_unitig st_w
                 /\ second_unitig st_l = second_unitig st_w).
  { unfold st_l. destruct stitched; [|split; reflexivity].
    destruct (write_inter_thread_links_witnesses thread_count st_w) as (-> & -> & _).
    split; reflexivity. }
  destruct Hwit as [Hfirst Hsecond].
  assert (Hready_l : spools_ready thread_count st_l).
  { unfold st_l. destruct stitched; [|exact Hready_w].
    now apply write_inter_thread_links_ready. }
  assert (Hclean_l : spools_clean thread_count st_l).
  { unfold st_l. destruct stitched; [|exact Hclean_w].
    now apply write_inter_thread_links_clean. }
  assert (Hsf : forall t, is_valid (slot (second_unitig st_l) t) = true ->
                          is_valid (slot (first_unitig st_l) t) = true).
  { intros t. rewrite Hfirst, Hsecond. apply Hcons. }
  assert (Hiff : calls <> [] <->
                 exists t, (t < thread_count)%nat
                           /\ is_valid (slot (first_unitig st_l) t) = true).
  { rewrite Hfirst. split.
    - intros Hne. destruct calls as [|c calls]; [congruence|].
      destruct (emit_all_some_first st (c :: calls) c) as (t & Hlt & Hv).
      + now left.
      + intros c' Hin. rewrite Hf, length_replicate. now apply Hthreads.
      + exists t. split; [|exact Hv]. now rewrite Hf, length_replicate in Hlt.
    - intros (t & _ & Hv) ->. unfold st_w in Hv. cbn [foldl] in Hv.
      rewrite Hf, slot_replicate_None in Hv. discriminate. }
  destruct (write_gfa_path_spec thread_count st_l Hready_l Hclean_l Hsf)
    as (st' & Hdone & Hsome & Hnone).
  exists st'. split; [exact Hdone|]. split; [exact Hiff|].
  split; [|split].
  - intros Hne. apply Hsome. now apply Hiff.
  - intros ->. apply Hnone. intros Hex. apply Hiff in Hex. congruence.
  - intros workers0 trace m Hsteps st_m.
    assert (Hcons_m : witnesses_consistent (shared m)).
    { apply (steps_consistent _ _ _ Hsteps). cbn [shared].
      now apply (reset_consistent _ thread_count). }
    assert (Hready_m : spools_ready thread_count (shared m))
      by (apply (steps_ready _ _ _ _ Hsteps); exact Hready).
    assert (Hclean_m : spools_clean thread_count (shared m))
      by (apply (steps_clean _ _ _ _ Hsteps); exact Hclean).
    apply write_gfa_path_spec.
    + unfold st_m. destruct stitched; [|exact Hready_m].
      now apply write_inter_thread_links_ready.
    + unfold st_m. destruct stitched; [|exact Hclean_m].
      now apply write_inter_thread_links_clean.
    + intros t. unfold st_m. destruct stitched; [|apply Hcons_m].
      destruct (write_inter_thread_links_witnesses thread_count (shared m))
        as (-> & -> & _).
      apply Hcons_m.
Qed.

(** ** The workers terminate *)

Section Keep.

Variable P : CdBG -> Prop.
Hypothesis P_emit :
  forall t seq s e st, P st -> P (output_unitig_gfa t seq s e st).

Lemma walk_loop_keep fuel t seq seq_len right_end w st w' st' :
  walk_loop fuel t seq seq_len right_end w st = Some (w', st') -> P st -> P st'.
Proof.
  revert w st. induction fuel as [|fuel IH]; intros w st Hloop HP; [discriminate|].
  cbn [walk_loop] in Hloop.
  destruct (on_unipath w || (kmer_idx w <=? right_end)); [|congruence].
  unfold walk_body in Hloop.
  destruct (no_right_neighbor seq seq_len (kmer_idx w)).
  - injection Hloop as <- <-. destruct (if starts_at _ _ then true else _); auto.
  - destruct (_ && _); eapply IH; try exact Hloop; auto.
Qed.

Lemma walker_total fuel t seq seq_len right_end start_idx st :
  1 <= k -> 0 <= start_idx -> start_idx + k <= seq_len -> seq_len < 2 ^ 64 ->
  seq_len - k - start_idx <= Z.of_nat fuel ->
  exists ret st',
    output_maximal_unitigs_gfa_thread fuel t seq seq_len right_end start_idx st
    = Some (ret, st')
    /\ start_idx + k <= ret <= seq_len
    /\ (P st -> P st').
Proof.
  intros Hk Hi Hle Hmax Hfuel. unfold output_maximal_unitigs_gfa_thread.
  destruct (no_right_neighbor seq seq_len start_idx) eqn:Hright.
  - rewrite andb_true_r.
    destruct (no_left_neighbor seq start_idx); eexists _, _;
      (split; [reflexivity|]); rewrite wrap64_small by lia; (split; [lia|]);
      [|destruct (starts_at _ _)]; auto.
  - rewrite andb_false_r.
    assert (Hlt : start_idx + k < seq_len)
      by (apply (no_right_neighbor_false seq); [lia ..|exact Hright]).
    destruct (walk_init t seq start_idx _ st) as [w st1] eqn:Hinit.
    assert (Hw : kmer_idx w = start_idx + 1 /\ (P st -> P st1)).
    { unfold walk_init in Hinit. destruct (_ && _); injection Hinit as <- <-;
        cbn [kmer_idx]; rewrite wrap64_small by lia; auto. }
    destruct Hw as [Hidx Hst1].
    destruct (walk_loop_spec fuel t seq seq_len right_end w st1)
      as (w' & st' & Hloop & _ & Hge & Hle' & _); try lia.
    rewrite Hloop. eexists _, _. split; [reflexivity|].
    rewrite wrap64_small by lia. split; [lia|].
    intros HP. eapply walk_loop_keep; [exact Hloop|]. auto.
Qed.

Lemma search_valid_kmer_from_range n seq i to :
  Z.of_nat n = to - i + 1 -> 0 <= i -> to + 1 < 2 ^ 64 ->
  i <= search_valid_kmer_from n seq i to <= to + 1.
Proof.
  revert i. induction n as [|n IH]; intros i Hn Hi Hmax; cbn [search_valid_kmer_from].
  - rewrite wrap64_small by lia. lia.
  - destruct (valid_kmer seq i); [lia|].
    rewrite wrap64_small by lia.
    specialize (IH (i + 1) ltac:(lia) ltac:(lia) Hmax). lia.
Qed.

Lemma search_valid_kmer_range seq from to :
  0 <= from <= to -> to + 1 < 2 ^ 64 ->
  from <= search_valid_kmer seq from to <= to + 1.
Proof.
  intros Hft Hmax. unfold search_valid_kmer.
  apply search_valid_kmer_from_range; lia.
Qed.

Lemma output_gfa_off_substring_loop_total fuel wfuel t seq seq_len right_end i st :
  1 <= k -> 0 <= i -> right_end + k <= seq_len -> seq_len < 2 ^ 64 ->
  0 < Z.of_nat fuel -> right_end - i + 1 < Z.of_nat fuel ->
  seq_len <= Z.of_nat wfuel ->
  exists st',
    output_gfa_off_substring_loop fuel wfuel t seq seq_len right_end i st = Some st'
    /\ (P st -> P st').
Proof.
  intros Hk. revert i st.
  induction fuel as [|fuel IH]; intros i st Hi Hre Hmax Hpos Hfuel Hwfuel; [lia|].
  cbn [output_gfa_off_substring_loop].
  destruct (Z.leb_spec i right_end) as [Hin|Hout]; [|now exists st].
  pose proof (search_valid_kmer_range seq i right_end ltac:(lia) ltac:(lia)) as Hs.
  destruct (Z.gtb_spec (search_valid_kmer seq i right_end) right_end) as [Hgt|Hle];
    [now exists st|].
  destruct (walker_total wfuel t seq seq_len right_end
              (search_valid_kmer seq i right_end) st)
    as (ret & st1 & -> & Hret & HP1); try lia.
  destruct (IH ret st1) as (st' & -> & HP'); try lia.
  exists st'. split; [reflexivity|]. auto.
Qed.

Lemma run_tasks_total fuel seq seq_len tasks st :
  1 <= k -> 0 <= seq_len < 2 ^ 64 -> seq_len < Z.of_nat fuel ->
  (forall task, In task tasks ->
     0 <= left_end task /\ right_end task + k <= seq_len) ->
  exists st', run_tasks fuel seq seq_len tasks st = Some st' /\ (P st -> P st').
Proof.
  intros Hk Hmax Hfuel. revert st.
  induction tasks as [|task tasks IH]; intros st Hall; [now exists st|].
  cbn [run_tasks]. unfold output_gfa_off_substring.
  destruct (Hall task (or_introl eq_refl)) as [Hl Hr].
  destruct (output_gfa_off_substring_loop_total fuel fuel (task_id task) seq seq_len
              (right_end task) (left_end task) st)
    as (st1 & -> & HP1); try lia.
  destruct (IH st1) as (st' & -> & HP'); [intros; apply Hall; now right|].
  exists st'. split; [reflexivity|]. auto.
Qed.

End Keep.

(** ** The driver *)

Lemma shard_tasks_in_range seq_len thread_count task :
  1 <= k <= seq_len -> seq_len < 2 ^ 64 ->
  In task (shard_tasks seq_len k thread_count) ->
  0 <= left_end task /\ right_end task + k <= seq_len.
Proof.
  intros Hk Hmax Hin. unfold shard_tasks, task_size_of in Hin.
  rewrite (wrap64_small (seq_len - k)) in Hin by lia.
  rewrite (wrap64_small (seq_len - k + 1)) in Hin by lia.
  set (count := seq_len - k + 1) in *.
  set (size := count / Z.of_nat thread_count) in *.
  destruct (Z.eqb_spec size 0) as [Hz|Hnz].
  - destruct Hin as [<-|[]]. cbn [left_end right_end]. lia.
  - assert (HT : (0 < thread_count)%nat).
    { destruct thread_count; [|lia]. unfold size in Hnz. cbn [Z.of_nat] in Hnz.
      rewrite Z.div_0_r in Hnz. lia. }
    assert (Hpos : 0 < size).
    { assert (0 <= size) by (apply Z.div_pos; unfold count; lia). lia. }
    assert (Hmul : Z.of_nat thread_count * size <= count) by (apply Z.mul_div_le; lia).
    apply list_elem_of_In, list_elem_of_lookup in Hin as [i Hi].
    assert (Hlt : (i < thread_count)%nat).
    { apply lookup_lt_Some in Hi. now rewrite spawn_tasks_length in Hi. }
    rewrite spawn_tasks_lookup in Hi by (unfold count in *; lia).
    injection Hi as <-. cbn [left_end right_end].
    clearbody size. unfold count in *. clear count.
    assert (Hi1 : Z.of_nat i * size + size <= Z.of_nat thread_count * size) by nia.
    assert (Hi0 : 0 <= Z.of_nat i * size) by nia.
    destruct (_ =? Z.of_nat thread_count - 1).
    + lia.
    + rewrite wrap64_small by lia. lia.
Qed.

Lemma create_files_is_Some ts (files : gmap nat (list ascii)) t :
  In t ts \/ is_Some (files !! t) ->
  is_Some (foldl (fun files t_id => <[t_id := []]> files) files ts !! t).
Proof.
  revert files. induction ts as [|a ts IH]; intros files Hcase; cbn [foldl].
  - destruct Hcase as [[]|Hsome]. exact Hsome.
  - apply IH. destruct (decide (a = t)) as [->|Hne].
    + right. rewrite lookup_insert_eq. now eexists.
    + destruct Hcase as [[Heq|Hin]|Hsome]; [congruence|now left|].
      right. now rewrite lookup_insert_ne.
Qed.

Lemma create_files_lookup ts (files : gmap nat (list ascii)) t :
  foldl (fun files t_id => <[t_id := []]> files) files ts !! t
  = if decide (t ∈ ts) then Some [] else files !! t.
Proof.
  revert files. induction ts as [|a ts IH]; intros files; cbn [foldl].
  - case_decide as Hin; [now apply elem_of_nil in Hin|reflexivity].
  - rewrite IH. clear IH. destruct (decide (a = t)) as [->|Hne].
    + rewrite lookup_insert_eq.
      destruct (decide (t ∈ t :: ts)) as [_|Hno].
      * now destruct (decide (t ∈ ts)).
      * exfalso. apply Hno, elem_of_cons. now left.
    + rewrite lookup_insert_ne by exact Hne.
      destruct (decide (t ∈ ts)) as [Hin|Hin], (decide (t ∈ a :: ts)) as [Hin'|Hin'];
        try reflexivity; exfalso.
      * apply Hin'. apply elem_of_cons. now right.
      * apply elem_of_cons in Hin' as [->|Hin']; [congruence|tauto].
Qed.

Lemma map_seq_false (f : nat -> bool) (a n : nat) :
  (forall t, (a <= t < a + n)%nat -> f t = false) ->
  map f (seq a n) = replicate n false.
Proof.
  revert a. induction n as [|n IH]; intros a Hall; [reflexivity|].
  cbn [seq map replicate]. rewrite (Hall a) by lia. f_equal.
  apply IH. intros t Ht. apply Hall. lia.
Qed.

Lemma failed_map_seq (f : nat -> bool) (T t : nat) :
  (t < T)%nat -> failed (map f (seq 0 T)) t = f t.
Proof.
  intros Ht. unfold failed.
  rewrite list_lookup_fmap, lookup_seq_lt by exact Ht. reflexivity.
Qed.

Lemma no_failed_map_seq (f g : nat -> bool) (T : nat) :
  existsb (fun t_id => failed (map f (seq 0 T)) t_id || failed (map g (seq 0 T)) t_id)
    (seq 0 T) = false ->
  map f (seq 0 T) = replicate T false /\ map g (seq 0 T) = replicate T false.
Proof.
  intros Hno.
  assert (Hall : forall t, (t < T)%nat -> f t = false /\ g t = false).
  { intros t Ht. destruct (f t || g t) eqn:E; [|now apply orb_false_iff in E].
    assert (Hex : existsb (fun t_id => failed (map f (seq 0 T)) t_id
                                       || failed (map g (seq 0 T)) t_id)
                    (seq 0 T) = true); [|congruence].
    apply existsb_exists. exists t. split; [apply in_seq; lia|].
    now rewrite !failed_map_seq by lia. }
  split; apply map_seq_false; intros t Ht; apply Hall; lia.
Qed.


Lemma reset_path_streams_ready T st :
  (forall t, (t < T)%nat ->
     io_fails st Open_path t = false /\ io_fails st Open_overlap t = false) ->
  exists st', reset_path_streams T st = Done st' /\ spools_ready T st'.
Proof.
  intros Hopen. unfold reset_path_streams.
  rewrite !(map_seq_false _ 0 T) by (intros t Ht; apply Hopen; lia).
  match goal with
  | |- context [existsb _ _] =>
      match goal with
      | |- context [Done ?st1] => assert (Hready : spools_ready T st1)
      end
  end.
  { split; [reflexivity|]. split; [reflexivity|].
    intros t Ht. cbn [path_file overlap_file set_files].
    split; apply create_files_is_Some; left; apply in_seq; lia. }
  rewrite (no_stream_failed T _ Hready). eexists. split; [reflexivity|exact Hready].
Qed.

(** The state a reset of the path streams returns is one from which the
    emission calls of a sequence start: the streams are open, and the
    spools of the threads are there and empty. *)
Lemma reset_path_streams_clean T st st' :
  reset_path_streams T st = Done st' -> spools_ready T st' /\ spools_clean T st'.
Proof.
  unfold reset_path_streams.
  cbn [path_file overlap_file path_output overlap_output set_files set_streams].
  destruct (existsb _ _) eqn:Hno; [discriminate|].
  apply no_failed_map_seq in Hno as [Hp Ho]. rewrite Hp, Ho.
  intros [= <-]. split.
  - split; [reflexivity|]. split; [reflexivity|].
    intros t Ht. cbn [path_file overlap_file set_files].
    split; apply create_files_is_Some; left; apply in_seq; lia.
  - intros t c Ht. cbn [path_file overlap_file set_files].
    rewrite !create_files_lookup.
    assert (Hin : t ∈ seq 0 T) by (apply list_elem_of_In, in_seq; lia).
    case_decide; [|tauto]. intros [[= <-]|[= <-]]; intros [].
Qed.

Lemma note_write_failures_ready T st :
  io_works T -> spools_ready T st -> note_write_failures T st = st.
Proof.
  intros Hio (Hp & Ho & _). unfold note_write_failures.
  rewrite !(map_seq_false _ 0 T).
  - destruct st. cbn [path_output overlap_output] in Hp, Ho. subst. reflexivity.
  - intros t Ht. rewrite Hio by lia. unfold failed.
    rewrite Ho, lookup_replicate_2 by lia. reflexivity.
  - intros t Ht. rewrite Hio by lia. unfold failed.
    rewrite Hp, lookup_replicate_2 by lia. reflexivity.
Qed.

Lemma write_gfa_path_done T st :
  spools_ready T st ->
  exists st', write_gfa_path T st = Done st' /\ spools_ready T st'.
Proof.
  intros Hready. unfold write_gfa_path.
  rewrite (no_stream_failed T st Hready).
  destruct (search_first_link T st) as [l r].
  destruct l as [l|]; [|now exists st].
  pose proof Hready as (_ & _ & Hfiles).
  destruct (read_spools_Some (seq 0 T) (path_file st)) as [paths ->].
  { intros t Hin. apply in_seq in Hin. apply Hfiles. lia. }
  destruct (read_spools_Some (seq 0 T) (overlap_file st)) as [overlaps Hov].
  { intros t Hin. apply in_seq in Hin. apply Hfiles. lia. }
  destruct r as [r|]; [rewrite Hov|]; eexists; (split; [reflexivity|exact Hready]).
Qed.




Lemma remove_temp_file_other st a t :
  t <> a ->
  path_file (remove_temp_file st a) !! t = path_file st !! t
  /\ overlap_file (remove_temp_file st a) !! t = overlap_file st !! t.
Proof.
  intros Hne. unfold remove_temp_file.
  destruct (path_file st !! a); [|split; reflexivity].
  cbn [path_file overlap_file set_files].
  rewrite !lookup_delete_ne by congruence. split; reflexivity.
Qed.




(** ** The cleanup of the spool files *)

Lemma remove_temp_file_same st a :
  path_file (remove_temp_file st a) !! a = None
  /\ overlap_file (remove_temp_file st a) !! a
     = (if decide (is_Some (path_file st !! a)) then None else overlap_file st !! a).
Proof.
  unfold remove_temp_file. destruct (path_file st !! a) as [c|] eqn:E.
  - cbn [path_file overlap_file set_files]. rewrite !lookup_delete_eq.
    split; [reflexivity|]. case_decide as Hno; [reflexivity|].
    exfalso. apply Hno. eapply mk_is_Some. reflexivity.
  - split; [exact E|]. case_decide as Hc; [|reflexivity].
    destruct Hc as [c Hc]. discriminate.
Qed.

Lemma remove_temp_files_lookup ts st t :
  NoDup ts ->
  path_file (foldl remove_temp_file st ts) !! t
  = (if decide (t ∈ ts) then None else path_file st !! t)
  /\ overlap_file (foldl remove_temp_file st ts) !! t
     = (if decide (t ∈ ts /\ is_Some (path_file st !! t)) then None
        else overlap_file st !! t).
Proof.
  revert st. induction ts as [|a ts IH]; intros st Hnd.
  - cbn [foldl]. split; case_decide as Hin; try reflexivity.
    + now apply elem_of_nil in Hin.
    + destruct Hin as [Hin _]. now apply elem_of_nil in Hin.
  - apply NoDup_cons in Hnd as [Hfresh Hnd]. cbn [foldl].
    destruct (IH (remove_temp_file st a) Hnd) as [-> ->]. clear IH.
    destruct (decide (t = a)) as [->|Hne].
    + destruct (remove_temp_file_same st a) as [Hp Ho]. rewrite Hp, Ho.
      assert (Hin : a ∈ a :: ts) by (apply elem_of_cons; now left).
      assert (Hnone : ~ is_Some (@None (list ascii))) by (intros [c Hc]; discriminate).
      clear Hp Ho.
      split; repeat case_decide; try reflexivity; exfalso; tauto.
    + destruct (remove_temp_file_other st a t Hne) as [-> ->].
      assert (Hiff : t ∈ a :: ts <-> t ∈ ts).
      { rewrite elem_of_cons. tauto. }
      split; repeat case_decide; try reflexivity; exfalso; tauto.
Qed.

(** X1: [remove_temp_files] removes the path spool of every thread below
    [thread_count] and touches no other file; the overlap spool of such a
    thread is removed only when its path spool existed, since the second
    [remove] is not tried once the first has failed. *)
Theorem remove_temp_files_short_circuit (thread_count : nat) (st : CdBG) (t : nat) :
  path_file (remove_temp_files thread_count st) !! t
  = (if decide (t < thread_count)%nat then None else path_file st !! t)
  /\ overlap_file (remove_temp_files thread_count st) !! t
     = (if decide ((t < thread_count)%nat /\ is_Some (path_file st !! t)) then None
        else overlap_file st !! t).
Proof.
  unfold remove_temp_files.
  destruct (remove_temp_files_lookup (seq 0 thread_count) st t) as [-> ->];
    [apply NoDup_ListNoDup, seq_NoDup|].
  assert (Hiff : t ∈ seq 0 thread_count <-> (t < thread_count)%nat).
  { rewrite list_elem_of_In, in_seq. lia. }
  split; repeat case_decide; try reflexivity; exfalso; tauto.
Qed.

(** ** The first link of a sequence *)

Lemma search_first_link_loop_spec ts st :
  (forall t, is_valid (slot (second_unitig st) t) = true ->
             is_valid (slot (first_unitig st) t) = true) ->
  let l := concat (map (first_two st) ts) in
  search_first_link_loop ts st None None = (l !! 0%nat, l !! 1%nat)
  /\ forall (a : Oriented_Unitig) (r : option Oriented_Unitig),
       search_first_link_loop ts st (Some a) r
       = (Some a, match l with v :: _ => Some v | [] => r end).
Proof.
  intros Hsf. induction ts as [|t ts [IHn IHs]]; cbn zeta.
  - split; reflexivity.
  - cbn [map concat search_first_link_loop].
    set (rest := concat (map (first_two st) ts)) in *.
    unfold first_two.
    destruct (slot (first_unitig st) t) as [u|] eqn:Hf; cbn [is_valid negb].
    + destruct (slot (second_unitig st) t) as [v|] eqn:Hs; cbn [is_valid app].
      * split; [reflexivity|]. intros a r. reflexivity.
      * split; [|intros a r; reflexivity]. rewrite IHs. clearbody rest.
        destruct rest; reflexivity.
    + destruct (slot (second_unitig st) t) as [v|] eqn:Hs; cbn [is_valid app].
      * specialize (Hsf t). rewrite Hf, Hs in Hsf. discriminate (Hsf eq_refl).
      * split; [exact IHn|exact IHs].
Qed.

(** X2: [search_first_link] returns the first two unitigs of the sequence: with
    the first two unitigs of every thread listed in the order of the thread
    numbers, the left unitig is the first of the list and the right one the
    second; each is invalid when there is none. *)
Theorem search_first_link_finds_first_two (thread_count : nat) (st : CdBG) :
  (forall t, is_valid (slot (second_unitig st) t) = true ->
             is_valid (slot (first_unitig st) t) = true) ->
  let l := concat (map (first_two st) (seq 0 thread_count)) in
  search_first_link thread_count st = (l !! 0%nat, l !! 1%nat).
Proof.
  intros Hsf l. unfold search_first_link.
  exact (proj1 (search_first_link_loop_spec (seq 0 thread_count) st Hsf)).
Qed.

(** ** The failures of the path record *)

Lemma read_spools_None ts (files : gmap nat (list ascii)) :
  read_spools ts files = None <-> exists t, In t ts /\ files !! t = None.
Proof.
  induction ts as [|a ts IH]; cbn [read_spools].
  - split; [discriminate|]. intros (t & [] & _).
  - destruct (files !! a) as [c|] eqn:E.
    + destruct (read_spools ts files) as [rest|].
      * split; [discriminate|]. intros (t & [<-|Hin] & Hnone); [congruence|].
        enough (@None (list ascii) = None -> False) by tauto.
        intros _. assert (Hex : exists t, In t ts /\ files !! t = None) by eauto.
        apply IH in Hex. discriminate.
      * split; [intros _|reflexivity].
        destruct (proj1 IH eq_refl) as (t & Hin & Hnone). exists t. split; [now right|exact Hnone].
    + split; [intros _|reflexivity]. exists a. split; [now left|exact E].
Qed.

Lemma stream_failed_exists T st :
  existsb (fun t_id => failed (path_output st) t_id || failed (overlap_output st) t_id)
    (seq 0 T) = true
  <-> exists t, (t < T)%nat
                /\ (failed (path_output st) t = true \/ failed (overlap_output st) t = true).
Proof.
  rewrite existsb_exists. split.
  - intros (t & Hin & Hf). apply in_seq in Hin. apply orb_true_iff in Hf.
    exists t. split; [lia|exact Hf].
  - intros (t & Hlt & Hf). exists t. split; [apply in_seq; lia|].
    now apply orb_true_iff.
Qed.

Lemma Done_inj {A : Type} (a b : A) : Done a = Done b -> a = b.
Proof. now intros [= ->]. Qed.

Lemma read_spools_text ts (files : gmap nat (list ascii)) x :
  read_spools ts files = Some x ->
  x = concat (map (fun t_id => default [] (files !! t_id)) ts).
Proof.
  revert x. induction ts as [|t ts IH]; intros x; cbn [read_spools map concat].
  - now intros [= <-].
  - destruct (files !! t) as [c|]; [|discriminate].
    destruct (read_spools ts files) as [rest|]; [|discriminate].
    intros [= <-]. cbn [default]. now rewrite <- (IH rest eq_refl).
Qed.

(** X3: [write_gfa_path] exits with failure exactly when a path stream of a
    thread has failed, or the sequence has a unitig and a path spool cannot
    be opened, or it has two and an overlap spool cannot be opened: a
    missing spool goes unnoticed when the record does not need it. When it
    returns it has changed nothing but the GFA file: it has appended
    nothing when no thread has a first unitig, and otherwise the one text
    made of [P], the name of the path, the first unitig followed by the
    contents of the path spools in the order of the threads, and [*] or the
    first overlap followed by the contents of the overlap spools. *)
Theorem write_gfa_path_failures (thread_count : nat) (st : CdBG) :
  (write_gfa_path thread_count st = Aborted
   <-> (exists t, (t < thread_count)%nat
                  /\ (failed (path_output st) t = true
                      \/ failed (overlap_output st) t = true))
       \/ (is_valid (search_first_link thread_count st).1 = true
           /\ ((exists t, (t < thread_count)%nat /\ path_file st !! t = None)
               \/ (is_valid (search_first_link thread_count st).2 = true
                   /\ exists t, (t < thread_count)%nat
                                /\ overlap_file st !! t = None))))
  /\ write_gfa_path thread_count st <> Out_of_fuel
  /\ write_gfa_path thread_count st <> Crashed
  /\ forall st' : CdBG,
       write_gfa_path thread_count st = Done st' ->
       match search_first_link thread_count st with
       | (None, _) => st' = st
       | (Some left_unitig, right_unitig) =>
           st' = set_gfa_file
                   (gfa_file st
                      ++ [Direct
                            (txt "P" ++ TAB ++ txt "P" ++ dec (seq_count st) ++ TAB
                               ++ dec (unitig_id left_unitig)
                               ++ sign (unitig_dir left_unitig)
                               ++ spool_text thread_count (path_file st)
                               ++ TAB
                               ++ match right_unitig with
                                  | None => txt "*"
                                  | Some right_unitig =>
                                      dec (wrap16 (overlap_of left_unitig right_unitig))
                                        ++ txt "M"
                                        ++ spool_text thread_count (overlap_file st)
                                  end
                               ++ NL)])
                   st
       end.
Proof.
  assert (Hmiss : forall files : gmap nat (list ascii),
            read_spools (seq 0 thread_count) files = None
            <-> exists t, (t < thread_count)%nat /\ files !! t = None).
  { intros files. rewrite read_spools_None. split.
    - intros (t & Hin & Hn). apply in_seq in Hin. exists t. split; [lia|exact Hn].
    - intros (t & Hlt & Hn). exists t. split; [apply in_seq; lia|exact Hn]. }
  pose proof (stream_failed_exists thread_count st) as Hfail.
  unfold write_gfa_path.
  destruct (existsb _ (seq 0 thread_count)) eqn:Hstream.
  { split; [|split; [|split]]; [|discriminate ..].
    split; [intros _; left; now apply Hfail|reflexivity]. }
  assert (Hok : ~ exists t, (t < thread_count)%nat
                  /\ (failed (path_output st) t = true
                      \/ failed (overlap_output st) t = true)).
  { intros Hex. apply Hfail in Hex. discriminate. }
  destruct (search_first_link thread_count st) as [l r]. cbn [fst snd].
  destruct l as [l|]; cbn [is_valid].
  2: { split; [|split; [|split]]; [|discriminate|discriminate|].
       - split; [discriminate|]. intros [Hex|[Hv _]]; [tauto|discriminate].
       - now intros st' [= <-]. }
  pose proof (Hmiss (path_file st)) as Hp.
  pose proof (read_spools_text (seq 0 thread_count) (path_file st)) as Hpt.
  destruct (read_spools (seq 0 thread_count) (path_file st)) as [paths|].
  2: { split; [|split; [|split]]; [|discriminate ..].
       split; [intros _|reflexivity]. right. split; [reflexivity|]. left. now apply Hp. }
  assert (Hpaths : ~ exists t, (t < thread_count)%nat /\ path_file st !! t = None).
  { intros Hex. apply Hp in Hex. discriminate. }
  specialize (Hpt paths eq_refl). fold (spool_text thread_count (path_file st)) in Hpt.
  subst paths. unfold path_line_head.
  destruct r as [r|]; cbn [is_valid].
  2: { split; [|split; [|split]]; [|discriminate|discriminate|].
       - split; [discriminate|]. intros [Hex|[_ [Hex|[Hv _]]]]; [tauto|tauto|discriminate].
       - intros st' <-%Done_inj. now rewrite <- !app_assoc. }
  pose proof (Hmiss (overlap_file st)) as Ho.
  pose proof (read_spools_text (seq 0 thread_count) (overlap_file st)) as Hot.
  destruct (read_spools (seq 0 thread_count) (overlap_file st)) as [overlaps|].
  - specialize (Hot overlaps eq_refl).
    fold (spool_text thread_count (overlap_file st)) in Hot. subst overlaps.
    split; [|split; [|split]]; [|discriminate|discriminate|].
    + split; [discriminate|]. intros [Hex|[_ [Hex|[_ Hex]]]]; [tauto|tauto|].
      apply Ho in Hex. discriminate.
    + intros st' <-%Done_inj. now rewrite <- !app_assoc.
  - split; [|split; [|split]]; [|discriminate ..].
    split; [intros _|reflexivity]. right. split; [reflexivity|]. right.
    split; [reflexivity|]. now apply Ho.
Qed.

(** ** Neighbours in a list *)

Lemma adjacent_pairs_cons {A : Type} (a b : A) (l : list A) :
  adjacent_pairs (a :: b :: l) = (a, b) :: adjacent_pairs (b :: l).
Proof. reflexivity. Qed.

Lemma adjacent_pairs_app {A : Type} (l1 l2 : list A) :
  adjacent_pairs (l1 ++ l2)
  = adjacent_pairs l1
      ++ match last l1, l2 with
         | Some a, b :: _ => [(a, b)]
         | _, _ => []
         end
      ++ adjacent_pairs l2.
Proof.
  induction l1 as [|a l1 IH]; [reflexivity|].
  destruct l1 as [|b l1].
  - destruct l2 as [|c l2]; reflexivity.
  - change ((a :: b :: l1) ++ l2) with (a :: b :: (l1 ++ l2)).
    rewrite !adjacent_pairs_cons.
    change (b :: l1 ++ l2) with ((b :: l1) ++ l2). rewrite IH.
    change (last (a :: b :: l1)) with (last (b :: l1)). reflexivity.
Qed.

Lemma adjacent_pairs_snoc {A : Type} (l : list A) (x : A) :
  adjacent_pairs (l ++ [x])
  = adjacent_pairs l ++ match last l with Some a => [(a, x)] | None => [] end.
Proof.
  rewrite adjacent_pairs_app. cbn [adjacent_pairs tail zip zip_with].
  destruct (last l); now rewrite ?app_nil_r.
Qed.

Lemma tail_snoc {A : Type} (l : list A) (x : A) :
  tail (l ++ [x]) = match l with [] => [] | _ :: _ => tail l ++ [x] end.
Proof. destruct l; reflexivity. Qed.

(** ** What an emission call does to the threads *)

Lemma thread_text_buffer_write_other st t x t' :
  t' <> t -> thread_text (buffer_write t x st) t' = thread_text st t'.
Proof.
  intros Hne. unfold thread_text, buffer_of, buffer_write.
  cbn [gfa_file output_buffer set_output_buffer].
  rewrite list_lookup_alter_ne by congruence. reflexivity.
Qed.

Lemma record_unitig_text_other st t u t' :
  t' <> t -> thread_text (record_unitig t u st) t' = thread_text st t'.
Proof.
  intros Hne. unfold record_unitig.
  change (thread_text (set_witnesses ?f ?s ?l ?x) t') with (thread_text x t').
  assert (Htext : thread_text (note_first_second t u st) t' = thread_text st t').
  { unfold thread_text, buffer_of.
    destruct (note_first_second_frame st t u) as (_ & _ & _ & _ & _ & _ & _ & -> & ->).
    reflexivity. }
  unfold link_previous. destruct (slot _ t) as [p|]; [|exact Htext].
  change (thread_text (append_link_to_path ?a ?b ?c ?x) t') with (thread_text x t').
  unfold write_gfa_link.
  rewrite thread_text_fill_buffer, thread_text_buffer_write_other by exact Hne.
  exact Htext.
Qed.

Lemma output_unitig_gfa_text_other st t seq s e t' :
  t' <> t -> thread_text (output_unitig_gfa t seq s e st) t' = thread_text st t'.
Proof.
  intros Hne. unfold output_unitig_gfa, output_unitig_gfa_entry.
  destruct (try_mark_outputted _ _) as [[|] V'];
    rewrite record_unitig_text_other by exact Hne; [|reflexivity].
  unfold write_gfa_segment.
  rewrite thread_text_fill_buffer, thread_text_buffer_write_other by exact Hne.
  reflexivity.
Qed.

Lemma record_unitig_files st t u :
  path_file (record_unitig t u st)
  = match slot (last_unitig st) t with
    | Some prev => spool_write t (path_entry u) (path_output st) (path_file st)
    | None => path_file st
    end
  /\ overlap_file (record_unitig t u st)
     = match slot (last_unitig st) t with
       | Some prev =>
           spool_write t (overlap_entry prev u) (overlap_output st) (overlap_file st)
       | None => overlap_file st
       end.
Proof.
  unfold record_unitig. cbn [path_file overlap_file set_witnesses].
  unfold link_previous.
  destruct (note_first_second_frame st t u) as (_ & Hl & Hpo & Hoo & Hpf & Hof & _).
  rewrite Hl. destruct (slot (last_unitig st) t) as [prev|].
  - unfold append_link_to_path. cbn [path_file overlap_file set_files].
    destruct (write_gfa_link_frame (note_first_second t u st) t prev u)
      as (_ & _ & _ & _ & -> & -> & -> & -> & _).
    rewrite Hpo, Hoo, Hpf, Hof. split; reflexivity.
  - rewrite Hpf, Hof. split; reflexivity.
Qed.

Lemma output_unitig_gfa_files st t seq s e :
  let u := current_unitig_of s e in
  path_file (output_unitig_gfa t seq s e st)
  = match slot (last_unitig st) t with
    | Some prev => spool_write t (path_entry u) (path_output st) (path_file st)
    | None => path_file st
    end
  /\ overlap_file (output_unitig_gfa t seq s e st)
     = match slot (last_unitig st) t with
       | Some prev =>
           spool_write t (overlap_entry prev u) (overlap_output st) (overlap_file st)
       | None => overlap_file st
       end.
Proof.
  intros u. unfold output_unitig_gfa, output_unitig_gfa_entry. fold u.
  destruct (try_mark_outputted _ _) as [[|] V'].
  - match goal with
    | |- context [record_unitig t u ?st2] =>
        destruct (record_unitig_files st2 t u) as [-> ->]
    end.
    match goal with
    | |- context [write_gfa_segment t seq ?n ?a ?b ?d ?st1] =>
        destruct (write_gfa_segment_frame st1 t seq n a b d)
          as (_ & _ & _ & -> & -> & -> & -> & -> & _)
    end.
    split; reflexivity.
  - match goal with
    | |- context [record_unitig t u ?st2] =>
        destruct (record_unitig_files st2 t u) as [-> ->]
    end.
    split; reflexivity.
Qed.

Lemma spool_write_other t x streams (files : gmap nat (list ascii)) t' :
  t' <> t -> spool_write t x streams files !! t' = files !! t'.
Proof.
  intros Hne. unfold spool_write.
  destruct (streams !! t) as [[|]|]; try reflexivity.
  now rewrite lookup_alter_ne by congruence.
Qed.

Lemma output_unitig_gfa_other st t seq s e t' :
  t' <> t ->
  slot (first_unitig (output_unitig_gfa t seq s e st)) t' = slot (first_unitig st) t'
  /\ slot (second_unitig (output_unitig_gfa t seq s e st)) t' = slot (second_unitig st) t'
  /\ slot (last_unitig (output_unitig_gfa t seq s e st)) t' = slot (last_unitig st) t'
  /\ path_file (output_unitig_gfa t seq s e st) !! t' = path_file st !! t'
  /\ overlap_file (output_unitig_gfa t seq s e st) !! t' = overlap_file st !! t'.
Proof.
  intros Hne.
  destruct (output_unitig_gfa_witnesses st t seq s e) as (-> & -> & ->).
  destruct (output_unitig_gfa_files st t seq s e) as (-> & ->).
  assert (Hslot : forall l x, slot (<[t := x]> l) t' = slot l t').
  { intros l x. rewrite slot_insert. destruct (decide _) as [[Heq _]|_]; [congruence|].
    reflexivity. }
  repeat split.
  - destruct (negb _); [apply Hslot|reflexivity].
  - destruct (negb _); [reflexivity|]. destruct (negb _); [apply Hslot|reflexivity].
  - apply Hslot.
  - destruct (slot (last_unitig st) t); [now apply spool_write_other|reflexivity].
  - destruct (slot (last_unitig st) t); [now apply spool_write_other|reflexivity].
Qed.

(** X4: an emission call of a thread leaves every other thread as it was: what
    the other thread has emitted, its three witnesses and its two spool
    files. *)
Theorem emission_keeps_other_threads (st : CdBG) (t t' : nat) (seq : text)
    (start_kmer end_kmer : Annotated_Kmer) :
  t' <> t ->
  let st' := output_unitig_gfa t seq start_kmer end_kmer st in
  thread_text st' t' = thread_text st t'
  /\ slot (first_unitig st') t' = slot (first_unitig st) t'
  /\ slot (second_unitig st') t' = slot (second_unitig st) t'
  /\ slot (last_unitig st') t' = slot (last_unitig st) t'
  /\ path_file st' !! t' = path_file st !! t'
  /\ overlap_file st' !! t' = overlap_file st !! t'.
Proof.
  intros Hne st'. split; [now apply output_unitig_gfa_text_other|].
  now apply output_unitig_gfa_other.
Qed.

(** ** The witnesses and the spools of a thread *)

Lemma unitigs_of_snoc t calls c :
  unitigs_of t (calls ++ [c])
  = unitigs_of t calls
      ++ (if called_by t c then [current_unitig_of (call_start c) (call_end c)]
          else []).
Proof.
  unfold unitigs_of. rewrite filter_app, map_app. f_equal.
  rewrite filter_cons, filter_nil.
  destruct (called_by t c); case_decide; try congruence; reflexivity.
Qed.

Lemma emit_all_lengths st calls :
  length (first_unitig (foldl emit st calls)) = length (first_unitig st)
  /\ length (second_unitig (foldl emit st calls)) = length (second_unitig st)
  /\ length (last_unitig (foldl emit st calls)) = length (last_unitig st).
Proof.
  revert st. induction calls as [|c calls IH]; intros st; [repeat split; reflexivity|].
  cbn [foldl]. destruct (IH (emit st c)) as (-> & -> & ->). unfold emit.
  destruct (output_unitig_gfa_witnesses st (call_thread c) (call_seq c)
              (call_start c) (call_end c)) as (-> & -> & ->).
  repeat split.
  - destruct (negb _); [apply length_insert|reflexivity].
  - destruct (negb _); [reflexivity|]. destruct (negb _); [apply length_insert|reflexivity].
  - apply length_insert.
Qed.

(** After the emission calls [calls] from the reset of a sequence, the
    witnesses of thread [t] are the first, the second and the last unitig
    it emitted, its path spool lists its unitigs after the first, and its
    overlap spool the overlaps of its consecutive unitigs. *)
Lemma emit_all_view T st calls t :
  first_unitig st = replicate T None ->
  second_unitig st = replicate T None ->
  last_unitig st = replicate T None ->
  spools_ready T st ->
  (forall c, In c calls -> (call_thread c < T)%nat) ->
  (t < T)%nat ->
  let us := unitigs_of t calls in
  let st' := foldl emit st calls in
  slot (first_unitig st') t = head us
  /\ slot (second_unitig st') t = us !! 1%nat
  /\ slot (last_unitig st') t = last us
  /\ exists p o : text,
       path_file st !! t = Some p
       /\ overlap_file st !! t = Some o
       /\ path_file st' !! t = Some (p ++ concat (map path_entry (tail us)))
       /\ overlap_file st' !! t
          = Some (o ++ concat (map (fun ab => overlap_entry ab.1 ab.2)
                                 (adjacent_pairs us))).
Proof.
  intros Hf0 Hs0 Hl0 Hready Hthreads Ht. cbn zeta.
  induction calls as [|c calls IH] using rev_ind.
  - cbn [foldl]. rewrite Hf0, Hs0, Hl0, !slot_replicate_None.
    do 3 (split; [reflexivity|]).
    destruct Hready as (_ & _ & Hfiles). destruct (Hfiles t Ht) as [[p Hp] [o Ho]].
    exists p, o. rewrite Hp, Ho, !app_nil_r. repeat split; reflexivity.
  - assert (Hthreads' : forall c', In c' calls -> (call_thread c' < T)%nat).
    { intros c' Hin. apply Hthreads, in_or_app. now left. }
    specialize (IH Hthreads').
    destruct IH as (Hf & Hs & Hl & p & o & Hp0 & Ho0 & Hp & Ho).
    rewrite foldl_app. cbn [foldl]. rewrite unitigs_of_snoc.
    set (st1 := foldl emit st calls) in *.
    set (us := unitigs_of t calls) in *.
    set (u := current_unitig_of (call_start c) (call_end c)).
    assert (Hready1 : spools_ready T st1) by now apply emit_all_ready.
    destruct (emit_all_lengths st calls) as (Lf & Ls & Ll). fold st1 in Lf, Ls, Ll.
    rewrite Hf0, length_replicate in Lf. rewrite Hs0, length_replicate in Ls.
    rewrite Hl0, length_replicate in Ll.
    unfold called_by. destruct (Nat.eqb_spec (call_thread c) t) as [Heq|Hne].
    + unfold emit. rewrite Heq.
      destruct (output_unitig_gfa_witnesses st1 t (call_seq c) (call_start c) (call_end c))
        as (Ef & Es & El).
      destruct (output_unitig_gfa_files st1 t (call_seq c) (call_start c) (call_end c))
        as (Epf & Eof).
      fold u in Ef, Es, El, Epf, Eof. rewrite Ef, Es, El, Epf, Eof, Hf, Hs, Hl.
      assert (Hins : forall l : list (option Oriented_Unitig),
                length l = T -> slot (<[t := Some u]> l) t = Some u).
      { intros l Hlen. rewrite slot_insert. destruct (decide _) as [_|Hno]; [reflexivity|].
        exfalso. apply Hno. split; [reflexivity|lia]. }
      split; [|split; [|split]].
      * destruct us as [|a us]; cbn [head is_valid negb app]; [now apply Hins|exact Hf].
      * destruct us as [|a [|b us]]; cbn [head is_valid negb app lookup list_lookup];
          [exact Hs|now apply Hins|exact Hs].
      * rewrite last_snoc. now apply Hins.
      * exists p, o. split; [exact Hp0|]. split; [exact Ho0|].
        destruct (last us) as [z|] eqn:Hlast.
        -- destruct Hready1 as (Hpo & Hoo & _).
           unfold spool_write. rewrite Hpo, Hoo, lookup_replicate_2 by exact Ht.
           rewrite !lookup_alter, Hp, Ho.
           destruct (decide (t = t)) as [_|]; [|congruence].
           cbn [fmap option_fmap option_map].
           rewrite tail_snoc, adjacent_pairs_snoc, Hlast.
           destruct us as [|a us]; [discriminate|].
           rewrite !map_app, !concat_app. cbn [map concat fst snd].
           rewrite !app_nil_r, <- !app_assoc. split; reflexivity.
        -- apply last_None in Hlast. rewrite Hlast in *. cbn [app tail adjacent_pairs zip zip_with map concat] in *.
           split; [exact Hp|exact Ho].
    + unfold emit.
      destruct (output_unitig_gfa_other st1 (call_thread c) (call_seq c) (call_start c)
                  (call_end c) t ltac:(congruence)) as (-> & -> & -> & -> & ->).
      rewrite app_nil_r. split; [exact Hf|]. split; [exact Hs|]. split; [exact Hl|].
      exists p, o. repeat split; assumption.
Qed.

(** ** The spools after the stitching *)

Section Stitch.

Variable T : nat.
Variable U : nat -> list Oriented_Unitig.

(** The witnesses of the threads are those of the unitigs [U], and the
    spools are ready. *)
Let stitch_inv (st : CdBG) : Prop :=
  spools_ready T st
  /\ forall x, (x < T)%nat ->
       slot (first_unitig st) x = head (U x) /\ slot (last_unitig st) x = last (U x).

Lemma tiling_from_cons a n : tiling_from U a (S n) = U a ++ tiling_from U (S a) n.
Proof. reflexivity. Qed.

Lemma stitch_inv_link st t t' l r :
  stitch_inv st -> stitch_inv (append_link_to_path t l r (write_gfa_link t' l r st)).
Proof.
  intros [Hready Hwit]. split.
  - now apply append_link_to_path_ready, write_gfa_link_ready.
  - destruct (append_link_to_path_frame (write_gfa_link t' l r st) t l r)
      as (_ & -> & _ & -> & _).
    destruct (write_gfa_link_frame st t' l r) as (_ & -> & _ & -> & _).
    exact Hwit.
Qed.

Lemma stitch_link_files st t t' l r x :
  stitch_inv st -> (t < T)%nat ->
  path_file (append_link_to_path t l r (write_gfa_link t' l r st)) !! x
  = (if decide (x = t) then (fun c => c ++ path_entry r) <$> path_file st !! x
     else path_file st !! x)
  /\ overlap_file (append_link_to_path t l r (write_gfa_link t' l r st)) !! x
     = (if decide (x = t) then (fun c => c ++ overlap_entry l r) <$> overlap_file st !! x
        else overlap_file st !! x).
Proof.
  intros [(Hpo & Hoo & _) _] Ht.
  unfold append_link_to_path. cbn [path_file overlap_file set_files].
  destruct (write_gfa_link_frame st t' l r) as (_ & _ & _ & _ & -> & -> & -> & -> & _).
  unfold spool_write. rewrite Hpo, Hoo, lookup_replicate_2 by exact Ht.
  rewrite !lookup_alter.
  destruct (decide (t = x)) as [->|Hne]; destruct (decide _) as [Heq|Hne'];
    try congruence; split; reflexivity.
Qed.

Lemma stitch_files n :
  forall (a : nat) (st : CdBG) (left_unitig : option Oriented_Unitig) (left_t_id : nat),
    (a + n)%nat = T ->
    stitch_inv st ->
    match left_unitig with
    | Some l => (left_t_id < a)%nat /\ last (U left_t_id) = Some l
    | None => True
    end ->
    let pending := match left_unitig with Some _ => Some left_t_id | None => None end in
    let res := (foldl inter_thread_step (st, left_unitig, left_t_id) (seq a n)).1.1 in
    forall x, (x < T)%nat ->
      exists p o : text,
        path_file st !! x = Some p
        /\ overlap_file st !! x = Some o
        /\ path_file res !! x
           = Some (p ++ stitch_entry T U (fun _ r => path_entry r) pending a x)
        /\ overlap_file res !! x
           = Some (o ++ stitch_entry T U overlap_entry pending a x).
Proof.
  induction n as [|n IH]; intros a st left_unitig left_t_id Han Hinv Hleft; cbn zeta;
    intros x Hx.
  - cbn [seq foldl fst]. destruct Hinv as [(_ & _ & Hfiles) _].
    destruct (Hfiles x Hx) as [[p Hp] [o Ho]]. exists p, o.
    split; [exact Hp|]. split; [exact Ho|].
    assert (HE : forall entry,
              stitch_entry T U entry
                match left_unitig with Some _ => Some left_t_id | None => None end a x
              = []).
    { intros entry. unfold stitch_entry.
      replace (T - a)%nat with 0%nat by lia. cbn [tiling_from seq map concat].
      destruct (decide _) as [_|_].
      - unfold link_entry. now destruct (last (U x)).
      - destruct (decide (a <= x)%nat); [lia|reflexivity]. }
    rewrite !HE, !app_nil_r. split; [exact Hp|exact Ho].
  - cbn [seq foldl].
    pose proof Hinv as [(_ & _ & Hfiles) Hwit].
    assert (Ha : (a < T)%nat) by lia.
    destruct (Hwit a Ha) as [Hfa Hla].
    destruct left_unitig as [l|].
    + destruct Hleft as [Hlt Hlast].
      destruct (U a) as [|r us] eqn:HUa; cbn [head] in Hfa.
      * replace (inter_thread_step (st, Some l, left_t_id) a) with (st, Some l, left_t_id)
          by (unfold inter_thread_step; now rewrite Hfa).
        destruct (IH (S a) st (Some l) left_t_id ltac:(lia) Hinv ltac:(split; [lia|exact Hlast])
                    x Hx) as (p & o & Hp & Ho & Hrp & Hro).
        exists p, o. split; [exact Hp|]. split; [exact Ho|].
        cbn zeta in Hrp, Hro. rewrite Hrp, Hro.
        assert (HE : forall entry,
                  stitch_entry T U entry (Some left_t_id) (S a) x
                  = stitch_entry T U entry (Some left_t_id) a x).
        { intros entry. unfold stitch_entry.
          replace (T - a)%nat with (S (T - S a)) by lia.
          rewrite tiling_from_cons, HUa. cbn [app].
          destruct (decide (Some left_t_id = Some x)); [reflexivity|].
          destruct (decide (S a <= x)%nat), (decide (a <= x)%nat); try lia; try reflexivity.
          assert (x = a) by lia. subst x. unfold link_entry. now rewrite HUa. }
        rewrite !HE. split; reflexivity.
      * replace (inter_thread_step (st, Some l, left_t_id) a)
          with (append_link_to_path left_t_id l r (write_gfa_link a l r st), last (r :: us), a)
          by (unfold inter_thread_step; now rewrite Hfa, Hla).
        rewrite <- HUa in *.
        assert (Hinv' : stitch_inv (append_link_to_path left_t_id l r
                                      (write_gfa_link a l r st)))
          by now apply stitch_inv_link.
        destruct (last (U a)) as [z|] eqn:Hz;
          [|apply last_None in Hz; rewrite HUa in Hz; discriminate].
        destruct (IH (S a) _ (Some z) a ltac:(lia) Hinv' ltac:(split; [lia|exact Hz]) x Hx)
          as (p' & o' & Hp' & Ho' & Hrp & Hro).
        cbn zeta in Hrp, Hro. rewrite Hrp, Hro.
        destruct (stitch_link_files st left_t_id a l r x Hinv ltac:(lia)) as [Epf Eof].
        rewrite Epf in Hp'. rewrite Eof in Ho'.
        destruct (Hfiles x Hx) as [[p Hp] [o Ho]]. exists p, o.
        split; [exact Hp|]. split; [exact Ho|].
        rewrite Hp in Hp'. rewrite Ho in Ho'.
        assert (HE : forall entry,
                  (if decide (x = left_t_id) then entry l r else [])
                    ++ stitch_entry T U entry (Some a) (S a) x
                  = stitch_entry T U entry (Some left_t_id) a x).
        { intros entry. unfold stitch_entry.
          replace (T - a)%nat with (S (T - S a)) by lia.
          rewrite tiling_from_cons, HUa. cbn [app].
          destruct (decide (x = left_t_id)) as [->|Hne].
          - destruct (decide (Some a = Some left_t_id)) as [[= ?]|_]; [lia|].
            destruct (decide (S a <= left_t_id)%nat); [lia|].
            destruct (decide (Some left_t_id = Some left_t_id)); [|congruence].
            unfold link_entry. rewrite Hlast, app_nil_r. reflexivity.
          - destruct (decide (Some left_t_id = Some x)) as [[= ?]|_]; [congruence|].
            cbn [app].
            destruct (decide (Some a = Some x)) as [[= <-]|Hax].
            + destruct (decide (a <= a)%nat); [|lia].
              replace (T - a)%nat with (S (T - S a)) by lia. reflexivity.
            + destruct (decide (S a <= x)%nat), (decide (a <= x)%nat); try lia;
                try reflexivity.
              exfalso. apply Hax. f_equal. lia. }
        rewrite <- !HE.
        destruct (decide (x = left_t_id)); cbn [fmap option_fmap option_map] in Hp', Ho';
          injection Hp' as <-; injection Ho' as <-; rewrite <- ?app_assoc;
          split; reflexivity.
    + replace (inter_thread_step (st, None, left_t_id) a) with (st, last (U a), a)
        by (unfold inter_thread_step; now rewrite Hla).
      destruct (IH (S a) st (last (U a)) a ltac:(lia) Hinv
                  ltac:(destruct (last (U a)); [split; [lia|reflexivity]|exact I]) x Hx)
        as (p & o & Hp & Ho & Hrp & Hro).
      exists p, o. split; [exact Hp|]. split; [exact Ho|].
      cbn zeta in Hrp, Hro. rewrite Hrp, Hro.
      assert (HE : forall entry,
                stitch_entry T U entry
                  match last (U a) with Some _ => Some a | None => None end (S a) x
                = stitch_entry T U entry None a x).
      { intros entry. unfold stitch_entry.
        destruct (decide (None = Some x)) as [|_]; [discriminate|].
        destruct (last (U a)) as [z|] eqn:Hz.
        - destruct (decide (Some a = Some x)) as [[= <-]|Hax].
          + destruct (decide (a <= a)%nat); [|lia].
            replace (T - a)%nat with (S (T - S a)) by lia. reflexivity.
          + destruct (decide (S a <= x)%nat), (decide (a <= x)%nat); try lia;
              try reflexivity.
            exfalso. apply Hax. f_equal. lia.
        - destruct (decide (None = Some x)) as [|_]; [discriminate|].
          destruct (decide (S a <= x)%nat), (decide (a <= x)%nat); try lia;
            try reflexivity.
          assert (x = a) by lia. subst x. unfold link_entry. now rewrite Hz. }
      rewrite !HE. split; reflexivity.
Qed.

End Stitch.

(** ** The path record of a sequence *)

Lemma tiling_path_entries (T : nat) (U : nat -> list Oriented_Unitig) n :
  forall a, (a + n)%nat = T ->
    concat (map (fun x => concat (map path_entry (tail (U x)))
                          ++ link_entry (fun _ r => path_entry r) (U x)
                               (tiling_from U (S x) (T - S x)))
              (seq a n))
    = concat (map path_entry (tail (tiling_from U a n))).
Proof.
  induction n as [|n IH]; intros a Han; [reflexivity|].
  cbn [seq map concat]. rewrite IH by lia. rewrite tiling_from_cons.
  replace (T - S a)%nat with n by lia.
  set (rest := tiling_from U (S a) n). clearbody rest.
  unfold link_entry. destruct (U a) as [|u us] eqn:HUa; [reflexivity|].
  destruct (last (u :: us)) as [z|] eqn:Hz; [|apply last_None in Hz; discriminate].
  cbn [app tail]. rewrite map_app, concat_app, <- app_assoc. f_equal.
  destruct rest as [|r rest]; [reflexivity|]. cbn [tail map concat]. reflexivity.
Qed.

Lemma tiling_overlap_entries (T : nat) (U : nat -> list Oriented_Unitig) n :
  forall a, (a + n)%nat = T ->
    concat (map (fun x => concat (map (fun ab => overlap_entry ab.1 ab.2)
                                    (adjacent_pairs (U x)))
                          ++ link_entry overlap_entry (U x)
                               (tiling_from U (S x) (T - S x)))
              (seq a n))
    = concat (map (fun ab => overlap_entry ab.1 ab.2)
                (adjacent_pairs (tiling_from U a n))).
Proof.
  induction n as [|n IH]; intros a Han; [reflexivity|].
  cbn [seq map concat]. rewrite IH by lia. rewrite tiling_from_cons.
  replace (T - S a)%nat with n by lia.
  set (rest := tiling_from U (S a) n). clearbody rest.
  rewrite adjacent_pairs_app, !map_app, !concat_app, <- app_assoc.
  f_equal. f_equal. unfold link_entry.
  destruct (last (U a)) as [z|]; [|reflexivity].
  destruct rest as [|r rest]; [reflexivity|]. cbn [map concat fst snd].
  now rewrite app_nil_r.
Qed.

Lemma read_spools_concat ts (files : gmap nat (list ascii)) (f : nat -> list ascii) :
  (forall t, In t ts -> files !! t = Some (f t)) ->
  read_spools ts files = Some (concat (map f ts)).
Proof.
  induction ts as [|t ts IH]; intros Hall; [reflexivity|].
  cbn [read_spools map concat]. rewrite (Hall t (or_introl eq_refl)).
  rewrite IH; [reflexivity|]. intros t' Hin. apply Hall. now right.
Qed.

Lemma concat_take_two {A : Type} (Ls : list (list A)) :
  take 2 (concat (map (take 2) Ls)) = take 2 (concat Ls).
Proof.
  induction Ls as [|L Ls IH]; [reflexivity|]. cbn [map concat].
  destruct L as [|a [|b L]]; cbn [take app].
  - exact IH.
  - f_equal.
    change (take 1 (concat (map (take 2) Ls)))
      with (take (1 `min` 2) (concat (map (take 2) Ls))).
    change (take 1 (concat Ls)) with (take (1 `min` 2) (concat Ls)).
    rewrite <- !take_take, IH. reflexivity.
  - reflexivity.
Qed.

Lemma first_two_take st (us : list Oriented_Unitig) t :
  slot (first_unitig st) t = head us -> slot (second_unitig st) t = us !! 1%nat ->
  first_two st t = take 2 us.
Proof.
  intros Hf Hs. unfold first_two. rewrite Hf, Hs.
  destruct us as [|a [|b us]]; reflexivity.
Qed.

Lemma unitigs_of_absent t calls :
  (forall c, In c calls -> call_thread c <> t) -> unitigs_of t calls = [].
Proof.
  intros Hall. unfold unitigs_of. induction calls as [|c calls IH]; [reflexivity|].
  rewrite filter_cons.
  assert (Hc : called_by t c = false).
  { unfold called_by. apply Nat.eqb_neq. apply Hall. now left. }
  case_decide; [congruence|]. apply IH. intros c' Hin. apply Hall. now right.
Qed.

Lemma tiling_from_nil (U : nat -> list Oriented_Unitig) a n :
  (forall x, (a <= x)%nat -> U x = []) -> tiling_from U a n = [].
Proof.
  revert a. induction n as [|n IH]; intros a Hall; [reflexivity|].
  rewrite tiling_from_cons, (Hall a), IH; [reflexivity| |lia].
  intros x Hx. apply Hall. lia.
Qed.

(** What the spools of the threads hold when the path record is written. *)
Lemma spools_before_path_record T st calls (stitched : bool) x :
  first_unitig st = replicate T None ->
  second_unitig st = replicate T None ->
  last_unitig st = replicate T None ->
  spools_ready T st ->
  (forall t, (t < T)%nat -> path_file st !! t = Some [] /\ overlap_file st !! t = Some []) ->
  (forall c, In c calls -> (call_thread c < T)%nat) ->
  (stitched = false -> forall c, In c calls -> call_thread c = 0%nat) ->
  (x < T)%nat ->
  let U := fun t => unitigs_of t calls in
  let st_w := foldl emit st calls in
  let st_l := if stitched then write_inter_thread_links T st_w else st_w in
  path_file st_l !! x
  = Some (concat (map path_entry (tail (U x)))
            ++ link_entry (fun _ r => path_entry r) (U x) (tiling_from U (S x) (T - S x)))
  /\ overlap_file st_l !! x
     = Some (concat (map (fun ab => overlap_entry ab.1 ab.2) (adjacent_pairs (U x)))
               ++ link_entry overlap_entry (U x) (tiling_from U (S x) (T - S x))).
Proof.
  intros Hf Hs Hl Hready Hempty Hthreads Hsingle Hx U st_w st_l.
  destruct (emit_all_view T st calls x Hf Hs Hl Hready Hthreads Hx)
    as (_ & _ & _ & p & o & Hp0 & Ho0 & Hp & Ho).
  destruct (Hempty x Hx) as [Hpe Hoe]. rewrite Hpe in Hp0. rewrite Hoe in Ho0.
  injection Hp0 as <-. injection Ho0 as <-. cbn [app] in Hp, Ho.
  fold st_w in Hp, Ho. fold (U x) in Hp, Ho.
  destruct stitched.
  - assert (Hinv : spools_ready T st_w
                   /\ forall y, (y < T)%nat ->
                        slot (first_unitig st_w) y = head (U y)
                        /\ slot (last_unitig st_w) y = last (U y)).
    { split; [now apply emit_all_ready|]. intros y Hy.
      destruct (emit_all_view T st calls y Hf Hs Hl Hready Hthreads Hy)
        as (Hfy & _ & Hly & _).
      split; [exact Hfy|exact Hly]. }
    destruct (stitch_files T U T 0 st_w None 0%nat ltac:(lia) Hinv I x Hx)
      as (p & o & Hp' & Ho' & Hrp & Hro).
    cbn zeta in Hrp, Hro. unfold st_l, write_inter_thread_links.
    rewrite Hrp, Hro. rewrite Hp in Hp'. rewrite Ho in Ho'.
    injection Hp' as <-. injection Ho' as <-.
    unfold stitch_entry.
    destruct (decide (None = Some x)) as [|_]; [discriminate|].
    destruct (decide (0 <= x)%nat); [|lia]. split; reflexivity.
  - assert (Hrest : tiling_from U (S x) (T - S x) = []).
    { apply tiling_from_nil. intros y Hy. apply unitigs_of_absent.
      intros c Hin. rewrite (Hsingle eq_refl c Hin). lia. }
    rewrite Hrest. unfold st_l, link_entry.
    rewrite Hp, Ho. destruct (last (U x)); rewrite !app_nil_r; split; reflexivity.
Qed.

(** The witnesses of the threads when the path record is written. *)
Lemma witnesses_before_path_record T st calls (stitched : bool) :
  first_unitig st = replicate T None ->
  second_unitig st = replicate T None ->
  last_unitig st = replicate T None ->
  spools_ready T st ->
  (forall c, In c calls -> (call_thread c < T)%nat) ->
  let st_w := foldl emit st calls in
  let st_l := if stitched then write_inter_thread_links T st_w else st_w in
  spools_ready T st_l
  /\ search_first_link T st_l = (tiling T calls !! 0%nat, tiling T calls !! 1%nat).
Proof.
  intros Hf Hs Hl Hready Hthreads st_w st_l.
  assert (Hwit : first_unitig st_l = first_unitig st_w
                 /\ second_unitig st_l = second_unitig st_w).
  { unfold st_l. destruct stitched; [|split; reflexivity].
    destruct (write_inter_thread_links_witnesses T st_w) as (-> & -> & _).
    split; reflexivity. }
  destruct Hwit as [Hfirst Hsecond].
  assert (Hready_l : spools_ready T st_l).
  { unfold st_l. destruct stitched; [|now apply emit_all_ready].
    now apply write_inter_thread_links_ready, emit_all_ready. }
  split; [exact Hready_l|].
  assert (Hcons : witnesses_consistent st_w).
  { apply emit_all_consistent. now apply (reset_consistent _ T). }
  unfold search_first_link.
  rewrite (proj1 (search_first_link_loop_spec (seq 0 T) st_l
                    ltac:(intros t; rewrite Hfirst, Hsecond; apply Hcons))).
  assert (Hmap : map (first_two st_l) (seq 0 T)
                 = map (take 2) (map (fun t => unitigs_of t calls) (seq 0 T))).
  { rewrite map_map. apply map_ext_in. intros t Hin. apply in_seq in Hin.
    destruct (emit_all_view T st calls t Hf Hs Hl Hready Hthreads ltac:(lia))
      as (Hft & Hst & _).
    apply first_two_take; [now rewrite Hfirst|now rewrite Hsecond]. }
  rewrite Hmap. unfold tiling.
  set (Ls := map (fun t => unitigs_of t calls) (seq 0 T)).
  pose proof (concat_take_two Ls) as Htake.
  rewrite <- (lookup_take_lt (concat (map (take 2) Ls)) 2 0) by lia.
  rewrite <- (lookup_take_lt (concat (map (take 2) Ls)) 2 1) by lia.
  rewrite Htake, !lookup_take_lt by lia. reflexivity.
Qed.

(** The P-record written after the emission calls [calls]. *)
Lemma write_gfa_path_tiling (thread_count : nat) (st : CdBG)
    (calls : list Call) (stitched : bool) :
  first_unitig st = replicate thread_count None ->
  second_unitig st = replicate thread_count None ->
  last_unitig st = replicate thread_count None ->
  spools_ready thread_count st ->
  (forall t, (t < thread_count)%nat ->
     path_file st !! t = Some [] /\ overlap_file st !! t = Some []) ->
  (forall c, In c calls -> (call_thread c < thread_count)%nat) ->
  (stitched = false -> forall c, In c calls -> call_thread c = 0%nat) ->
  let st_w := foldl emit st calls in
  let st_l := if stitched then write_inter_thread_links thread_count st_w else st_w in
  write_gfa_path thread_count st_l
  = match tiling thread_count calls with
    | [] => Done st_l
    | u :: rest =>
        Done (set_gfa_file
                (gfa_file st_l
                   ++ [Direct (txt "P" ++ TAB ++ txt "P" ++ dec (seq_count st_l) ++ TAB
                                 ++ dec (unitig_id u) ++ sign (unitig_dir u)
                                 ++ concat (map path_entry rest)
                                 ++ TAB
                                 ++ match rest with
                                    | [] => txt "*"
                                    | v :: _ =>
                                        dec (wrap16 (overlap_of u v)) ++ txt "M"
                                          ++ concat (map (fun ab => overlap_entry ab.1 ab.2)
                                                       (adjacent_pairs (u :: rest)))
                                    end
                                 ++ NL)])
                st_l)
    end.
Proof.
  intros Hf Hs Hl Hready Hempty Hthreads Hsingle st_w st_l.
  destruct (witnesses_before_path_record thread_count st calls stitched
              Hf Hs Hl Hready Hthreads) as [Hready_l Hsearch].
  fold st_w in Hready_l, Hsearch. fold st_l in Hready_l, Hsearch.
  set (U := fun t => unitigs_of t calls).
  assert (Hpaths : read_spools (seq 0 thread_count) (path_file st_l)
                   = Some (concat (map path_entry (tail (tiling thread_count calls))))).
  { erewrite read_spools_concat.
    - f_equal. apply (tiling_path_entries thread_count U thread_count 0). lia.
    - intros x Hin. apply in_seq in Hin.
      apply (spools_before_path_record thread_count st calls stitched x); auto; lia. }
  assert (Hoverlaps : read_spools (seq 0 thread_count) (overlap_file st_l)
                      = Some (concat (map (fun ab => overlap_entry ab.1 ab.2)
                                        (adjacent_pairs (tiling thread_count calls))))).
  { erewrite read_spools_concat.
    - f_equal. apply (tiling_overlap_entries thread_count U thread_count 0). lia.
    - intros x Hin. apply in_seq in Hin.
      apply (spools_before_path_record thread_count st calls stitched x); auto; lia. }
  unfold write_gfa_path.
  rewrite (no_stream_failed thread_count st_l Hready_l), Hsearch, Hpaths, Hoverlaps.
  destruct (tiling thread_count calls) as [|u [|v rest]]; cbn [lookup list_lookup tail];
    try reflexivity.
  - unfold path_line_head. cbn [map concat]. rewrite <- !app_assoc. reflexivity.
  - unfold path_line_head. rewrite <- !app_assoc. reflexivity.
Qed.

(** X5: the P-record of a sequence lists the unitigs of the threads in the
    order of the thread numbers, each thread's in the order it emitted
    them: after the emission calls [calls] from the reset of a sequence
    (stitched, or all of thread 0 when a single worker ran), the
    segment-names field is the comma-separated list of the unitigs with
    their signs. The overlaps field is [*] for a single unitig; otherwise it
    is the overlap of the first two unitigs followed by the overlap of every
    pair of neighbours, the first pair once more: as many entries as there
    are unitigs. No record is written when no unitig was emitted. *)
Theorem path_record_lists_unitigs (thread_count : nat) (st : CdBG)
    (calls : list Call) (stitched : bool) :
  first_unitig st = replicate thread_count None ->
  second_unitig st = replicate thread_count None ->
  last_unitig st = replicate thread_count None ->
  spools_ready thread_count st ->
  (forall t, (t < thread_count)%nat ->
     path_file st !! t = Some [] /\ overlap_file st !! t = Some []) ->
  (forall c, In c calls -> (call_thread c < thread_count)%nat) ->
  (stitched = false -> forall c, In c calls -> call_thread c = 0%nat) ->
  let st_w := foldl emit st calls in
  let st_l := if stitched then write_inter_thread_links thread_count st_w else st_w in
  write_gfa_path thread_count st_l
  = match tiling thread_count calls with
    | [] => Done st_l
    | u :: rest =>
        Done (set_gfa_file
                (gfa_file st_l
                   ++ [Direct (txt "P" ++ TAB ++ txt "P" ++ dec (seq_count st_l) ++ TAB
                                 ++ dec (unitig_id u) ++ sign (unitig_dir u)
                                 ++ concat (map path_entry rest)
                                 ++ TAB
                                 ++ match rest with
                                    | [] => txt "*"
                                    | v :: _ =>
                                        dec (wrap16 (overlap_of u v)) ++ txt "M"
                                          ++ concat (map (fun ab => overlap_entry ab.1 ab.2)
                                                       (adjacent_pairs (u :: rest)))
                                    end
                                 ++ NL)])
                st_l)
    end.
Proof.
  intros Hf Hs Hl Hready Hempty Hthreads Hsingle.
  now apply write_gfa_path_tiling.
Qed.


(** ** The unitigs of a walk *)

Lemma ordered_calls_weaken t seq lo lo' hi hi' calls :
  lo' <= lo -> hi <= hi' ->
  ordered_calls t seq lo hi calls -> ordered_calls t seq lo' hi' calls.
Proof.
  revert lo lo'. induction calls as [|c calls IH]; intros lo lo' Hlo Hhi; [auto|].
  cbn [ordered_calls]. intros (Ht & Hs & Hse & He & Hrest).
  split; [exact Ht|]. split; [exact Hs|]. split; [lia|]. split; [lia|].
  apply (IH (idx (call_end c) + 1)); [lia|exact Hhi|exact Hrest].
Qed.

Lemma ordered_calls_app t seq lo mid lo2 hi calls1 calls2 :
  lo <= lo2 -> mid < lo2 -> mid <= hi ->
  ordered_calls t seq lo mid calls1 -> ordered_calls t seq lo2 hi calls2 ->
  ordered_calls t seq lo hi (calls1 ++ calls2).
Proof.
  intros Hlo Hmid Hhi. revert lo Hlo.
  induction calls1 as [|c calls1 IH]; intros lo Hlo H1 H2.
  - cbn [app]. now apply (ordered_calls_weaken t seq lo2 lo hi hi).
  - cbn [app ordered_calls] in *. destruct H1 as (Ht & Hs & Hse & He & Hrest).
    split; [exact Ht|]. split; [exact Hs|]. split; [lia|]. split; [lia|].
    apply IH; [lia|exact Hrest|exact H2].
Qed.

Lemma roll_to_next_kmer_idx c V a : idx (roll_to_next_kmer c V a) = wrap64 (idx a + 1).
Proof. reflexivity. Qed.

Lemma walk_loop_calls fuel t seq seq_len right_end :
  1 <= k -> seq_len < 2 ^ 64 ->
  forall w st w' st',
    walk_loop fuel t seq seq_len right_end w st = Some (w', st') ->
    0 <= kmer_idx w -> kmer_idx w + k <= seq_len ->
    idx (next_kmer w) = kmer_idx w ->
    (on_unipath w = true -> idx (unipath_start_kmer w) < kmer_idx w) ->
    exists calls : list Call,
      st' = foldl emit st calls
      /\ kmer_idx w <= kmer_idx w' /\ kmer_idx w' + k <= seq_len
      /\ ordered_calls t seq
           (if on_unipath w then idx (unipath_start_kmer w) else kmer_idx w)
           (kmer_idx w') calls.
Proof.
  intros Hk Hmax.
  induction fuel as [|fuel IH]; intros w st w' st' Hloop Hi Hle Hnext Hstart;
    [discriminate|].
  cbn [walk_loop] in Hloop.
  destruct (on_unipath w || (kmer_idx w <=? right_end)).
  2: { injection Hloop as <- <-. exists []. split; [reflexivity|]. split; [lia|].
       split; [lia|exact I]. }
  unfold walk_body in Hloop.
  set (lo := if on_unipath w then idx (unipath_start_kmer w) else kmer_idx w).
  set (curr := next_kmer w) in *. set (prev := curr_kmer w) in *.
  set (on := if starts_at curr prev then true else on_unipath w) in *.
  set (start := if starts_at curr prev then curr else unipath_start_kmer w) in *.
  assert (Hon : on = true -> lo <= idx start <= kmer_idx w).
  { unfold on, start, lo. destruct (starts_at curr prev).
    - intros _. unfold curr in *.
      destruct (on_unipath w); [specialize (Hstart eq_refl)|]; lia.
    - intros H1. rewrite H1. specialize (Hstart H1). lia. }
  assert (Hoff : on = false -> lo = kmer_idx w).
  { unfold on, lo. destruct (starts_at curr prev); [discriminate|].
    now intros ->. }
  set (c := {| call_thread := t; call_seq := seq; call_start := start; call_end := curr |}).
  assert (Hc : forall s, output_unitig_gfa t seq start curr s = emit s c) by reflexivity.
  destruct (no_right_neighbor seq seq_len (kmer_idx w)) eqn:Hright.
  { injection Hloop as <- <-. cbn [kmer_idx].
    destruct on eqn:Hon'.
    - exists [c]. split; [reflexivity|]. split; [lia|]. split; [lia|].
      cbn [ordered_calls]. unfold c. cbn [call_thread call_seq call_start call_end].
      specialize (Hon eq_refl). unfold curr in *.
      repeat split; lia.
    - exists []. split; [reflexivity|]. split; [lia|]. split; [lia|exact I]. }
  assert (Hlt : kmer_idx w + k < seq_len)
    by (apply (no_right_neighbor_false seq); [lia ..|exact Hright]).
  set (next := roll_to_next_kmer (seq_at seq (wrap64 (kmer_idx w + k)))
                (Vertices st) curr) in *.
  assert (Hnext' : idx next = kmer_idx w + 1).
  { unfold next. rewrite roll_to_next_kmer_idx, Hnext, wrap64_small by lia.
    reflexivity. }
  destruct (on && ends_at curr next) eqn:Hclose.
  - apply andb_true_iff in Hclose as [Hon' _]. specialize (Hon Hon').
    apply IH in Hloop as (calls & -> & Hge & Hle' & Hord);
      cbn [kmer_idx advance on_unipath next_kmer unipath_start_kmer] in *;
      rewrite ?wrap64_small in * by lia; try lia; try discriminate.
    exists (c :: calls). split; [reflexivity|]. split; [lia|]. split; [lia|].
    cbn [ordered_calls]. unfold c. cbn [call_thread call_seq call_start call_end].
    split; [reflexivity|]. split; [reflexivity|].
    split; [unfold curr in *; lia|]. split; [unfold curr in *; lia|].
    replace (idx curr + 1) with (kmer_idx w + 1) by lia.
    exact Hord.
  - apply IH in Hloop as (calls & -> & Hge & Hle' & Hord);
      cbn [kmer_idx advance on_unipath next_kmer unipath_start_kmer] in *;
      rewrite ?wrap64_small in * by lia; try lia.
    + exists calls. split; [reflexivity|]. split; [lia|]. split; [lia|].
      destruct on eqn:Hon'.
      * specialize (Hon eq_refl). eapply ordered_calls_weaken; [| |exact Hord]; lia.
      * specialize (Hoff eq_refl). eapply ordered_calls_weaken; [| |exact Hord]; lia.
    + intros Hon'. specialize (Hon Hon'). lia.
Qed.

Lemma annotate_idx x i V : idx (annotate x i V) = i.
Proof. reflexivity. Qed.

Lemma walker_calls fuel t seq seq_len right_end start_idx st ret st' :
  1 <= k -> 0 <= start_idx -> start_idx + k <= seq_len -> seq_len < 2 ^ 64 ->
  output_maximal_unitigs_gfa_thread fuel t seq seq_len right_end start_idx st
  = Some (ret, st') ->
  exists calls : list Call,
    st' = foldl emit st calls
    /\ start_idx + k <= ret <= seq_len
    /\ ordered_calls t seq start_idx (ret - k) calls.
Proof.
  intros Hk Hi Hle Hmax Hrun. unfold output_maximal_unitigs_gfa_thread in Hrun.
  set (curr := annotate (kmer_of seq start_idx) start_idx (Vertices st)) in *.
  set (c := {| call_thread := t; call_seq := seq; call_start := curr; call_end := curr |}).
  assert (Hc : forall s, output_unitig_gfa t seq curr curr s = emit s c) by reflexivity.
  assert (Hone : ordered_calls t seq start_idx (start_idx + k - k) [c]).
  { cbn [ordered_calls]. unfold c. cbn [call_thread call_seq call_start call_end].
    unfold curr. rewrite annotate_idx. repeat split; lia. }
  destruct (no_right_neighbor seq seq_len start_idx) eqn:Hright.
  - rewrite andb_true_r in Hrun. rewrite wrap64_small in Hrun by lia.
    destruct (no_left_neighbor seq start_idx).
    + injection Hrun as <- <-. exists [c]. split; [reflexivity|]. split; [lia|exact Hone].
    + injection Hrun as <- <-. destruct (starts_at _ _).
      * exists [c]. split; [reflexivity|]. split; [lia|exact Hone].
      * exists []. split; [reflexivity|]. split; [lia|exact I].
  - rewrite andb_false_r in Hrun.
    assert (Hlt : start_idx + k < seq_len)
      by (apply (no_right_neighbor_false seq); [lia ..|exact Hright]).
    destruct (walk_init t seq start_idx curr st) as [w st1] eqn:Hinit.
    destruct (walk_loop fuel t seq seq_len right_end w st1) as [[w' st2]|] eqn:Hloop;
      [|discriminate].
    injection Hrun as <- <-.
    assert (Hw : kmer_idx w = start_idx + 1
                 /\ idx (next_kmer w) = start_idx + 1
                 /\ (on_unipath w = true -> idx (unipath_start_kmer w) = start_idx)
                 /\ (st1 = st \/ (st1 = emit st c /\ on_unipath w = false))).
    { unfold walk_init in Hinit.
      set (on := if no_left_neighbor seq start_idx then true else starts_at curr _) in *.
      assert (Hroll : forall c V, idx (roll_to_next_kmer c V curr) = start_idx + 1).
      { intros c0 V. rewrite roll_to_next_kmer_idx. unfold curr.
        rewrite annotate_idx, wrap64_small by lia. reflexivity. }
      destruct on; cbn [andb] in Hinit; [destruct (ends_at _ _)|];
        injection Hinit as <- <-;
        cbn [kmer_idx next_kmer on_unipath unipath_start_kmer];
        rewrite Hroll, wrap64_small by lia;
        (split; [reflexivity|]); (split; [reflexivity|]).
      - split; [discriminate|]. right. split; reflexivity.
      - split; [intros _; apply annotate_idx|]. now left.
      - split; [discriminate|]. now left. }
    destruct Hw as (Hidx & Hnext & Hstart & Hst1).
    apply (walk_loop_calls fuel t seq seq_len right_end Hk Hmax) in Hloop
      as (calls & -> & Hge & Hle' & Hord); try lia.
    2: { intros Hon. rewrite (Hstart Hon). lia. }
    rewrite wrap64_small by lia.
    replace (kmer_idx w' + k - k) with (kmer_idx w') by lia.
    destruct Hst1 as [->|[-> Hoff]].
    + exists calls. split; [reflexivity|]. split; [lia|].
      eapply ordered_calls_weaken; [| |exact Hord]; [|lia].
      destruct (on_unipath w); [rewrite Hstart by reflexivity|]; lia.
    + exists (c :: calls). split; [reflexivity|]. split; [lia|].
      rewrite Hoff in Hord.
      cbn [ordered_calls].
      assert (E1 : idx (call_start c) = start_idx) by reflexivity.
      assert (E2 : idx (call_end c) = start_idx) by reflexivity.
      rewrite E1, E2. split; [reflexivity|]. split; [reflexivity|].
      split; [lia|]. split; [lia|]. rewrite <- Hidx. exact Hord.
Qed.

(** X6: the walker emits unitigs that follow each other in the run it walks:
    from [start_idx] it returns the end [ret] of what it processed, at most
    the end of the sequence, and its emission calls, in order, are runs of
    k-mers between [start_idx] and [ret - k] without overlap. *)
Theorem walker_emits_successive_unitigs (fuel : nat) (thread_id : nat) (seq : text)
    (seq_len right_end start_idx : Z) (st : CdBG) :
  1 <= k -> 0 <= start_idx -> start_idx + k <= seq_len -> seq_len < 2 ^ 64 ->
  seq_len - k - start_idx <= Z.of_nat fuel ->
  exists (ret : Z) (st' : CdBG) (calls : list Call),
    output_maximal_unitigs_gfa_thread fuel thread_id seq seq_len right_end start_idx st
    = Some (ret, st')
    /\ st' = foldl emit st calls
    /\ start_idx + k <= ret <= seq_len
    /\ ordered_calls thread_id seq start_idx (ret - k) calls.
Proof.
  intros Hk Hi Hle Hmax Hfuel.
  destruct (walker_total (fun _ => True) (fun _ _ _ _ _ _ => I) fuel thread_id seq seq_len
              right_end start_idx st Hk Hi Hle Hmax Hfuel) as (ret & st' & Hrun & _).
  destruct (walker_calls fuel thread_id seq seq_len right_end start_idx st ret st'
              Hk Hi Hle Hmax Hrun) as (calls & Hst & Hret & Hord).
  exists ret, st', calls. auto.
Qed.

Lemma off_substring_calls fuel wfuel t seq seq_len right_end :
  1 <= k -> right_end + k <= seq_len -> seq_len < 2 ^ 64 ->
  forall i st st',
    0 <= i ->
    output_gfa_off_substring_loop fuel wfuel t seq seq_len right_end i st = Some st' ->
    exists calls : list Call,
      st' = foldl emit st calls /\ ordered_calls t seq i (seq_len - k) calls.
Proof.
  intros Hk Hre Hmax.
  induction fuel as [|fuel IH]; intros i st st' Hi Hrun; [discriminate|].
  cbn [output_gfa_off_substring_loop] in Hrun.
  destruct (Z.leb_spec i right_end) as [Hin|Hout].
  2: { injection Hrun as <-. exists []. split; [reflexivity|exact I]. }
  pose proof (search_valid_kmer_range seq i right_end ltac:(lia) ltac:(lia)) as Hs.
  destruct (Z.gtb_spec (search_valid_kmer seq i right_end) right_end) as [Hgt|Hle].
  { injection Hrun as <-. exists []. split; [reflexivity|exact I]. }
  destruct (output_maximal_unitigs_gfa_thread wfuel t seq seq_len right_end
              (search_valid_kmer seq i right_end) st) as [[ret st1]|] eqn:Hw;
    [|discriminate].
  apply walker_calls in Hw as (calls1 & -> & Hret & Hord1); try lia.
  apply IH in Hrun as (calls2 & -> & Hord2); [|lia].
  exists (calls1 ++ calls2). split; [now rewrite foldl_app|].
  apply (ordered_calls_app t seq i (ret - k) ret (seq_len - k)); try lia; [|exact Hord2].
  eapply ordered_calls_weaken; [| |exact Hord1]; lia.
Qed.

(** X7: a worker on the range from [left_end] to [right_end] emits unitigs
    that lie in the sequence, start at or after [left_end] and follow each
    other without overlap; they may end after [right_end]. *)
Theorem worker_emits_successive_unitigs (fuel : nat) (thread_id : nat) (seq : text)
    (seq_len left_end right_end : Z) (st : CdBG) :
  1 <= k -> 0 <= left_end -> right_end + k <= seq_len -> 0 <= seq_len < 2 ^ 64 ->
  seq_len < Z.of_nat fuel ->
  exists (st' : CdBG) (calls : list Call),
    output_gfa_off_substring fuel thread_id seq seq_len left_end right_end st = Some st'
    /\ st' = foldl emit st calls
    /\ ordered_calls thread_id seq left_end (seq_len - k) calls.
Proof.
  intros Hk Hl Hre Hmax Hfuel. unfold output_gfa_off_substring.
  destruct (output_gfa_off_substring_loop_total (fun _ => True) (fun _ _ _ _ _ _ => I)
              fuel fuel thread_id seq seq_len right_end left_end st)
    as (st' & Hrun & _); [lia ..|].
  destruct (off_substring_calls fuel fuel thread_id seq seq_len right_end Hk Hre
              ltac:(lia) left_end st st' Hl Hrun) as (calls & Hst & Hord).
  exists st', calls. auto.
Qed.

(** ** The GFA file is appended to *)

Lemma logged_since_refl st : logged_since st st.
Proof. exists []. split; [now rewrite app_nil_r|constructor]. Qed.

Lemma logged_since_trans st1 st2 st3 :
  logged_since st1 st2 -> logged_since st2 st3 -> logged_since st1 st3.
Proof.
  intros (c1 & E1 & F1) (c2 & E2 & F2). exists (c1 ++ c2). split.
  - now rewrite E2, E1, app_assoc.
  - apply Forall_app. now split.
Qed.

Lemma logged_since_same st st' : gfa_file st' = gfa_file st -> logged_since st st'.
Proof. intros E. exists []. split; [now rewrite app_nil_r|constructor]. Qed.

Lemma fill_buffer_logged st t n : logged_since st (fill_buffer t n st).
Proof.
  unfold fill_buffer. destruct (MAX_BUFF_SIZE <=? _); [|now apply logged_since_same].
  unfold flush_buffer. cbn [gfa_file set_buffer_size set_output_buffer set_gfa_file].
  eexists [_]. cbn [gfa_file set_buffer_size set_output_buffer set_gfa_file].
  split; [reflexivity|]. repeat constructor. now eexists _, _.
Qed.

Lemma write_gfa_link_logged st t u v : logged_since st (write_gfa_link t u v st).
Proof.
  unfold write_gfa_link.
  apply (logged_since_trans st (buffer_write t (link_line u v) st));
    [apply logged_since_same; reflexivity|apply fill_buffer_logged].
Qed.

Lemma write_gfa_segment_logged st t seq name s e d :
  logged_since st (write_gfa_segment t seq name s e d st).
Proof.
  unfold write_gfa_segment.
  apply (logged_since_trans st (buffer_write t (segment_line seq name s e d) st));
    [apply logged_since_same; reflexivity|apply fill_buffer_logged].
Qed.

Lemma record_unitig_logged st t u : logged_since st (record_unitig t u st).
Proof.
  unfold record_unitig.
  set (st1 := note_first_second t u st). set (st2 := link_previous t u st1).
  apply (logged_since_trans st st1).
  { apply logged_since_same.
    exact (proj2 (proj2 (proj2 (proj2 (proj2 (proj2 (proj2 (proj2
             (note_first_second_frame st t u))))))))). }
  apply (logged_since_trans st1 st2); [|apply logged_since_same; reflexivity].
  unfold st2, link_previous. destruct (slot _ t) as [p|]; [|apply logged_since_refl].
  apply (logged_since_trans st1 (write_gfa_link t p u st1));
    [apply write_gfa_link_logged|apply logged_since_same; reflexivity].
Qed.

Lemma output_unitig_gfa_logged st t seq s e :
  logged_since st (output_unitig_gfa t seq s e st).
Proof.
  unfold output_unitig_gfa, output_unitig_gfa_entry.
  destruct (try_mark_outputted _ _) as [[|] V'].
  - eapply logged_since_trans; [|apply record_unitig_logged].
    apply (logged_since_trans st (set_Vertices V' st));
      [apply logged_since_same; reflexivity|apply write_gfa_segment_logged].
  - apply (logged_since_trans st (set_Vertices V' st));
      [apply logged_since_same; reflexivity|apply record_unitig_logged].
Qed.





(** ** The reset of the path streams *)

(** X8: a reset of the path streams that returns has emptied the two spool
    files of every thread below [thread_count], created them where there
    was none, opened their streams anew, and changed nothing else: no file
    of another thread number, no witness, not the GFA file. *)
Theorem reset_path_streams_truncates (thread_count : nat) (st st' : CdBG) :
  reset_path_streams thread_count st = Done st' ->
  (forall t : nat,
     path_file st' !! t
     = (if decide (t < thread_count)%nat then Some [] else path_file st !! t)
     /\ overlap_file st' !! t
        = (if decide (t < thread_count)%nat then Some [] else overlap_file st !! t))
  /\ path_output st' = replicate thread_count false
  /\ overlap_output st' = replicate thread_count false
  /\ st' = set_files (path_file st') (overlap_file st')
             (set_streams (path_output st') (overlap_output st') st).
Proof.
  unfold reset_path_streams.
  cbn [path_file overlap_file path_output overlap_output set_files set_streams].
  destruct (existsb _ _) eqn:Hno; [discriminate|].
  apply no_failed_map_seq in Hno as [Hp Ho]. rewrite Hp, Ho.
  intros [= <-]. cbn [path_file overlap_file path_output overlap_output set_files set_streams].
  split; [|repeat split; reflexivity].
  intros t. rewrite !create_files_lookup.
  assert (Hiff : t ∈ seq 0 thread_count <-> (t < thread_count)%nat).
  { rewrite list_elem_of_In, in_seq. lia. }
  split; repeat case_decide; try reflexivity; exfalso; tauto.
Qed.

(** ** The path record of a processed sequence *)









(** ** The links between the shards *)

Lemma tiling_from_snoc (U : nat -> list Oriented_Unitig) a n :
  tiling_from U a (S n) = tiling_from U a n ++ U (a + n)%nat.
Proof.
  unfold tiling_from. rewrite seq_S, map_app, concat_app. cbn [map concat].
  now rewrite app_nil_r.
Qed.

Lemma output_unitig_gfa_buffers st t seq s e :
  length (output_buffer (output_unitig_gfa t seq s e st)) = length (output_buffer st).
Proof.
  unfold output_unitig_gfa, output_unitig_gfa_entry.
  destruct (try_mark_outputted _ _) as [[|] V'];
    rewrite (proj2 (proj2 (proj2 (proj2 (record_unitig_frame _ _ _)))));
    [|reflexivity].
  now rewrite (proj2 (proj2 (proj2 (proj2 (proj2 (proj2 (proj2 (proj2 (proj2
                 (write_gfa_segment_frame _ _ _ _ _ _ _)))))))))).
Qed.

Lemma emit_all_buffers st calls :
  length (output_buffer (foldl emit st calls)) = length (output_buffer st).
Proof.
  revert st. induction calls as [|c calls IH]; intros st; [reflexivity|].
  cbn [foldl]. rewrite IH. apply output_unitig_gfa_buffers.
Qed.

Lemma write_gfa_link_text_other st t u v t' :
  t' <> t -> thread_text (write_gfa_link t u v st) t' = thread_text st t'.
Proof.
  intros Hne. unfold write_gfa_link.
  now rewrite thread_text_fill_buffer, thread_text_buffer_write_other.
Qed.

Lemma stitch_text (T : nat) (U : nat -> list Oriented_Unitig) n :
  forall (a : nat) (st : CdBG) (left_unitig : option Oriented_Unitig) (left_t_id : nat),
    (a + n)%nat = T ->
    (forall x, (x < T)%nat ->
       slot (first_unitig st) x = head (U x) /\ slot (last_unitig st) x = last (U x)) ->
    (T <= length (output_buffer st))%nat ->
    left_unitig = last (tiling_from U 0 a) ->
    forall x,
      thread_text (foldl inter_thread_step (st, left_unitig, left_t_id) (seq a n)).1.1 x
      = thread_text st x
          ++ (if decide (a <= x < T)%nat
              then link_entry link_line (tiling_from U 0 x) (U x) else []).
Proof.
  induction n as [|n IH]; intros a st left_unitig left_t_id Han Hwit Hlen Hleft x.
  - cbn [seq foldl fst]. destruct (decide _); [lia|]. now rewrite app_nil_r.
  - cbn [seq foldl]. assert (Ha : (a < T)%nat) by lia.
    destruct (Hwit a Ha) as [Hfa Hla].
    assert (Hsnoc : tiling_from U 0 (S a) = tiling_from U 0 a ++ U a)
      by apply tiling_from_snoc.
    destruct left_unitig as [l|].
    + destruct (U a) as [|r us] eqn:HUa; cbn [head] in Hfa.
      * replace (inter_thread_step (st, Some l, left_t_id) a) with (st, Some l, left_t_id)
          by (unfold inter_thread_step; now rewrite Hfa).
        rewrite (IH (S a) st (Some l) left_t_id ltac:(lia) Hwit Hlen
                   ltac:(now rewrite Hsnoc, app_nil_r)).
        f_equal. destruct (decide (S a <= x < T)%nat), (decide (a <= x < T)%nat);
          try lia; try reflexivity.
        assert (x = a) by lia. subst x. unfold link_entry. rewrite HUa.
        now destruct (last (tiling_from U 0 a)).
      * replace (inter_thread_step (st, Some l, left_t_id) a)
          with (append_link_to_path left_t_id l r (write_gfa_link a l r st),
                last (r :: us), a)
          by (unfold inter_thread_step; now rewrite Hfa, Hla).
        set (st' := append_link_to_path left_t_id l r (write_gfa_link a l r st)).
        assert (Hwit' : forall y, (y < T)%nat ->
                  slot (first_unitig st') y = head (U y)
                  /\ slot (last_unitig st') y = last (U y)).
        { intros y Hy. unfold st'.
          destruct (append_link_to_path_frame (write_gfa_link a l r st) left_t_id l r)
            as (_ & -> & _ & -> & _).
          destruct (write_gfa_link_frame st a l r) as (_ & -> & _ & -> & _).
          now apply Hwit. }
        assert (Hlen' : (T <= length (output_buffer st'))%nat).
        { unfold st'.
          rewrite (proj1 (proj2 (proj2 (proj2 (proj2 (proj2 (proj2
                     (append_link_to_path_frame _ left_t_id l r)))))))).
          rewrite (proj2 (proj2 (proj2 (proj2 (proj2 (proj2 (proj2 (proj2 (proj2
                     (write_gfa_link_frame st a l r)))))))))).
          exact Hlen. }
        rewrite (IH (S a) st' (last (r :: us)) a ltac:(lia) Hwit' Hlen').
        2: { rewrite Hsnoc, <- HUa, last_app.
             destruct (last (U a)) eqn:Hz; [reflexivity|].
             apply last_None in Hz. rewrite HUa in Hz. discriminate. }
        change (thread_text st' x) with (thread_text (write_gfa_link a l r st) x).
        destruct (decide (x = a)) as [->|Hne].
        -- rewrite write_gfa_link_text by lia. rewrite <- app_assoc. f_equal.
           destruct (decide (S a <= a < T)%nat); [lia|].
           destruct (decide (a <= a < T)%nat); [|lia].
           unfold link_entry. rewrite <- Hleft, HUa. now rewrite app_nil_r.
        -- rewrite write_gfa_link_text_other by exact Hne. f_equal.
           destruct (decide (S a <= x < T)%nat), (decide (a <= x < T)%nat);
             try lia; reflexivity.
    + replace (inter_thread_step (st, None, left_t_id) a) with (st, last (U a), a)
        by (unfold inter_thread_step; now rewrite Hla).
      rewrite (IH (S a) st (last (U a)) a ltac:(lia) Hwit Hlen).
      2: { rewrite Hsnoc, last_app. destruct (last (U a)); [reflexivity|exact Hleft]. }
      f_equal. destruct (decide (S a <= x < T)%nat), (decide (a <= x < T)%nat);
        try lia; try reflexivity.
      assert (x = a) by lia. subst x. unfold link_entry. now rewrite <- Hleft.
Qed.

(** X10: what the stitcher adds for thread [x], after the emission calls
    [calls] from the reset of a sequence: to the output of the thread, the
    L-record from the last unitig of the threads before it to its first
    unitig, when both exist; to its spools, the entries of the link from
    its last unitig to the first unitig of the threads after it. Threads
    without a unitig are passed over, and the witnesses are left alone. *)
Theorem stitcher_links_the_shards (thread_count : nat) (st : CdBG)
    (calls : list Call) (x : nat) :
  first_unitig st = replicate thread_count None ->
  second_unitig st = replicate thread_count None ->
  last_unitig st = replicate thread_count None ->
  spools_ready thread_count st ->
  (thread_count <= length (output_buffer st))%nat ->
  (forall c, In c calls -> (call_thread c < thread_count)%nat) ->
  (x < thread_count)%nat ->
  let U := fun t => unitigs_of t calls in
  let st_w := foldl emit st calls in
  let st_l := write_inter_thread_links thread_count st_w in
  thread_text st_l x
  = thread_text st_w x ++ link_entry link_line (tiling_from U 0 x) (U x)
  /\ (exists p o : text,
        path_file st_w !! x = Some p
        /\ overlap_file st_w !! x = Some o
        /\ path_file st_l !! x
           = Some (p ++ link_entry (fun _ r => path_entry r) (U x)
                          (tiling_from U (S x) (thread_count - S x)))
        /\ overlap_file st_l !! x
           = Some (o ++ link_entry overlap_entry (U x)
                          (tiling_from U (S x) (thread_count - S x))))
  /\ first_unitig st_l = first_unitig st_w
  /\ second_unitig st_l = second_unitig st_w
  /\ last_unitig st_l = last_unitig st_w.
Proof.
  intros Hf Hs Hl Hready Hlen Hthreads Hx U st_w st_l.
  assert (Hwit : forall y, (y < thread_count)%nat ->
            slot (first_unitig st_w) y = head (U y)
            /\ slot (last_unitig st_w) y = last (U y)).
  { intros y Hy.
    destruct (emit_all_view thread_count st calls y Hf Hs Hl Hready Hthreads Hy)
      as (Hfy & _ & Hly & _).
    split; [exact Hfy|exact Hly]. }
  split; [|split].
  - unfold st_l, write_inter_thread_links.
    rewrite (stitch_text thread_count U thread_count 0 st_w None 0%nat
               ltac:(lia) Hwit).
    + destruct (decide (0 <= x < thread_count)%nat); [reflexivity|lia].
    + unfold st_w. now rewrite emit_all_buffers.
    + reflexivity.
  - assert (Hinv : spools_ready thread_count st_w
                   /\ forall y, (y < thread_count)%nat ->
                        slot (first_unitig st_w) y = head (U y)
                        /\ slot (last_unitig st_w) y = last (U y)).
    { split; [now apply emit_all_ready|exact Hwit]. }
    destruct (stitch_files thread_count U thread_count 0 st_w None 0%nat
                ltac:(lia) Hinv I x Hx) as (p & o & Hp & Ho & Hrp & Hro).
    exists p, o. split; [exact Hp|]. split; [exact Ho|].
    cbn zeta in Hrp, Hro. unfold st_l, write_inter_thread_links.
    rewrite Hrp, Hro. unfold stitch_entry.
    destruct (decide (None = Some x)) as [|_]; [discriminate|].
    destruct (decide (0 <= x)%nat); [|lia]. split; reflexivity.
  - destruct (write_inter_thread_links_witnesses thread_count st_w) as (E1 & E2 & E3 & _).
    auto.
Qed.

(** ** What a run keeps *)

Section Run.

Variable Q : CdBG -> Prop.
Hypothesis Q_emit : forall t seq s e st, Q st -> Q (output_unitig_gfa t seq s e st).
Hypothesis Q_link : forall st t u v, Q st -> Q (write_gfa_link t u v st).
Hypothesis Q_spool : forall st t u v, Q st -> Q (append_link_to_path t u v st).
Hypothesis Q_witnesses :
  forall st, Q st ->
    Q (set_witnesses (replicate (length (first_unitig st)) None)
         (replicate (length (second_unitig st)) None)
         (replicate (length (last_unitig st)) None) st).
Hypothesis Q_streams :
  forall st p o f g, Q st -> Q (set_files f g (set_streams p o st)).
Hypothesis Q_record :
  forall st c, Q st -> Q (set_gfa_file (gfa_file st ++ [Direct c]) st).

Lemma write_gfa_path_keeps T st st' : write_gfa_path T st = Done st' -> Q st -> Q st'.
Proof.
  unfold write_gfa_path. destruct (existsb _ _); [discriminate|].
  destruct (search_first_link T st) as [[l|] r]; [|now intros [= <-]].
  destruct (read_spools _ (path_file st)); [|discriminate].
  destruct r as [r|].
  - destruct (read_spools _ (overlap_file st)); [|discriminate].
    intros [= <-]. apply Q_record.
  - intros [= <-]. apply Q_record.
Qed.

Lemma process_sequence_keeps T seq st :
  1 <= k -> Z.of_nat (length seq) < 2 ^ 64 -> (0 < T)%nat -> io_works T ->
  exists st',
    process_sequence T seq st = Done st'
    /\ (Q (set_seq_count (seq_count st + 1) st) -> Q st').
Proof.
  intros Hk Hmax HT Hio. unfold process_sequence.
  destruct (Z.ltb_spec (Z.of_nat (length seq)) k) as [Hshort|Hlong].
  { eexists. split; [reflexivity|]. auto. }
  set (st0 := set_seq_count (seq_count st + 1) st).
  match goal with
  | |- context [reset_path_streams T ?s] =>
      set (st1 := s); destruct (reset_path_streams_ready T st1) as (st2 & Hreset & Hready2);
        [intros t Ht; split; now apply Hio|]
  end.
  rewrite Hreset. cbn [bind_outcome].
  destruct (Nat.eqb_spec T 0) as [HT0|_]; [lia|].
  assert (HQ2 : Q st0 -> Q st2).
  { intros HQ. unfold reset_path_streams in Hreset.
    destruct (existsb _ _); [discriminate|]. injection Hreset as <-.
    apply Q_streams. unfold st1. now apply (Q_witnesses st0). }
  set (P := fun s => spools_ready T s /\ (Q st0 -> Q s)).
  assert (P_emit : forall t sq s e s0, P s0 -> P (output_unitig_gfa t sq s e s0)).
  { intros t sq s e s0 [H1 H2]. split; [now apply output_unitig_gfa_ready|].
    intros HQ. apply Q_emit. now apply H2. }
  assert (Hworkers : exists st3,
            (if task_size_of (Z.of_nat (length seq)) k T =? 0
             then output_gfa_off_substring (S (length seq)) 0 seq
                    (Z.of_nat (length seq)) 0 (wrap64 (Z.of_nat (length seq) - k)) st2
             else option_map (write_inter_thread_links T)
                    (run_tasks (S (length seq)) seq (Z.of_nat (length seq))
                       (shard_tasks (Z.of_nat (length seq)) k T) st2))
            = Some st3 /\ P st3).
  { destruct (_ =? 0).
    - unfold output_gfa_off_substring. rewrite wrap64_small by lia.
      destruct (output_gfa_off_substring_loop_total P P_emit (S (length seq))
                  (S (length seq)) 0%nat seq (Z.of_nat (length seq))
                  (Z.of_nat (length seq) - k) 0 st2)
        as (st3 & -> & HP); try lia.
      exists st3. split; [reflexivity|]. apply HP. now split.
    - destruct (run_tasks_total P P_emit (S (length seq)) seq (Z.of_nat (length seq))
                  (shard_tasks (Z.of_nat (length seq)) k T) st2)
        as (st3 & -> & HP); try lia.
      { intros task Hin. apply (shard_tasks_in_range _ T); [lia|lia|exact Hin]. }
      eexists. split; [reflexivity|].
      destruct HP as [H1 H2]; [now split|]. split.
      + now apply write_inter_thread_links_ready.
      + intros HQ. unfold write_inter_thread_links.
        apply (inter_thread_links_keep Q Q_link Q_spool). now apply H2. }
  destruct Hworkers as (st3 & -> & Hready3 & HQ3). cbn [of_fuel bind_outcome].
  rewrite (note_write_failures_ready T st3 Hio Hready3).
  destruct (write_gfa_path_done T st3 Hready3) as (st' & Hpath & _).
  exists st'. split; [exact Hpath|]. intros HQ.
  apply (write_gfa_path_keeps T st3 st' Hpath). now apply HQ3.
Qed.

Hypothesis Q_count : forall st n, Q st -> Q (set_seq_count n st).

Lemma process_sequences_keeps T seqs st :
  1 <= k -> (forall seq, In seq seqs -> Z.of_nat (length seq) < 2 ^ 64) ->
  (0 < T)%nat -> io_works T ->
  exists st', process_sequences T seqs st = Done st' /\ (Q st -> Q st').
Proof.
  intros Hk Hmax HT Hio. revert st Hmax.
  induction seqs as [|seq seqs IH]; intros st Hmax; cbn [process_sequences].
  - exists st. split; [reflexivity|auto].
  - destruct (process_sequence_keeps T seq st Hk) as (st1 & -> & H1);
      [|exact HT|exact Hio|].
    { apply Hmax. now left. }
    cbn [bind_outcome].
    destruct (IH st1) as (st' & -> & H2).
    { intros seq' Hin. apply Hmax. now right. }
    exists st'. split; [reflexivity|]. intros HQ. apply H2, H1. now apply Q_count.
Qed.

End Run.

(** ** The run of the driver *)

Lemma flush_buffers_gfa_file ts st :
  exists chunks : list Chunk,
    gfa_file (foldl (fun st t_id => flush_buffer t_id st) st ts) = gfa_file st ++ chunks.
Proof.
  revert st. induction ts as [|t ts IH]; intros st; cbn [foldl].
  - exists []. now rewrite app_nil_r.
  - destruct (IH (flush_buffer t st)) as (chunks & ->). unfold flush_buffer.
    cbn [gfa_file set_buffer_size set_output_buffer set_gfa_file].
    eexists. rewrite <- app_assoc. reflexivity.
Qed.

Lemma remove_temp_files_gfa_file ts st :
  gfa_file (foldl remove_temp_file st ts) = gfa_file st.
Proof.
  revert st. induction ts as [|t ts IH]; intros st; cbn [foldl]; [reflexivity|].
  rewrite IH. unfold remove_temp_file. now destruct (path_file st !! t).
Qed.

(** X11: with a thread at least and no operation on a spool failing, a run
    of the driver completes and leaves a GFA file that begins with the
    header, whatever the file held before: the file is opened anew for the
    header and everything else is appended to it. *)
Theorem run_starts_with_the_header (thread_count : nat) (seqs : list text) (st : CdBG) :
  1 <= k -> (forall seq, In seq seqs -> Z.of_nat (length seq) < 2 ^ 64) ->
  (0 < thread_count)%nat -> io_works thread_count ->
  exists (st' : CdBG) (rest : list Chunk),
    output_maximal_unitigs_gfa thread_count seqs st = Done st'
    /\ gfa_file st' = Direct (GFA_HEADER ++ NL) :: rest.
Proof.
  intros Hk Hmax HT Hio. unfold output_maximal_unitigs_gfa.
  set (Q := fun s : CdBG => exists rest, gfa_file s = Direct (GFA_HEADER ++ NL) :: rest).
  assert (Hlog : forall s s', logged_since s s' -> Q s -> Q s').
  { intros s s' (chunks & E & _) (rest & Hr). exists (rest ++ chunks).
    now rewrite E, Hr. }
  destruct (process_sequences_keeps Q) with (T := thread_count) (seqs := seqs)
    (st := start_output thread_count st) as (st1 & -> & HQ); try assumption.
  - intros t seq s e s0. apply Hlog, output_unitig_gfa_logged.
  - intros s0 t u v. apply Hlog, write_gfa_link_logged.
  - intros s0 t u v HQ. exact HQ.
  - intros s0 HQ. exact HQ.
  - intros s0 p o f g HQ. exact HQ.
  - intros s0 c (rest & Hr). exists (rest ++ [Direct c]).
    cbn [gfa_file set_gfa_file]. now rewrite Hr.
  - intros s0 n HQ. exact HQ.
  - cbn [bind_outcome]. destruct HQ as (rest & Hr); [now exists []|].
    unfold remove_temp_files, flush_buffers.
    destruct (flush_buffers_gfa_file (seq 0 thread_count) st1) as (chunks & E).
    eexists _, (rest ++ chunks). split; [reflexivity|].
    rewrite remove_temp_files_gfa_file, E, Hr. reflexivity.
Qed.





(** ** The life of the spool files *)




Lemma process_sequences_short T seqs st c :
  (forall seq, In seq seqs -> Z.of_nat (length seq) < k) ->
  process_sequences T seqs (set_seq_count c st)
  = Done (set_seq_count (c + Z.of_nat (length seqs)) st).
Proof.
  revert c. induction seqs as [|seq seqs IH]; intros c Hall; cbn [process_sequences].
  - cbn [length]. now rewrite Z.add_0_r.
  - unfold process_sequence at 1.
    destruct (Z.ltb_spec (Z.of_nat (length seq)) k) as [_|Hlong].
    2: { specialize (Hall seq (or_introl eq_refl)). lia. }
    cbn [bind_outcome seq_count set_seq_count].
    change (set_seq_count (c + 1) (set_seq_count c st)) with (set_seq_count (c + 1) st).
    rewrite IH by (intros; apply Hall; now right).
    do 2 f_equal. cbn [length]. lia.
Qed.

(** X13: sequences shorter than [k] are passed over: a run over such sequences
    only counts them, writes the header, hands to the logger what the
    threads had buffered and tries the cleanup; no spool file is created
    and no record is written. *)
Theorem short_sequences_are_skipped (thread_count : nat) (seqs : list text) (st : CdBG) :
  (forall seq, In seq seqs -> Z.of_nat (length seq) < k) ->
  output_maximal_unitigs_gfa thread_count seqs st
  = Done (remove_temp_files thread_count
            (flush_buffers thread_count
               (set_seq_count (Z.of_nat (length seqs)) (start_output thread_count st)))).
Proof.
  intros Hshort. unfold output_maximal_unitigs_gfa.
  unfold start_output at 1.
  rewrite process_sequences_short by exact Hshort. cbn [bind_outcome].
  reflexivity.
Qed.

(** ** The marks in the hash table *)

(** X14: the emission calls change the hash table only by marking vertices
    outputted: after the calls [calls] the vertex of a bucket is marked
    exactly when it was marked before or a call emitted the unitig of that
    bucket, and the class of no vertex has changed. *)
Theorem emitted_unitigs_are_marked (calls : list Call) (st : CdBG) (b : Z) :
  state_class (Vertices (foldl emit st calls) b) = state_class (Vertices st b)
  /\ is_outputted (Vertices (foldl emit st calls) b)
     = is_outputted (Vertices st b)
       || existsb (fun c => b =? unitig_id (current_unitig_of (call_start c) (call_end c)))
            calls.
Proof.
  revert st. induction calls as [|c calls IH]; intros st; cbn [foldl existsb].
  - now rewrite orb_false_r.
  - destruct (IH (emit st c)) as [-> ->]. unfold emit.
    rewrite output_unitig_gfa_Vertices.
    set (u := current_unitig_of (call_start c) (call_end c)).
    destruct (is_outputted (Vertices st (unitig_id u))) eqn:Hout.
    + split; [reflexivity|].
      destruct (Z.eqb_spec b (unitig_id u)) as [->|Hne]; [|reflexivity].
      rewrite Hout. reflexivity.
    + destruct (Z.eqb_spec b (unitig_id u)) as [->|Hne].
      * cbn [outputted state_class is_outputted]. rewrite Hout. now split.
      * split; reflexivity.
Qed.

(** ** The shards cover the sequence *)

(** X15: every k-mer index of a sequence belongs to the range of exactly one
    worker, whose thread number is below [thread_count]: to the single
    range of worker 0 when there are fewer k-mers than threads, and to one
    of the [thread_count] ranges otherwise. *)
Theorem shards_cover_the_sequence (seq_len : Z) (thread_count : nat) (i : Z) :
  1 <= k <= seq_len -> seq_len < 2 ^ 64 -> (0 < thread_count)%nat ->
  0 <= i <= seq_len - k ->
  exists (n : nat) (task : Task),
    shard_tasks seq_len k thread_count !! n = Some task
    /\ task_id task = n /\ (n < thread_count)%nat
    /\ left_end task <= i <= right_end task
    /\ forall (n' : nat) (task' : Task),
         shard_tasks seq_len k thread_count !! n' = Some task' ->
         left_end task' <= i <= right_end task' -> n' = n.
Proof.
  intros Hk Hmax HT Hi. unfold shard_tasks, task_size_of.
  rewrite (wrap64_small (seq_len - k)) by lia.
  rewrite (wrap64_small (seq_len - k + 1)) by lia.
  set (count := seq_len - k + 1).
  set (size := count / Z.of_nat thread_count).
  destruct (Z.eqb_spec size 0) as [Hz|Hnz].
  - exists 0%nat. eexists. split; [reflexivity|]. cbn [task_id left_end right_end].
    split; [reflexivity|]. split; [exact HT|]. split; [lia|].
    intros [|n'] task' Hn' _; [reflexivity|discriminate].
  - assert (Hpos : 0 < size).
    { assert (0 <= size) by (apply Z.div_pos; unfold count; lia). lia. }
    assert (Hmul : Z.of_nat thread_count * size <= count) by (apply Z.mul_div_le; lia).
    assert (Hlook : forall n : nat, (n < thread_count)%nat ->
              spawn_tasks thread_count seq_len k thread_count size 0 0 !! n
              = Some {| task_id := n;
                        left_end := Z.of_nat n * size;
                        right_end := if Z.of_nat n =? Z.of_nat thread_count - 1
                                     then seq_len - k
                                     else Z.of_nat n * size + size - 1 |}).
    { intros n Hn. rewrite spawn_tasks_lookup by (unfold count in *; lia).
      cbn [Nat.add]. f_equal. rewrite Z.add_0_l.
      destruct (Z.eqb_spec (Z.of_nat n) (Z.of_nat thread_count - 1)); [reflexivity|].
      rewrite wrap64_small; [reflexivity|].
      assert (Z.of_nat n * size + size <= Z.of_nat thread_count * size) by nia.
      assert (0 <= Z.of_nat n * size) by nia. unfold count in *. lia. }
    set (q := i / size).
    assert (Hq : size * q <= i < size * q + size).
    { unfold q. pose proof (Z.div_mod i size ltac:(lia)) as Hdm.
      pose proof (Z.mod_pos_bound i size Hpos). lia. }
    assert (Hq0 : 0 <= q) by (apply Z.div_pos; lia).
    set (n := Z.to_nat (Z.min q (Z.of_nat thread_count - 1))).
    assert (Hn : (n < thread_count)%nat) by (unfold n; lia).
    exists n. eexists. split; [apply Hlook, Hn|]. cbn [task_id left_end right_end].
    split; [reflexivity|]. split; [exact Hn|]. split.
    + destruct (Z.eqb_spec (Z.of_nat n) (Z.of_nat thread_count - 1)) as [Hlast|Hmid].
      * split; [|lia]. unfold n in *. nia.
      * assert (Z.of_nat n = q) by (unfold n in *; lia). nia.
    + intros n' task' Hn' Hin.
      assert (Hlt' : (n' < thread_count)%nat).
      { apply lookup_lt_Some in Hn'. now rewrite spawn_tasks_length in Hn'. }
      rewrite Hlook in Hn' by exact Hlt'. injection Hn' as <-.
      cbn [left_end right_end] in Hin.
      destruct (Z.eqb_spec (Z.of_nat n') (Z.of_nat thread_count - 1)) as [Hlast|Hmid].
      * assert (Z.of_nat thread_count - 1 <= q) by nia. unfold n. lia.
      * assert (Z.of_nat n' = q) by nia. unfold n. lia.
Qed.

End Writer.

(** * The pipeline of the read graph *)

Section Pipeline_properties.

Variable k : Z.
Variable edges_ext vertices_ext : list ascii.
Variable World : Type.
Variable perform : Read_CdBG.Step -> World -> World.
Variable file_exists : list ascii -> World -> bool.
Variable has_dcc : World -> bool.
Variable dcc_extracted : World -> bool.
Variable extractor_has_dcc : World -> bool.
Variable enumeration_stats : World -> Read_CdBG.kmer_Enumeration_Stats.

Let construct :=
  Read_CdBG.construct k edges_ext vertices_ext World perform file_exists has_dcc
    dcc_extracted extractor_has_dcc enumeration_stats.

Let extract_maximal_unitigs :=
  Read_CdBG.extract_maximal_unitigs World perform file_exists has_dcc dcc_extracted
    extractor_has_dcc.

(** The case analysis on what the pipeline asks of the world and of the
    parameters. *)
Ltac pipeline_cases :=
  repeat (cbn -[txt dec NL Read_CdBG.extract_maximal_unitigs Read_CdBG.count];
          match goal with
          | |- context [file_exists ?p ?w] => destruct (file_exists p w)
          | |- context [has_dcc ?w] => destruct (has_dcc w)
          | |- context [dcc_extracted ?w] => destruct (dcc_extracted w)
          | |- context [extractor_has_dcc ?w] => destruct (extractor_has_dcc w)
          | |- context [Read_CdBG.extract_cycles ?p] =>
              destruct (Read_CdBG.extract_cycles p)
          | |- context [Read_CdBG.dcc_opt ?p] => destruct (Read_CdBG.dcc_opt p)
          end).

Lemma count_app p (l1 l2 : list Read_CdBG.Step) :
  Read_CdBG.count p (l1 ++ l2) = (Read_CdBG.count p l1 + Read_CdBG.count p l2)%nat.
Proof. unfold Read_CdBG.count. now rewrite List.filter_app, length_app. Qed.

Lemma count_cons p (s : Read_CdBG.Step) (l : list Read_CdBG.Step) :
  Read_CdBG.count p (s :: l) = ((if p s then 1 else 0) + Read_CdBG.count p l)%nat.
Proof. unfold Read_CdBG.count. cbn [List.filter]. now destruct (p s). Qed.

Lemma count_nil p : Read_CdBG.count p [] = 0%nat.
Proof. reflexivity. Qed.

Ltac count_steps :=
  cbn -[txt dec NL Read_CdBG.extract_maximal_unitigs Read_CdBG.count];
  repeat (rewrite count_cons || rewrite count_app || rewrite count_nil);
  cbn -[txt dec NL Read_CdBG.count].

Ltac unfold_pipeline :=
  unfold Read_CdBG.no_cycle_pending, Read_CdBG.is_constructed,
    Read_CdBG.compute_DFA_states, Read_CdBG.enumerate, Read_CdBG.say, Read_CdBG.call,
    Read_CdBG.ask, Read_CdBG.bind, Read_CdBG.ret.

Lemma extract_maximal_unitigs_saves params vertex_db_path w :
  (Read_CdBG.count Read_CdBG.is_save (extract_maximal_unitigs params vertex_db_path w).2
   <= if negb (Read_CdBG.extract_cycles params) && Read_CdBG.dcc_opt params
      then 1 else 0)%nat.
Proof.
  unfold extract_maximal_unitigs, Read_CdBG.extract_maximal_unitigs. unfold_pipeline.
  pipeline_cases; count_steps; lia.
Qed.

Lemma extract_maximal_unitigs_cycles params vertex_db_path w :
  (Read_CdBG.count Read_CdBG.is_cycle_extraction
     (extract_maximal_unitigs params vertex_db_path w).2
   <= if Read_CdBG.extract_cycles params then 1 else 0)%nat.
Proof.
  unfold extract_maximal_unitigs, Read_CdBG.extract_maximal_unitigs. unfold_pipeline.
  pipeline_cases; count_steps; lia.
Qed.

Lemma extract_maximal_unitigs_unitigs params vertex_db_path w :
  Read_CdBG.count Read_CdBG.is_unitig_extraction
    (extract_maximal_unitigs params vertex_db_path w).2
  = if file_exists (Read_CdBG.json_file_path params) w then 0%nat else 1%nat.
Proof.
  unfold extract_maximal_unitigs, Read_CdBG.extract_maximal_unitigs. unfold_pipeline.
  destruct (file_exists (Read_CdBG.json_file_path params) w) eqn:Hjson;
    cbn -[txt dec NL Read_CdBG.count]; pipeline_cases; count_steps; reflexivity.
Qed.

(** The steps of [construct]: a single line when the graph is complete,
    and otherwise the stages before the extraction, the extraction, and
    the end of the run. *)
Lemma construct_steps params w :
  if file_exists (Read_CdBG.json_file_path params) w
     && (negb (has_dcc w) || dcc_extracted w)
  then exists msg, construct params w = (tt, perform (Read_CdBG.Say msg) w, [Read_CdBG.Say msg])
  else
    exists (before : list Read_CdBG.Step) (msg : list ascii) (w1 w2 : World)
           (steps_e : list Read_CdBG.Step),
      (construct params w).2
      = before
          ++ (if negb (Read_CdBG.extract_cycles params) && negb (Read_CdBG.dcc_opt params)
              then [Read_CdBG.Save_hash_table params] else [])
          ++ Read_CdBG.Say msg :: steps_e
          ++ (if negb (has_dcc w2) || dcc_extracted w2
              then [Read_CdBG.Remove_hash_table params] else [])
          ++ [Read_CdBG.Clear_hash_table; Read_CdBG.Dump_info]
      /\ extract_maximal_unitigs params
           (Read_CdBG.output_prefix params ++ vertices_ext) w1 = (tt, w2, steps_e)
      /\ head before = Some (Read_CdBG.Add_build_params params)
      /\ Read_CdBG.count Read_CdBG.is_save before = 0%nat
      /\ Read_CdBG.count Read_CdBG.is_cycle_extraction before = 0%nat
      /\ Read_CdBG.count Read_CdBG.is_unitig_extraction before = 0%nat.
Proof.
  unfold construct, Read_CdBG.construct. unfold_pipeline.
  cbn -[txt dec NL Read_CdBG.extract_maximal_unitigs Read_CdBG.count].
  destruct (file_exists (Read_CdBG.json_file_path params) w);
    cbn -[txt dec NL Read_CdBG.extract_maximal_unitigs Read_CdBG.count];
    [destruct (has_dcc w);
     cbn -[txt dec NL Read_CdBG.extract_maximal_unitigs Read_CdBG.count];
     [destruct (dcc_extracted w);
      cbn -[txt dec NL Read_CdBG.extract_maximal_unitigs Read_CdBG.count]|]|];
    try (eexists; reflexivity).
  all: destruct (Read_CdBG.extract_cycles params), (Read_CdBG.dcc_opt params);
       cbn -[txt dec NL Read_CdBG.extract_maximal_unitigs Read_CdBG.count].
  all: match goal with
       | |- context [Read_CdBG.extract_maximal_unitigs _ _ _ _ _ _ ?p ?v ?w1] =>
           destruct (Read_CdBG.extract_maximal_unitigs World perform file_exists has_dcc
                       dcc_extracted extractor_has_dcc p v w1) as [[[] w2] steps_e] eqn:E;
           eexists [_; _; _; _; _; _; _; _; _; _; _; _; _], _, w1, w2, steps_e
       end;
       (split; [|split; [exact E|repeat split]]);
       cbn -[txt dec NL Read_CdBG.extract_maximal_unitigs Read_CdBG.count];
       destruct (has_dcc w2);
       cbn -[txt dec NL Read_CdBG.extract_maximal_unitigs Read_CdBG.count];
       try destruct (dcc_extracted w2);
       cbn -[txt dec NL Read_CdBG.extract_maximal_unitigs Read_CdBG.count];
       reflexivity.
Qed.

(** X16: [construct] saves the hash table at most once, though two places of
    the pipeline may save it, and never when the detached cycles are to be
    extracted. *)
Theorem hash_table_is_saved_at_most_once (params : Read_CdBG.Build_Params) (w : World) :
  let steps := (construct params w).2 in
  (Read_CdBG.count Read_CdBG.is_save steps <= 1)%nat
  /\ (Read_CdBG.extract_cycles params = true ->
      Read_CdBG.count Read_CdBG.is_save steps = 0%nat).
Proof.
  cbn zeta. pose proof (construct_steps params w) as H.
  destruct (_ && _).
  - destruct H as (msg & ->). split; [cbn; lia|reflexivity].
  - destruct H as (before & msg & w1 & w2 & steps_e & -> & E & _ & Hb & _).
    pose proof (extract_maximal_unitigs_saves params
                  (Read_CdBG.output_prefix params ++ vertices_ext) w1) as Hsaves.
    rewrite E in Hsaves. cbn [snd] in Hsaves.
    destruct (Read_CdBG.extract_cycles params), (Read_CdBG.dcc_opt params);
      cbn [negb andb] in *; destruct (negb (has_dcc w2) || dcc_extracted w2);
      count_steps; rewrite Hb; split; try lia; try discriminate; intros _; lia.
Qed.

(** X17: the detached cycles are extracted only when the parameters ask for
    it, and at most once in a run of [construct]; the maximal unitigs are
    extracted at most once. *)
Theorem cycles_are_extracted_on_request (params : Read_CdBG.Build_Params) (w : World) :
  let steps := (construct params w).2 in
  (Read_CdBG.count Read_CdBG.is_cycle_extraction steps
   <= if Read_CdBG.extract_cycles params then 1 else 0)%nat
  /\ (Read_CdBG.count Read_CdBG.is_unitig_extraction steps <= 1)%nat.
Proof.
  cbn zeta. pose proof (construct_steps params w) as H.
  destruct (_ && _).
  - destruct H as (msg & ->). split; cbn; [destruct (Read_CdBG.extract_cycles params)|];
      lia.
  - destruct H as (before & msg & w1 & w2 & steps_e & -> & E & _ & _ & Hc & Hu).
    pose proof (extract_maximal_unitigs_cycles params
                  (Read_CdBG.output_prefix params ++ vertices_ext) w1) as Hcycles.
    pose proof (extract_maximal_unitigs_unitigs params
                  (Read_CdBG.output_prefix params ++ vertices_ext) w1) as Hunitigs.
    rewrite E in Hcycles, Hunitigs. cbn [snd] in Hcycles, Hunitigs.
    destruct (file_exists (Read_CdBG.json_file_path params) w1);
      destruct (negb (Read_CdBG.extract_cycles params) && negb (Read_CdBG.dcc_opt params));
      destruct (negb (has_dcc w2) || dcc_extracted w2);
      count_steps; rewrite Hc, Hu, Hunitigs; split; lia.
Qed.

(** X18: a run of [construct] on a graph that is complete (its information
    file exists, and no detached cycle waits for its extraction) prints one
    line and does nothing else. Any other run begins by recording the
    parameters, extracts from the vertex database, removes the hash table
    exactly when no cycle is pending after the extraction, and ends by
    clearing the hash table and dumping the information. *)
Theorem construct_runs_unless_complete (params : Read_CdBG.Build_Params) (w : World) :
  if file_exists (Read_CdBG.json_file_path params) w
     && (negb (has_dcc w) || dcc_extracted w)
  then exists msg, construct params w = (tt, perform (Read_CdBG.Say msg) w, [Read_CdBG.Say msg])
  else
    exists (middle : list Read_CdBG.Step) (w1 w2 : World) (steps_e : list Read_CdBG.Step),
      extract_maximal_unitigs params
        (Read_CdBG.output_prefix params ++ vertices_ext) w1 = (tt, w2, steps_e)
      /\ (construct params w).2
         = Read_CdBG.Add_build_params params :: middle ++ steps_e
             ++ (if negb (has_dcc w2) || dcc_extracted w2
                 then [Read_CdBG.Remove_hash_table params] else [])
             ++ [Read_CdBG.Clear_hash_table; Read_CdBG.Dump_info].
Proof.
  pose proof (construct_steps params w) as H.
  destruct (_ && _); [exact H|].
  destruct H as (before & msg & w1 & w2 & steps_e & Hsteps & E & Hhead & _).
  destruct before as [|s before]; [discriminate|]. injection Hhead as ->.
  exists (before
            ++ (if negb (Read_CdBG.extract_cycles params) && negb (Read_CdBG.dcc_opt params)
                then [Read_CdBG.Save_hash_table params] else [])
            ++ [Read_CdBG.Say msg]), w1, w2, steps_e.
  split; [exact E|]. rewrite Hsteps. cbn [app]. f_equal.
  rewrite <- !app_assoc. reflexivity.
Qed.

End Pipeline_properties.

(** ** Examples *)

Lemma shard_partition_witness :
  1 <= 3 <= 7 /\ 7 < 2 ^ 64 /\ task_size_of 7 3 2 <> 0
  /\ length (shard_tasks 7 3 2) = 2%nat
  /\ exists task : Task,
       shard_tasks 7 3 2 !! 1%nat = Some task
       /\ left_end task = 2 /\ right_end task = 4.
Proof.
  assert (H1 : 1 <= 3 <= 7) by lia.
  assert (H2 : 7 < 2 ^ 64) by lia.
  assert (H3 : task_size_of 7 3 2 <> 0) by (vm_compute; discriminate).
  destruct (shard_partition 7 3 2 H1 H2 H3) as [Hlen Hall].
  split; [exact H1|]. split; [exact H2|]. split; [exact H3|].
  split; [exact Hlen|].
  destruct (Hall 1%nat ltac:(lia)) as (task & Hl & _ & Hleft & _ & _ & Hlast).
  exists task. split; [exact Hl|]. split; [exact Hleft|].
  apply Hlast. reflexivity.
Defined.

(** With five k-mers and two threads the first range holds two indices, not
    the three of the rounded-up quotient. *)
Lemma shard_size_is_not_rounded_up :
  ~ (forall task : Task,
       In task (shard_tasks 7 3 2) -> (task_id task < 2 - 1)%nat ->
       right_end task - left_end task + 1 = (7 - 3 + 1 + 2 - 1) / 2).
Proof.
  intros Hclaim.
  specialize (Hclaim {| task_id := 0; left_end := 0; right_end := 1 |}).
  assert (Hin : In {| task_id := 0; left_end := 0; right_end := 1 |} (shard_tasks 7 3 2))
    by (vm_compute; left; reflexivity).
  specialize (Hclaim Hin ltac:(simpl; lia)). vm_compute in Hclaim. discriminate.
Qed.

(** Two threads emit the same unitig at once: both load its entry before
    either updates it; thread 0 wins the update and writes the segment,
    thread 1 loses and writes none. *)
Lemma toy_race :
  exists (trace : list Event) (m : Machine),
    steps 3 1000 toy_complement toy_bucket_id toy_machine trace m
    /\ trace = [Flip 0 6; Segment 0 6]
    /\ workers m = [Idle; Idle].
Proof.
  pose (seq := txt "ACG").
  pose (a := toy_kmer "ACG" "CGT" "ACG" 0 FWD).
  eexists _, _. split; [|split].
  - eapply steps_snoc; [eapply steps_snoc; [eapply steps_snoc; [eapply steps_snoc;
      [eapply steps_snoc; [eapply steps_snoc; [eapply steps_snoc; [eapply steps_snoc;
      [apply steps_nil|]|]|]|]|]|]|]|].
    + apply (step_load 3 1000 toy_complement toy_bucket_id _ 0%nat seq a a).
      reflexivity.
    + apply (step_load 3 1000 toy_complement toy_bucket_id _ 1%nat seq a a).
      reflexivity.
    + eapply (step_mark 3 1000 toy_complement toy_bucket_id _ 0%nat). reflexivity.
    + eapply (step_mark 3 1000 toy_complement toy_bucket_id _ 1%nat). reflexivity.
    + eapply (step_segment 3 1000 toy_complement toy_bucket_id _ 0%nat). reflexivity.
    + eapply (step_skip 3 1000 toy_complement toy_bucket_id _ 1%nat). reflexivity.
    + eapply (step_record 3 1000 toy_complement toy_bucket_id _ 0%nat). reflexivity.
    + eapply (step_record 3 1000 toy_complement toy_bucket_id _ 1%nat). reflexivity.
  - reflexivity.
  - reflexivity.
Defined.

Lemma one_segment_per_unitig_witness :
  (forall t w, workers toy_machine !! t = Some w -> w = Idle)
  /\ exists (trace : list Event) (m : Machine),
       steps 3 1000 toy_complement toy_bucket_id toy_machine trace m
       /\ trace = [Flip 0 6; Segment 0 6]
       /\ NoDup (segments trace) /\ NoDup (flips trace)
       /\ is_outputted (Vertices (shared m) 6) = true.
Proof.
  assert (Hidle : forall t w, workers toy_machine !! t = Some w -> w = Idle).
  { intros [|[|t]] w Hw; cbv in Hw; congruence. }
  split; [exact Hidle|].
  destruct toy_race as (trace & m & Hsteps & Htrace & _).
  exists trace, m. split; [exact Hsteps|]. split; [exact Htrace|].
  destruct (one_segment_per_unitig 3 1000 toy_complement toy_bucket_id
              toy_machine m trace Hidle Hsteps)
    as (Hseg & Hflip & _ & _ & Hflag).
  split; [exact Hseg|]. split; [exact Hflip|].
  apply (Hflag 0%nat 6). rewrite Htrace. left. reflexivity.
Defined.

Lemma witness_slots_consistent_witness :
  first_unitig (shared toy_machine) = replicate 2 None
  /\ second_unitig (shared toy_machine) = replicate 2 None
  /\ last_unitig (shared toy_machine) = replicate 2 None
  /\ exists (trace : list Event) (m : Machine),
       steps 3 1000 toy_complement toy_bucket_id toy_machine trace m
       /\ trace = [Flip 0 6; Segment 0 6]
       /\ forall t : nat,
            (is_valid (slot (second_unitig (shared m)) t) = true ->
             is_valid (slot (first_unitig (shared m)) t) = true)
            /\ (is_valid (slot (first_unitig (shared m)) t) = true ->
                is_valid (slot (last_unitig (shared m)) t) = true).
Proof.
  split; [reflexivity|]. split; [reflexivity|]. split; [reflexivity|].
  destruct toy_race as (trace & m & Hsteps & Htrace & _).
  exists trace, m. split; [exact Hsteps|]. split; [exact Htrace|].
  exact (witness_slots_consistent 3 1000 toy_complement toy_bucket_id
           toy_machine m trace 2 eq_refl eq_refl eq_refl Hsteps).
Defined.

(** Thread 0 owns the indices 0 and 1 of a sequence that is one unitig of
    five k-mers: it walks on to index 4 and emits the unitig there. *)
Lemma walker_overshoot_witness :
  let seq := txt "ACGGTCA" in
  let V := Vertices toy_branching in
  let K := kmer_at 3 toy_complement toy_bucket_id seq V in
  let ws := walk_init 3 "N" 1000 toy_complement toy_bucket_id toy_is_unipath_start
              toy_is_unipath_end (toy_kmer "" "" "" 0 FWD) 0 seq 0 (K 0) toy_branching in
  1 <= 3 /\ 0 <= kmer_idx ws.1 /\ kmer_idx ws.1 + 3 <= 7 /\ 7 < 2 ^ 64
  /\ 7 - 3 - kmer_idx ws.1 < Z.of_nat 8
  /\ on_unipath ws.1 = true
  /\ ends_at toy_is_unipath_end (K 2) (K 3) = true
  /\ exists (w' : Walk) (st' : CdBG),
       walk_loop 3 "N" 1000 toy_complement toy_bucket_id toy_is_unipath_start
         toy_is_unipath_end 8 0 seq 7 1 ws.1 ws.2 = Some (w', st')
       /\ on_unipath w' = false
       /\ kmer_idx w' = 3
       /\ st' = output_unitig_gfa 3 1000 toy_complement toy_bucket_id 0 seq (K 0) (K 2)
                  ws.2
       /\ slot (last_unitig st') 0
          = Some {| unitig_id := 5; unitig_dir := BWD;
                    start_kmer_idx := 0; end_kmer_idx := 2 |}.
Proof.
  intros seq V K ws.
  assert (H1 : 1 <= 3) by lia.
  assert (H2 : 0 <= kmer_idx ws.1) by (vm_compute; discriminate).
  assert (H3 : kmer_idx ws.1 + 3 <= 7) by (vm_compute; discriminate).
  assert (H4 : 7 < 2 ^ 64) by lia.
  assert (H5 : 7 - 3 - kmer_idx ws.1 < Z.of_nat 8) by (vm_compute; reflexivity).
  do 5 (split; [assumption|]). split; [reflexivity|].
  split; [vm_compute; reflexivity|].
  destruct (walker_overshoot 3 "N" 1000 toy_complement toy_bucket_id
              toy_is_unipath_start toy_is_unipath_end (toy_kmer "" "" "" 0 FWD)
              8 0 seq 7 1 ws.1 ws.2
              H1 H2 H3 H4 H5)
    as (w' & st' & Hloop & Hoff & _ & _ & _ & _ & _ & Hevent & _).
  exists w', st'. split; [exact Hloop|]. split; [exact Hoff|].
  assert (Hlen : 7 <= Z.of_nat (length seq)) by (vm_compute; discriminate).
  assert (Hidx : 1 <= kmer_idx ws.1) by (vm_compute; discriminate).
  assert (Hholds : walk_holds 3 toy_complement toy_bucket_id seq (Vertices ws.2) ws.1)
    by (split; vm_compute; reflexivity).
  specialize (Hevent Hlen Hidx Hholds 1%nat). cbv zeta in Hevent.
  destruct Hevent as [_ Hnext].
  - vm_compute. discriminate.
  - intros [|n] Hn; [|lia].
    split; [vm_compute; reflexivity|intros _; vm_compute; reflexivity].
  - intros [|[|n]] Hn; [left; vm_compute; reflexivity ..|lia].
  - right. split; vm_compute; reflexivity.
  - destruct Hnext as (_ & _ & Hpast); [vm_compute; reflexivity|].
    destruct Hpast as [Hst Hat]; [vm_compute; discriminate|].
    split; [rewrite Hat; vm_compute; reflexivity|].
    split; [rewrite Hst; vm_compute; reflexivity|].
    rewrite Hst. vm_compute. reflexivity.
Defined.

Lemma unitig_orientation_witness :
  let a := toy_kmer "TGA" "TCA" "TCA" 4 BWD in
  (0 < length (last_unitig toy_ready))%nat
  /\ (0 < length (output_buffer toy_ready))%nat
  /\ exists u : Oriented_Unitig,
       slot (last_unitig (output_unitig_gfa 3 1000 toy_complement toy_bucket_id
                            0 (txt "ACGNTGA") a a toy_ready)) 0 = Some u
       /\ (unitig_dir u = BWD <-> kmer_ltb (kmer a) (rev_compl a) = false)
       /\ unitig_dir u = BWD.
Proof.
  intros a.
  assert (H1 : (0 < length (last_unitig toy_ready))%nat) by (cbv; lia).
  assert (H2 : (0 < length (output_buffer toy_ready))%nat) by (cbv; lia).
  split; [exact H1|]. split; [exact H2|].
  destruct (unitig_orientation 3 1000 toy_complement toy_bucket_id toy_ready 0
              (txt "ACGNTGA") a a H1 H2) as (u & Hu & _ & Hbwd & _).
  exists u. split; [exact Hu|]. split; [exact Hbwd|].
  apply Hbwd. reflexivity.
Defined.

Lemma unitig_id_is_min_bucket_witness :
  let s := toy_kmer "CGT" "ACG" "ACG" 0 BWD in
  let e := toy_kmer "TAC" "GTA" "GTA" 2 BWD in
  (0 < length (last_unitig toy_ready))%nat
  /\ (0 < length (output_buffer toy_ready))%nat
  /\ exists u : Oriented_Unitig,
       slot (last_unitig (output_unitig_gfa 3 1000 toy_complement toy_bucket_id
                            0 (txt "CGTAC") s e toy_ready)) 0 = Some u
       /\ unitig_id u = toy_bucket_id (txt "ACG")
       /\ unitig_id u = 6.
Proof.
  intros s e.
  assert (H1 : (0 < length (last_unitig toy_ready))%nat) by (cbv; lia).
  assert (H2 : (0 < length (output_buffer toy_ready))%nat) by (cbv; lia).
  split; [exact H1|]. split; [exact H2|].
  destruct (unitig_id_is_min_bucket 3 1000 toy_complement toy_bucket_id toy_ready 0
              (txt "CGTAC") s e H1 H2) as (u & Hu & Hid & _).
  exists u. split; [exact Hu|]. split; [exact Hid|].
  rewrite Hid. reflexivity.
Defined.

Lemma link_and_path_entries_witness :
  let u := {| unitig_id := 6; unitig_dir := FWD; start_kmer_idx := 0; end_kmer_idx := 0 |} in
  let v := {| unitig_id := 52; unitig_dir := BWD; start_kmer_idx := 4; end_kmer_idx := 4 |} in
  1 <= 3 < 2 ^ 16
  /\ 0 <= end_kmer_idx u < 2 ^ 64 - 1
  /\ (0 < length (output_buffer toy_ready))%nat
  /\ path_output toy_ready !! 0%nat = Some false
  /\ overlap_output toy_ready !! 0%nat = Some false
  /\ path_file toy_ready !! 0%nat = Some []
  /\ overlap_file toy_ready !! 0%nat = Some []
  /\ thread_text (write_gfa_link 3 1000 0 u v toy_ready) 0
     = txt "L" ++ TAB ++ txt "6" ++ TAB ++ txt "+" ++ TAB ++ txt "52" ++ TAB
         ++ txt "-" ++ TAB ++ txt "0M" ++ NL
  /\ path_file (append_link_to_path 3 0 u v toy_ready) !! 0%nat = Some (txt ",52-")
  /\ overlap_file (append_link_to_path 3 0 u v toy_ready) !! 0%nat = Some (txt ",0M").
Proof.
  intros u v.
  assert (H1 : 1 <= 3 < 2 ^ 16) by lia.
  assert (H2 : 0 <= end_kmer_idx u < 2 ^ 64 - 1) by (cbn; lia).
  assert (H3 : (0 < length (output_buffer toy_ready))%nat) by (cbv; lia).
  assert (H4 : path_output toy_ready !! 0%nat = Some false) by reflexivity.
  assert (H5 : overlap_output toy_ready !! 0%nat = Some false) by reflexivity.
  assert (H6 : path_file toy_ready !! 0%nat = Some []) by (vm_compute; reflexivity).
  assert (H7 : overlap_file toy_ready !! 0%nat = Some []) by (vm_compute; reflexivity).
  do 7 (split; [assumption|]).
  destruct (link_and_path_entries 3 1000 toy_ready 0 0 u v [] [] H1 H2 H3 H4 H5 H6 H7)
    as (Hlink & Hpath & Hoverlap & _).
  split; [rewrite Hlink; reflexivity|].
  split; [rewrite Hpath; reflexivity|rewrite Hoverlap; reflexivity].
Defined.

Lemma segment_record_witness :
  1 <= 3 /\ 0 <= 0 <= 2 /\ 2 + 3 <= Z.of_nat (length (txt "ACGTA"))
  /\ Z.of_nat (length (txt "ACGTA")) < 2 ^ 64
  /\ (0 < length (output_buffer toy_ready))%nat
  /\ thread_text (write_gfa_segment 3 1000 toy_complement 0 (txt "ACGTA") 6 0 2 BWD
                    toy_ready) 0
     = txt "S" ++ TAB ++ txt "6" ++ TAB ++ txt "TACGT" ++ TAB ++ txt "LN:i:5"
         ++ TAB ++ txt "KC:i:3" ++ NL.
Proof.
  assert (H1 : 1 <= 3) by lia.
  assert (H2 : 0 <= 0 <= 2) by lia.
  assert (H3 : 2 + 3 <= Z.of_nat (length (txt "ACGTA"))) by (vm_compute; discriminate).
  assert (H4 : Z.of_nat (length (txt "ACGTA")) < 2 ^ 64) by (vm_compute; reflexivity).
  assert (H5 : (0 < length (output_buffer toy_ready))%nat) by (cbv; lia).
  do 5 (split; [assumption|]).
  rewrite (segment_record 3 1000 toy_complement toy_ready 0 (txt "ACGTA") 6 0 2 BWD
             H1 H2 H3 H4 H5).
  reflexivity.
Defined.

Lemma path_record_iff_unitig_witness :
  let a := toy_kmer "ACG" "CGT" "ACG" 0 FWD in
  let calls := [ {| call_thread := 0; call_seq := txt "ACG";
                    call_start := a; call_end := a |} ] in
  first_unitig toy_ready = replicate 2 None
  /\ second_unitig toy_ready = replicate 2 None
  /\ last_unitig toy_ready = replicate 2 None
  /\ spools_ready 2 toy_ready
  /\ spools_clean 2 toy_ready
  /\ (forall c, In c calls -> (call_thread c < 2)%nat)
  /\ exists st' : CdBG,
       write_gfa_path 3 2
         (write_inter_thread_links 3 1000 2
            (foldl (emit 3 1000 toy_complement toy_bucket_id) toy_ready calls))
       = Done st'
       /\ exists rest : text,
            last (gfa_file st')
            = Some (Direct (txt "P" ++ TAB ++ txt "P" ++ dec 1 ++ TAB ++ rest ++ NL))
            /\ newline_free (txt "P" ++ TAB ++ txt "P" ++ dec 1 ++ TAB ++ rest).
Proof.
  intros a calls.
  assert (H4 : spools_ready 2 toy_ready).
  { split; [reflexivity|]. split; [reflexivity|].
    intros [|[|t]] Ht; [split; vm_compute; eauto ..|lia]. }
  assert (H5 : spools_clean 2 toy_ready).
  { intros [|[|t]] c Ht H; [| |lia];
      (assert (E : c = []) by (vm_compute in H; destruct H; congruence));
      rewrite E; intros []. }
  assert (H6 : forall c, In c calls -> (call_thread c < 2)%nat).
  { intros c [<-|[]]. cbn. lia. }
  do 3 (split; [reflexivity|]). do 3 (split; [assumption|]).
  destruct (path_record_iff_unitig 3 "N" toy_header 1000 toy_complement toy_bucket_id
              2 toy_ready calls true eq_refl eq_refl eq_refl H4 H5 H6)
    as (st' & Hdone & _ & Hsome & _).
  exists st'. split; [exact Hdone|].
  destruct (Hsome ltac:(discriminate)) as (rest & Hrest & Hline).
  assert (Hcount : seq_count (write_inter_thread_links 3 1000 2
                                (foldl (emit 3 1000 toy_complement toy_bucket_id)
                                   toy_ready calls)) = 1).
  { destruct (write_inter_thread_links_witnesses 3 1000 2
                (foldl (emit 3 1000 toy_complement toy_bucket_id) toy_ready calls))
      as (_ & _ & _ & ->).
    reflexivity. }
  rewrite Hcount in Hrest, Hline.
  exists rest. split; [|exact Hline].
  rewrite Hrest. cbn [gfa_file set_gfa_file]. apply last_snoc.
Defined.



(** ** Examples for the writer as a whole *)

(** Thread 0 emitted nothing and thread 1 one unitig: the search finds the
    unitig of thread 1, and no second one. *)
Lemma search_first_link_finds_first_two_witness :
  let a := toy_kmer "TGA" "TCA" "TCA" 4 BWD in
  let st := output_unitig_gfa 3 1000 toy_complement toy_bucket_id 1 (txt "ACGNTGA") a a
              toy_ready in
  (forall t : nat,
     is_valid (slot (second_unitig st) t) = true ->
     is_valid (slot (first_unitig st) t) = true)
  /\ search_first_link 2 st
     = (Some {| unitig_id := 52; unitig_dir := BWD;
                start_kmer_idx := 4; end_kmer_idx := 4 |}, None).
Proof.
  intros a st.
  assert (H1 : forall t : nat,
             is_valid (slot (second_unitig st) t) = true ->
             is_valid (slot (first_unitig st) t) = true).
  { intros [|[|t]] Ht; vm_compute in Ht; discriminate. }
  split; [exact H1|].
  rewrite (search_first_link_finds_first_two 2 st H1). reflexivity.
Defined.

Lemma emission_keeps_other_threads_witness :
  let a := toy_kmer "ACG" "CGT" "ACG" 0 FWD in
  let st' := output_unitig_gfa 3 1000 toy_complement toy_bucket_id 0 (txt "ACG") a a
               toy_ready in
  1%nat <> 0%nat
  /\ thread_text st' 1 = []
  /\ slot (last_unitig st') 1 = None
  /\ path_file st' !! 1%nat = Some [].
Proof.
  intros a st'.
  assert (H1 : 1%nat <> 0%nat) by lia.
  split; [exact H1|].
  destruct (emission_keeps_other_threads 3 1000 toy_complement toy_bucket_id toy_ready
              0 1 (txt "ACG") a a H1) as (Htext & _ & _ & Hlast & Hpath & _).
  split; [exact Htext|]. split; [exact Hlast|].
  unfold st'. rewrite Hpath. vm_compute. reflexivity.
Defined.

(** Two threads emit one unitig each: the P-record lists the two unitigs,
    and two overlaps. *)
Lemma path_record_lists_unitigs_witness :
  let a := toy_kmer "ACG" "CGT" "ACG" 0 FWD in
  let b := toy_kmer "TGA" "TCA" "TCA" 4 BWD in
  let calls := [ {| call_thread := 1; call_seq := txt "ACGNTGA";
                    call_start := b; call_end := b |};
                 {| call_thread := 0; call_seq := txt "ACGNTGA";
                    call_start := a; call_end := a |} ] in
  first_unitig toy_ready = replicate 2 None
  /\ second_unitig toy_ready = replicate 2 None
  /\ last_unitig toy_ready = replicate 2 None
  /\ spools_ready 2 toy_ready
  /\ (forall t : nat, (t < 2)%nat ->
        path_file toy_ready !! t = Some [] /\ overlap_file toy_ready !! t = Some [])
  /\ (forall c, In c calls -> (call_thread c < 2)%nat)
  /\ (true = false -> forall c, In c calls -> call_thread c = 0%nat)
  /\ exists st' : CdBG,
       write_gfa_path 3 2
         (write_inter_thread_links 3 1000 2
            (foldl (emit 3 1000 toy_complement toy_bucket_id) toy_ready calls))
       = Done st'
       /\ last (gfa_file st')
          = Some (Direct (txt "P" ++ TAB ++ txt "P1" ++ TAB ++ txt "6+,52-" ++ TAB
                            ++ txt "0M,0M" ++ NL)).
Proof.
  intros a b calls.
  assert (H4 : spools_ready 2 toy_ready).
  { split; [reflexivity|]. split; [reflexivity|].
    intros [|[|t]] Ht; [split; vm_compute; eauto ..|lia]. }
  assert (H5 : forall t : nat, (t < 2)%nat ->
             path_file toy_ready !! t = Some [] /\ overlap_file toy_ready !! t = Some []).
  { intros [|[|t]] Ht; [split; vm_compute; reflexivity ..|lia]. }
  assert (H6 : forall c, In c calls -> (call_thread c < 2)%nat).
  { intros c [<-|[<-|[]]]; cbn; lia. }
  assert (H7 : true = false -> forall c, In c calls -> call_thread c = 0%nat)
    by discriminate.
  do 3 (split; [reflexivity|]). split; [exact H4|]. split; [exact H5|].
  split; [exact H6|]. split; [exact H7|].
  pose proof (path_record_lists_unitigs 3 1000 toy_complement toy_bucket_id 2 toy_ready
                calls true eq_refl eq_refl eq_refl H4 H5 H6 H7) as Hrecord.
  cbv zeta in Hrecord.
  change (tiling toy_bucket_id 2 calls)
    with [ {| unitig_id := 6; unitig_dir := FWD; start_kmer_idx := 0; end_kmer_idx := 0 |};
           {| unitig_id := 52; unitig_dir := BWD; start_kmer_idx := 4; end_kmer_idx := 4 |} ]
    in Hrecord.
  eexists. split; [exact Hrecord|].
  cbn [gfa_file set_gfa_file]. rewrite last_snoc.
  destruct (write_inter_thread_links_witnesses 3 1000 2
              (foldl (emit 3 1000 toy_complement toy_bucket_id) toy_ready calls))
    as (_ & _ & _ & ->).
  reflexivity.
Defined.

(** The walker of thread 0 on a sequence that is one unitig: it returns
    the end of the sequence. *)
Lemma walker_emits_successive_unitigs_witness :
  let seq := txt "ACGTACG" in
  1 <= 3 /\ 0 <= 0 /\ 0 + 3 <= 7 /\ 7 < 2 ^ 64 /\ 7 - 3 - 0 <= Z.of_nat 8
  /\ exists (ret : Z) (st' : CdBG) (calls : list Call),
       output_maximal_unitigs_gfa_thread 3 "N" 1000 toy_complement toy_bucket_id
         toy_is_unipath_start toy_is_unipath_end (toy_kmer "" "" "" 0 FWD)
         8 0 seq 7 1 0 toy_ready = Some (ret, st')
       /\ st' = foldl (emit 3 1000 toy_complement toy_bucket_id) toy_ready calls
       /\ ordered_calls 0 seq 0 (ret - 3) calls
       /\ ret = 7.
Proof.
  intros seq.
  assert (H1 : 1 <= 3) by lia.
  assert (H2 : 0 <= 0) by lia.
  assert (H3 : 0 + 3 <= 7) by lia.
  assert (H4 : 7 < 2 ^ 64) by lia.
  assert (H5 : 7 - 3 - 0 <= Z.of_nat 8) by lia.
  do 5 (split; [assumption|]).
  destruct (walker_emits_successive_unitigs 3 "N" 1000 toy_complement toy_bucket_id
              toy_is_unipath_start toy_is_unipath_end (toy_kmer "" "" "" 0 FWD)
              8 0 seq 7 1 0 toy_ready H1 H2 H3 H4 H5)
    as (ret & st' & calls & Hrun & Hst & _ & Hcalls).
  exists ret, st', calls. split; [exact Hrun|]. split; [exact Hst|].
  split; [exact Hcalls|].
  assert (Hval : option_map fst
                   (output_maximal_unitigs_gfa_thread 3 "N" 1000 toy_complement
                      toy_bucket_id toy_is_unipath_start toy_is_unipath_end
                      (toy_kmer "" "" "" 0 FWD) 8 0 seq 7 1 0 toy_ready)
                 = Some 7) by (vm_compute; reflexivity).
  rewrite Hrun in Hval. cbn [option_map fst] in Hval. now injection Hval.
Defined.

(** The worker of the k-mers 0 and 1 of a sequence with a placeholder at
    index 3: it emits the one unitig there is before the placeholder. *)
Lemma worker_emits_successive_unitigs_witness :
  let seq := txt "ACGNTGA" in
  1 <= 3 /\ 0 <= 0 /\ 1 + 3 <= 7 /\ 0 <= 7 < 2 ^ 64 /\ 7 < Z.of_nat 8
  /\ exists (st' : CdBG) (calls : list Call),
       output_gfa_off_substring 3 "N" 1000 toy_complement toy_bucket_id
         toy_is_unipath_start toy_is_unipath_end (toy_kmer "" "" "" 0 FWD)
         8 0 seq 7 0 1 toy_ready = Some st'
       /\ st' = foldl (emit 3 1000 toy_complement toy_bucket_id) toy_ready calls
       /\ ordered_calls 0 seq 0 (7 - 3) calls
       /\ slot (last_unitig st') 0
          = Some {| unitig_id := 6; unitig_dir := FWD;
                    start_kmer_idx := 0; end_kmer_idx := 0 |}.
Proof.
  intros seq.
  assert (H1 : 1 <= 3) by lia.
  assert (H2 : 0 <= 0) by lia.
  assert (H3 : 1 + 3 <= 7) by lia.
  assert (H4 : 0 <= 7 < 2 ^ 64) by lia.
  assert (H5 : 7 < Z.of_nat 8) by lia.
  do 5 (split; [assumption|]).
  destruct (worker_emits_successive_unitigs 3 "N" 1000 toy_complement toy_bucket_id
              toy_is_unipath_start toy_is_unipath_end (toy_kmer "" "" "" 0 FWD)
              8 0 seq 7 0 1 toy_ready H1 H2 H3 H4 H5)
    as (st' & calls & Hrun & Hst & Hcalls).
  exists st', calls. split; [exact Hrun|]. split; [exact Hst|].
  split; [exact Hcalls|].
  assert (Hval : option_map (fun s : CdBG => slot (last_unitig s) 0)
                   (output_gfa_off_substring 3 "N" 1000 toy_complement toy_bucket_id
                      toy_is_unipath_start toy_is_unipath_end (toy_kmer "" "" "" 0 FWD)
                      8 0 seq 7 0 1 toy_ready)
                 = Some (Some {| unitig_id := 6; unitig_dir := FWD;
                                 start_kmer_idx := 0; end_kmer_idx := 0 |}))
    by (vm_compute; reflexivity).
  rewrite Hrun in Hval. cbn [option_map] in Hval. now injection Hval.
Defined.

(** The spool of thread 0 holds an entry of the sequence before: the reset
    empties it. *)
Lemma reset_path_streams_truncates_witness :
  let u := {| unitig_id := 6; unitig_dir := FWD; start_kmer_idx := 0; end_kmer_idx := 0 |} in
  let v := {| unitig_id := 52; unitig_dir := BWD; start_kmer_idx := 4; end_kmer_idx := 4 |} in
  let st := append_link_to_path 3 0 u v toy_ready in
  path_file st !! 0%nat = Some (txt ",52-")
  /\ exists st' : CdBG,
       reset_path_streams toy_io 2 st = Done st'
       /\ path_file st' !! 0%nat = Some []
       /\ overlap_file st' !! 0%nat = Some []
       /\ path_output st' = [false; false].
Proof.
  intros u v st. split; [vm_compute; reflexivity|].
  destruct (reset_path_streams toy_io 2 st) as [st'| | |] eqn:Hreset;
    [|exfalso; vm_compute in Hreset; discriminate ..].
  exists st'. split; [reflexivity|].
  destruct (reset_path_streams_truncates "N" toy_header toy_complement toy_bucket_id
              toy_io 2 st st' Hreset) as (Hfiles & Hpath & _).
  destruct (Hfiles 0%nat) as [Hp Ho].
  split; [exact Hp|]. split; [exact Ho|]. exact Hpath.
Defined.


(** Thread 0 emitted the unitig 6 and thread 1 the unitig 52: the stitcher
    writes the link between them into the buffer of thread 1. *)
Lemma stitcher_links_the_shards_witness :
  let a := toy_kmer "ACG" "CGT" "ACG" 0 FWD in
  let b := toy_kmer "TGA" "TCA" "TCA" 4 BWD in
  let calls := [ {| call_thread := 1; call_seq := txt "ACGNTGA";
                    call_start := b; call_end := b |};
                 {| call_thread := 0; call_seq := txt "ACGNTGA";
                    call_start := a; call_end := a |} ] in
  let st_w := foldl (emit 3 1000 toy_complement toy_bucket_id) toy_ready calls in
  first_unitig toy_ready = replicate 2 None
  /\ second_unitig toy_ready = replicate 2 None
  /\ last_unitig toy_ready = replicate 2 None
  /\ spools_ready 2 toy_ready
  /\ (2 <= length (output_buffer toy_ready))%nat
  /\ (forall c, In c calls -> (call_thread c < 2)%nat)
  /\ (1 < 2)%nat
  /\ thread_text (write_inter_thread_links 3 1000 2 st_w) 1
     = thread_text st_w 1
         ++ txt "L" ++ TAB ++ txt "6" ++ TAB ++ txt "+" ++ TAB ++ txt "52" ++ TAB
         ++ txt "-" ++ TAB ++ txt "0M" ++ NL.
Proof.
  intros a b calls st_w.
  assert (H4 : spools_ready 2 toy_ready).
  { split; [reflexivity|]. split; [reflexivity|].
    intros [|[|t]] Ht; [split; vm_compute; eauto ..|lia]. }
  assert (H5 : (2 <= length (output_buffer toy_ready))%nat) by (cbv; lia).
  assert (H6 : forall c, In c calls -> (call_thread c < 2)%nat).
  { intros c [<-|[<-|[]]]; cbn; lia. }
  assert (H7 : (1 < 2)%nat) by lia.
  do 3 (split; [reflexivity|]). do 4 (split; [assumption|]).
  destruct (stitcher_links_the_shards 3 1000 toy_complement toy_bucket_id 2 toy_ready
              calls 1 eq_refl eq_refl eq_refl H4 H5 H6 H7) as (Htext & _).
  unfold st_w. rewrite Htext. reflexivity.
Defined.

Lemma run_starts_with_the_header_witness :
  let seqs := [txt "ACGNTGA"; txt "AC"] in
  1 <= 3
  /\ (forall seq, In seq seqs -> Z.of_nat (length seq) < 2 ^ 64)
  /\ (0 < 2)%nat /\ io_works toy_io 2
  /\ exists (st' : CdBG) (rest : list Chunk),
       output_maximal_unitigs_gfa 3 "N" toy_header 1000 toy_complement toy_bucket_id
         toy_is_unipath_start toy_is_unipath_end (toy_kmer "" "" "" 0 FWD) toy_io 2 seqs
         toy_state = Done st'
       /\ gfa_file st' = Direct (toy_header ++ NL) :: rest.
Proof.
  intros seqs.
  assert (H1 : 1 <= 3) by lia.
  assert (H2 : forall seq, In seq seqs -> Z.of_nat (length seq) < 2 ^ 64).
  { intros seq [<-|[<-|[]]]; vm_compute; reflexivity. }
  assert (H3 : (0 < 2)%nat) by lia.
  assert (H4 : io_works toy_io 2) by (intros st op t _; reflexivity).
  do 4 (split; [assumption|]).
  exact (run_starts_with_the_header 3 "N" toy_header 1000 toy_complement toy_bucket_id
           toy_is_unipath_start toy_is_unipath_end (toy_kmer "" "" "" 0 FWD) toy_io 2
           seqs toy_state H1 H2 H3 H4).
Defined.


(** Two sequences shorter than k: the output is the header, and what the
    two empty buffers flush at the end. *)
Lemma short_sequences_are_skipped_witness :
  let seqs := [txt "AC"; txt ""] in
  (forall seq, In seq seqs -> Z.of_nat (length seq) < 3)
  /\ exists st' : CdBG,
       output_maximal_unitigs_gfa 3 "N" toy_header 1000 toy_complement toy_bucket_id
         toy_is_unipath_start toy_is_unipath_end (toy_kmer "" "" "" 0 FWD) toy_io 2 seqs
         toy_state = Done st'
       /\ gfa_file st' = [Direct (toy_header ++ NL); Logged 0 []; Logged 1 []]
       /\ seq_count st' = 2.
Proof.
  intros seqs.
  assert (H1 : forall seq, In seq seqs -> Z.of_nat (length seq) < 3).
  { intros seq [<-|[<-|[]]]; vm_compute; reflexivity. }
  split; [exact H1|].
  eexists. split.
  - exact (short_sequences_are_skipped 3 "N" toy_header 1000 toy_complement
             toy_bucket_id toy_is_unipath_start toy_is_unipath_end
             (toy_kmer "" "" "" 0 FWD) toy_io 2 seqs toy_state H1).
  - split; vm_compute; reflexivity.
Defined.

(** Five k-mers and two threads: the k-mer 3 is in the range of thread 1. *)
Lemma shards_cover_the_sequence_witness :
  1 <= 3 <= 7 /\ 7 < 2 ^ 64 /\ (0 < 2)%nat /\ 0 <= 3 <= 7 - 3
  /\ exists task : Task,
       shard_tasks 7 3 2 !! 1%nat = Some task
       /\ task_id task = 1%nat
       /\ left_end task <= 3 <= right_end task.
Proof.
  assert (H1 : 1 <= 3 <= 7) by lia.
  assert (H2 : 7 < 2 ^ 64) by lia.
  assert (H3 : (0 < 2)%nat) by lia.
  assert (H4 : 0 <= 3 <= 7 - 3) by lia.
  do 4 (split; [assumption|]).
  destruct (shards_cover_the_sequence 3 7 2 3 H1 H2 H3 H4)
    as (n & task & Hlookup & Hid & _ & Hin & Honly).
  assert (Hn : 1%nat = n).
  { apply (Honly 1%nat {| task_id := 1; left_end := 2; right_end := 4 |});
      [vm_compute; reflexivity|cbn; lia]. }
  destruct Hn. exists task. split; [exact Hlookup|]. split; [exact Hid|exact Hin].
Defined.
